(** * Personal-Finance Auto-Pilot: categorization engine, query-safety layer
      and retrieval layer, embedded in Rocq.

    The TypeScript sources are embedded function by function.  A JavaScript
    string is a sequence of code units; here a code unit is an [ascii]
    character and the string primitives ([toUpperCase], [trim], the [\s], [\d],
    [\b] classes of regular expressions) are given the behaviour they have on
    the ASCII range.  Asynchronous calls are sequential in the sources, so
    promises are modelled by the value they resolve to; calls that can throw
    return an explicit error. *)

From Stdlib Require Import Ascii String Bool Arith Lia ZArith QArith Qround Lqa
  DecimalString Sorted.
From stdpp Require Import base option list.

Local Open Scope bool_scope.
Local Open Scope nat_scope.

(* ================================================================== *)
(** * JavaScript strings                                                *)
(* ================================================================== *)

Module JS.

(** A string is the list of its code units. *)
Definition jsstring := list ascii.

(** Literals are written [js "..."]. *)
Definition js (s : string) : jsstring := list_ascii_of_string s.

Definition code (c : ascii) : nat := nat_of_ascii c.

(** White space and line terminators: TAB, LF, VT, FF, CR and SPACE. *)
Definition is_space (c : ascii) : bool :=
  let n := code c in ((9 <=? n) && (n <=? 13)) || (n =? 32).

Definition is_digit (c : ascii) : bool :=
  let n := code c in (48 <=? n) && (n <=? 57).

Definition is_upper (c : ascii) : bool :=
  let n := code c in (65 <=? n) && (n <=? 90).

Definition is_lower (c : ascii) : bool :=
  let n := code c in (97 <=? n) && (n <=? 122).

(** Word characters of [\b] and [\w]: letters, digits and the underscore. *)
Definition is_word (c : ascii) : bool :=
  is_upper c || is_lower c || is_digit c || (code c =? 95).

Definition upper_char (c : ascii) : ascii :=
  if is_lower c then ascii_of_nat (code c - 32) else c.

(** [String.prototype.toUpperCase]. *)
Definition toUpperCase (s : jsstring) : jsstring := map upper_char s.

Fixpoint trimStart (s : jsstring) : jsstring :=
  match s with
  | c :: s' => if is_space c then trimStart s' else s
  | [] => []
  end.

Definition trimEnd (s : jsstring) : jsstring := rev (trimStart (rev s)).

(** [String.prototype.trim]. *)
Definition trim (s : jsstring) : jsstring := trimEnd (trimStart s).

Definition char_eqb (a b : ascii) : bool := Ascii.eqb a b.

(** [s.startsWith(p)]. *)
Fixpoint startsWith (s p : jsstring) : bool :=
  match p with
  | [] => true
  | a :: p' =>
      match s with
      | b :: s' => char_eqb a b && startsWith s' p'
      | [] => false
      end
  end.

(** [s.slice(n)] for [0 <= n]. *)
Definition slice (n : nat) (s : jsstring) : jsstring := drop n s.

(** [s.includes(sub)]. *)
Fixpoint includes (s sub : jsstring) : bool :=
  startsWith s sub ||
  match s with
  | [] => false
  | _ :: s' => includes s' sub
  end.

Fixpoint str_eqb (a b : jsstring) : bool :=
  match a, b with
  | [], [] => true
  | x :: a', y :: b' => char_eqb x y && str_eqb a' b'
  | _, _ => false
  end.

(** [arr.join(sep)]. *)
Fixpoint join (sep : jsstring) (l : list jsstring) : jsstring :=
  match l with
  | [] => []
  | [x] => x
  | x :: l' => x ++ sep ++ join sep l'
  end.

Arguments char_eqb : simpl never.
Arguments is_space : simpl never.
Arguments is_digit : simpl never.
Arguments is_upper : simpl never.
Arguments is_lower : simpl never.
Arguments is_word : simpl never.
Arguments upper_char : simpl never.

End JS.

Export JS.

(* ================================================================== *)
(** * Regular expressions                                               *)
(* ================================================================== *)

(** The fragment of JavaScript regular expressions the sources use:
    literal characters, the classes [\s], [\d] and [[A-Z]], greedy
    quantifiers on a class ([+], [{n}], [{n,}]), the word boundary [\b] and
    the end anchor [$]; the flags [i] and [g]. *)
Module RegExp.

Inductive cclass : Type :=
| Lit (c : ascii)      (* the character itself *)
| Space                (* \s *)
| Digit                (* \d *)
| AZ.                  (* [A-Z] *)

Inductive atom : Type :=
| Chr (k : cclass)                               (* one character *)
| Rep (k : cclass) (lo : nat) (hi : option nat)  (* k{lo,hi}, greedy *)
| WordB                                          (* \b *)
| Eos.                                           (* $ *)

Record t : Type := mk {
  source : list atom;
  ignoreCase : bool;
  global : bool
}.

(** A literal piece of a pattern. *)
Definition lit (s : string) : list atom := map (fun c => Chr (Lit c)) (js s).

Definition plus (k : cclass) : atom := Rep k 1 None.
Definition atLeast (n : nat) (k : cclass) : atom := Rep k n None.
Definition exactly (n : nat) (k : cclass) : atom := Rep k n (Some n).

(** Under the [i] flag both sides are canonicalised by upper-casing. *)
Definition class_matches (icase : bool) (k : cclass) (c : ascii) : bool :=
  match k with
  | Lit x => if icase then char_eqb (upper_char x) (upper_char c) else char_eqb x c
  | Space => is_space c
  | Digit => is_digit c
  | AZ => if icase then is_upper (upper_char c) else is_upper c
  end.

Arguments class_matches : simpl never.

Definition is_word_opt (o : option ascii) : bool :=
  match o with Some c => is_word c | None => false end.

Definition more_allowed (hi : option nat) : bool :=
  match hi with Some 0 => false | _ => true end.

(** Greedy repetition with backtracking: one more character is tried
    first; when the continuation fails on every longer run, the run stops
    here provided the lower bound is met.  The result is the input left
    after the whole match. *)
Fixpoint rep (icase : bool) (k : cclass)
    (cont : option ascii -> jsstring -> option jsstring)
    (lo : nat) (hi : option nat) (prev : option ascii) (s : jsstring)
    {struct s} : option jsstring :=
  let stop := match lo with 0 => cont prev s | S _ => None end in
  match s with
  | c :: s' =>
      if class_matches icase k c && more_allowed hi then
        match rep icase k cont (pred lo) (option_map pred hi) (Some c) s' with
        | Some r => Some r
        | None => stop
        end
      else stop
  | [] => stop
  end.

(** Match the pattern at the current position; [prev] is the character
    just before it (for [\b]). *)
Fixpoint match_here (icase : bool) (re : list atom)
    (prev : option ascii) (s : jsstring) {struct re} : option jsstring :=
  match re with
  | [] => Some s
  | Chr k :: re' =>
      match s with
      | c :: s' =>
          if class_matches icase k c then match_here icase re' (Some c) s'
          else None
      | [] => None
      end
  | Rep k lo hi :: re' => rep icase k (match_here icase re') lo hi prev s
  | WordB :: re' =>
      if xorb (is_word_opt prev) (is_word_opt (head s))
      then match_here icase re' prev s else None
  | Eos :: re' =>
      match s with
      | [] => match_here icase re' prev s
      | _ :: _ => None
      end
  end.

Definition match_at (r : t) (pre : jsstring) (s : jsstring) : option jsstring :=
  match_here (ignoreCase r) (source r) (head pre) s.

Record MatchResult : Type := mkMatch {
  before : jsstring;     (* the input up to the match *)
  matched : jsstring;
  after : jsstring       (* the input after the match *)
}.

(** [r.exec(s)] from index 0: the leftmost match.  [pre] holds the
    characters already passed, most recent first. *)
Fixpoint exec_from (r : t) (pre : jsstring) (s : jsstring) : option MatchResult :=
  match match_at r pre s with
  | Some rest =>
      Some (mkMatch (rev pre) (take (length s - length rest) s) rest)
  | None =>
      match s with
      | [] => None
      | c :: s' => exec_from r (c :: pre) s'
      end
  end.

Definition exec (r : t) (s : jsstring) : option MatchResult := exec_from r [] s.

(** [r.test(s)] on a fresh expression. *)
Definition test (r : t) (s : jsstring) : bool :=
  match exec r s with Some _ => true | None => false end.

(** [GetSubstitution] for an expression without capture groups: [$$],
    [$&], [$`] and [$'] are expanded in the replacement text; any other
    use of [$] is literal. *)
Fixpoint GetSubstitution (m : MatchResult) (template : jsstring) : jsstring :=
  match template with
  | [] => []
  | c :: rest =>
      if char_eqb c "$" then
        match rest with
        | d :: rest' =>
            if char_eqb d "$" then "$"%char :: GetSubstitution m rest'
            else if char_eqb d "&" then matched m ++ GetSubstitution m rest'
            else if char_eqb d "`" then before m ++ GetSubstitution m rest'
            else if char_eqb d "'" then after m ++ GetSubstitution m rest'
            else c :: GetSubstitution m rest
        | [] => [c]
        end
      else c :: GetSubstitution m rest
  end.

(** Replacement of every match (flag [g]), scanning left to right.  After
    a match of [n > 0] characters the next [n - 1] characters are passed
    over ([skip]); after an empty match one character is copied. *)
Fixpoint replace_all (r : t) (template : jsstring)
    (pre : jsstring) (s : jsstring) (skip : nat) {struct s} : jsstring :=
  match skip with
  | S k =>
      match s with
      | c :: s' => replace_all r template (c :: pre) s' k
      | [] => []
      end
  | 0 =>
      match match_at r pre s with
      | Some rest =>
          let n := length s - length rest in
          let out := GetSubstitution (mkMatch (rev pre) (take n s) rest) template in
          match s with
          | c :: s' =>
              match n with
              | 0 => out ++ c :: replace_all r template (c :: pre) s' 0
              | S k => out ++ replace_all r template (c :: pre) s' k
              end
          | [] => out
          end
      | None =>
          match s with
          | c :: s' => c :: replace_all r template (c :: pre) s' 0
          | [] => []
          end
      end
  end.

(** Replacement of the first match only (no [g] flag). *)
Definition replace_first (r : t) (template : jsstring) (s : jsstring) : jsstring :=
  match exec r s with
  | Some m => before m ++ GetSubstitution m template ++ after m
  | None => s
  end.

(** [s.replace(r, template)]. *)
Definition replace (r : t) (template : jsstring) (s : jsstring) : jsstring :=
  if global r then replace_all r template [] s 0 else replace_first r template s.

End RegExp.

(* ================================================================== *)
(** * Database schema and queries                                       *)
(* ================================================================== *)

Module Schema.

(** A row of [category_rules]; [pattern] carries a unique constraint. *)
Record CategoryRule : Type := mkRule {
  id : nat;
  pattern : jsstring;
  category : jsstring
}.

Record NewCategoryRule : Type := mkNewRule {
  new_pattern : jsstring;
  new_category : jsstring
}.

(** Document types of the vector store. *)
Inductive DocumentType : Type :=
| transaction | category_rule | query_example | schema.

Definition DocumentType_eqb (a b : DocumentType) : bool :=
  match a, b with
  | transaction, transaction
  | category_rule, category_rule
  | query_example, query_example
  | schema, schema => true
  | _, _ => false
  end.

End Schema.

Module Queries.

Import RegExp Schema.

(** An error raised by the database driver; [code] is the SQLSTATE when
    the server reported one. *)
Record DbError : Type := mkDbError {
  code : option jsstring;
  message : jsstring
}.

(** PostgreSQL unique violation. *)
Definition unique_violation : DbError :=
  mkDbError (Some (js "23505")) (js "duplicate key value violates unique constraint").

Definition connection_error : DbError :=
  mkDbError None (js "fetch failed").

(** The state of the rule table, and whether the server can be reached. *)
Record Database : Type := mkDb {
  category_rules : list CategoryRule;
  next_id : nat;
  reachable : bool
}.

(** Insert a category rule: [db.insert(categoryRules).values(rule).returning()];
    the unique constraint on [pattern] rejects a second row with the same
    pattern. *)
Definition insertCategoryRule (db : Database) (rule : NewCategoryRule)
  : DbError + (CategoryRule * Database) :=
  if negb (reachable db) then inl connection_error
  else if existsb (fun r => str_eqb (pattern r) (new_pattern rule)) (category_rules db)
  then inl unique_violation
  else
    let row := mkRule (next_id db) (new_pattern rule) (new_category rule) in
    inr (row, mkDb (category_rules db ++ [row]) (S (next_id db)) (reachable db)).

(** [/FROM\s+transactions\b/gi]. *)
Definition fromTransactionsRegex : RegExp.t :=
  RegExp.mk (lit "FROM" ++ [plus Space] ++ lit "transactions" ++ [WordB]) true true.

(** [/FROM\s+transactions\s+WHERE/gi]. *)
Definition fromTransactionsWhereRegex : RegExp.t :=
  RegExp.mk (lit "FROM" ++ [plus Space] ++ lit "transactions" ++ [plus Space] ++ lit "WHERE")
            true true.

(** The template literal [`FROM transactions WHERE user_id = '${userId}'`]. *)
Definition whereClause (userId : jsstring) : jsstring :=
  js "FROM transactions WHERE user_id = '" ++ userId ++ js "'".

(** The template literal [`FROM transactions WHERE user_id = '${userId}' AND`]. *)
Definition whereAndClause (userId : jsstring) : jsstring :=
  js "FROM transactions WHERE user_id = '" ++ userId ++ js "' AND".

(** Security: inject the user_id filter.  This is the value of the local
    [secureQuery] of [executeRawQuery]. *)
Definition secureQuery (userId query : jsstring) : jsstring :=
  let hasWhere := test fromTransactionsWhereRegex query in
  if test fromTransactionsRegex query then
    if hasWhere then replace fromTransactionsWhereRegex (whereAndClause userId) query
    else replace fromTransactionsRegex (whereClause userId) query
  else query.

(** Security: only allow SELECT statements. *)
Definition isSelect (query : jsstring) : bool :=
  let normalizedQuery := toUpperCase (trim query) in
  startsWith normalizedQuery (js "SELECT").

Section RawQuery.

Variable Row : Type.

(** What the store answers to a statement it receives. *)
Variable neonSql : jsstring -> DbError + list Row.

Inductive Outcome : Type :=
| Thrown (error : jsstring)
| Resolved (rows : list Row).

(** Execute a raw SQL query (SELECT only, for agent tools).  The second
    component is the list of statements the store has received. *)
Definition executeRawQuery (userId query : jsstring) (received : list jsstring)
  : Outcome * list jsstring :=
  if negb (isSelect query) then
    (Thrown (js "Only SELECT queries are allowed"), received)
  else
    let secure := secureQuery userId query in
    (match neonSql secure with
     | inl e => Thrown (message e)
     | inr rows => Resolved rows
     end, received ++ [secure]).

End RawQuery.

End Queries.

(* ================================================================== *)
(** * Smart categorization module                                       *)
(* ================================================================== *)

Module Categorization.

Import RegExp Schema.

(** Common merchant prefixes to strip for normalization. *)
Definition MERCHANT_PREFIXES : list jsstring := map js [
  "SQ *"; "SQU*"; "SQ*";
  "TST*"; "TOAST*";
  "PP*"; "PAYPAL *";
  "AMZN "; "AMAZON.COM*"; "AMZ*";
  "GOOGLE *"; "GOOGLE*";
  "APPLE.COM/"; "APPLE *";
  "SP "; "SP*";
  "CKE*"; "CHK*";
  "POS ";
  "DEBIT ";
  "PURCHASE ";
  "ACH ";
  "CHECKCARD ";
  "RECURRING "
]%string.

(** Common suffixes to strip: the sources of the regular expressions
    [' LLC'], [' INC'], [' CORP'], [' CO'], [' LTD'], [' #\d+'], [' \d{3,}'],
    [' [A-Z]{2} \d{5}'] and [' \d{2}/\d{2}']. *)
Definition MERCHANT_SUFFIXES : list (list atom) := [
  lit " LLC"; lit " INC"; lit " CORP"; lit " CO"; lit " LTD";
  lit " #" ++ [plus Digit];
  lit " " ++ [atLeast 3 Digit];
  lit " " ++ [exactly 2 AZ] ++ lit " " ++ [exactly 5 Digit];
  lit " " ++ [exactly 2 Digit] ++ lit "/" ++ [exactly 2 Digit]
].

(** [new RegExp(suffix + '$', 'i')]. *)
Definition suffix_regex (suffix : list atom) : RegExp.t :=
  RegExp.mk (suffix ++ [Eos]) true false.

(** [/\s+/g]. *)
Definition whitespace_run : RegExp.t := RegExp.mk [plus Space] false true.

(** [/\s+\d{4,}$/]. *)
Definition trailing_id : RegExp.t :=
  RegExp.mk [plus Space; atLeast 4 Digit; Eos] false false.

(** [/\s+[A-Z]{2,}\s+[A-Z]{2}$/]. *)
Definition city_state : RegExp.t :=
  RegExp.mk [plus Space; atLeast 2 AZ; plus Space; exactly 2 AZ; Eos] false false.

Definition strip_prefix (normalized prefix : jsstring) : jsstring :=
  if startsWith normalized prefix
  then trim (slice (length prefix) normalized)
  else normalized.

Definition strip_suffix (normalized : jsstring) (suffix : list atom) : jsstring :=
  trim (replace (suffix_regex suffix) [] normalized).

(** Normalize merchant name by stripping common prefixes/suffixes and
    cleaning up formatting. *)
Definition normalizeMerchant (description : jsstring) : jsstring :=
  let normalized := trim (toUpperCase description) in
  let normalized := fold_left strip_prefix MERCHANT_PREFIXES normalized in
  let normalized := fold_left strip_suffix MERCHANT_SUFFIXES normalized in
  let normalized := trim (replace whitespace_run (js " ") normalized) in
  let normalized := trim (replace trailing_id [] normalized) in
  let normalized := trim (replace city_state [] normalized) in
  normalized.


(** Available categories for the system. *)
Definition CATEGORIES : list jsstring := map js [
  "Coffee"; "Groceries"; "Dining"; "Transportation"; "Gas"; "Entertainment"; "Shopping"; "Healthcare"; "Fitness"; "Utilities"; "Insurance"; "Subscriptions"; "Travel"; "Education"; "Personal Care"; "Pets"; "Home"; "Transfer"; "Cash Withdrawal"; "Fees"; "Income"; "Other"
]%string.

Inductive Confidence : Type := high | medium | low.
Inductive Method : Type := rule | pattern | ai | fallback.

Record CategorizationResult : Type := mkResult {
  category : jsstring;
  confidence : Confidence;
  method : Method;
  normalizedMerchant : jsstring;
  suggestRule : option bool     (* None: the field is absent *)
}.

(** Extended pattern matching for categorization, in the order of the
    object's keys. *)
Definition EXTENDED_PATTERNS : list (jsstring * list jsstring) := [
  (js "Coffee", map js [
     "STARBUCKS"; "COFFEE"; "DUNKIN"; "PEET"; "CARIBOU"; "COSTA";
     "TIM HORTON"; "PHILZ"; "BLUE BOTTLE"; "CAFE"; "ESPRESSO"; "DUTCH BROS";
     "PEETS"]);
  (js "Groceries", map js [
     "WHOLE FOODS"; "SAFEWAY"; "TRADER JOE"; "KROGER"; "WALMART"; "COSTCO";
     "ALDI"; "PUBLIX"; "WEGMANS"; "HEB"; "MARKET"; "GROCERY"; "SUPERMARKET";
     "FOOD LION"; "GIANT"; "HARRIS TEETER"; "SPROUTS"; "FRESH"; "FOODS";
     "INSTACART"]);
  (js "Dining", map js [
     "RESTAURANT"; "PIZZA"; "MCDONALD"; "CHIPOTLE"; "SUBWAY"; "BURGER";
     "TACO"; "WENDY"; "CHICK-FIL"; "PANERA"; "OLIVE GARDEN"; "APPLEBEE";
     "IHOP"; "DENNY"; "GRUBHUB"; "DOORDASH"; "UBEREATS"; "POSTMATES";
     "SEAMLESS"; "YELP EAT"; "CHILI"; "OUTBACK"; "RED ROBIN"; "BUFFALO WILD";
     "FIVE GUYS"; "IN-N-OUT"; "SHAKE SHACK"; "WINGSTOP"; "DOMINO";
     "PAPA JOHN"; "LITTLE CAESAR"; "KFC"; "POPEYE"; "PANDA EXPRESS";
     "NOODLES"; "SUSHI"; "RAMEN"; "PHO"; "THAI"; "INDIAN"; "CHINESE";
     "MEXICAN"; "ITALIAN"; "GRILL"; "BBQ"; "STEAKHOUSE"; "DINER"; "BISTRO";
     "EATERY"; "KITCHEN"; "CANTINA"; "TAVERN"; "PUB"; "BAR & GRILL"]);
  (js "Transportation", map js [
     "UBER"; "LYFT"; "TAXI"; "CAB"; "METRO"; "TRANSIT"; "BUS"; "TRAIN";
     "AMTRAK"; "PARKING"; "TOLL"; "BIRD"; "LIME"; "SCOOTER"]);
  (js "Gas", map js [
     "SHELL"; "CHEVRON"; "EXXON"; "BP "; "MOBIL"; "TEXACO"; "ARCO"; "CITGO";
     "SUNOCO"; "MARATHON"; "VALERO"; "PHILLIPS 66"; "GAS"; "FUEL"; "PETRO";
     "76 "; "SPEEDWAY"; "WAWA"; "QUIKTRIP"; "RACETRAC"; "CIRCLE K"]);
  (js "Entertainment", map js [
     "NETFLIX"; "SPOTIFY"; "HULU"; "DISNEY"; "HBO"; "AMAZON PRIME";
     "APPLE TV"; "YOUTUBE"; "PEACOCK"; "PARAMOUNT"; "MOVIE"; "CINEMA";
     "THEATRE"; "THEATER"; "CONCERT"; "TICKETMASTER"; "STUBHUB";
     "EVENTBRITE"; "STEAM"; "PLAYSTATION"; "XBOX"; "NINTENDO"; "GAMING";
     "AMC "; "REGAL"; "FANDANGO"; "TWITCH"; "CRUNCHYROLL"; "ESPN"]);
  (js "Shopping", map js [
     "TARGET"; "AMAZON"; "EBAY"; "ETSY"; "BEST BUY"; "APPLE STORE"; "IKEA";
     "HOME DEPOT"; "LOWES"; "BED BATH"; "MACYS"; "NORDSTROM"; "KOHLS";
     "JC PENNEY"; "SEPHORA"; "ULTA"; "NIKE"; "ADIDAS"; "GAP"; "OLD NAVY";
     "ZARA"; "H&M"; "FOREVER 21"; "TJ MAXX"; "ROSS"; "MARSHALLS"; "DOLLAR";
     "STAPLES"; "OFFICE DEPOT"; "MICHAELS"; "HOBBY LOBBY"; "JOANN";
     "LULULEMON"; "FOOT LOCKER"; "FINISH LINE"; "DICKS SPORTING"; "REI ";
     "BASS PRO"; "CABELAS"]);
  (js "Healthcare", map js [
     "PHARMACY"; "CVS"; "WALGREENS"; "RITE AID"; "DOCTOR"; "HOSPITAL";
     "MEDICAL"; "DENTAL"; "VISION"; "OPTOMETRY"; "CLINIC"; "HEALTH";
     "URGENT CARE"; "KAISER"; "BLUE CROSS"; "AETNA"; "UNITED HEALTH";
     "CIGNA"; "QUEST DIAG"; "LABCORP"; "THERAPY"; "COUNSELING";
     "MENTAL HEALTH"; "CHIROPRACT"]);
  (js "Fitness", map js [
     "GYM"; "FITNESS"; "PLANET FITNESS"; "LA FITNESS"; "24 HOUR FITNESS";
     "EQUINOX"; "ORANGETHEORY"; "CROSSFIT"; "YOGA"; "PELOTON"; "CLASSPASS";
     "ANYTIME FITNESS"; "GOLD GYM"; "LIFETIME"; "YMCA"; "YWCA"]);
  (js "Utilities", map js [
     "ELECTRIC"; "GAS BILL"; "WATER"; "SEWER"; "TRASH"; "WASTE"; "COMCAST";
     "XFINITY"; "VERIZON"; "AT&T"; "T-MOBILE"; "SPRINT"; "INTERNET"; "CABLE";
     "PG&E"; "SOUTHERN CALIFORNIA EDISON"; "CON EDISON"; "DUKE ENERGY";
     "DOMINION"; "NATIONAL GRID"]);
  (js "Insurance", map js [
     "INSURANCE"; "GEICO"; "STATE FARM"; "ALLSTATE"; "PROGRESSIVE";
     "LIBERTY MUTUAL"; "FARMERS"; "USAA"; "NATIONWIDE"; "AFLAC"; "METLIFE";
     "PRUDENTIAL"]);
  (js "Subscriptions", map js [
     "SUBSCRIPTION"; "MEMBERSHIP"; "ADOBE"; "MICROSOFT"; "DROPBOX"; "ICLOUD";
     "GOOGLE STORAGE"; "GOOGLE ONE"; "MEDIUM"; "SUBSTACK"; "PATREON";
     "GITHUB"; "NOTION"; "SLACK"; "ZOOM"; "CANVA"; "GRAMMARLY"; "LASTPASS";
     "1PASSWORD"; "DASHLANE"; "VPN"; "NORDVPN"; "EXPRESSVPN"; "AUDIBLE";
     "KINDLE"]);
  (js "Travel", map js [
     "AIRLINE"; "UNITED"; "DELTA"; "AMERICAN AIRLINES"; "SOUTHWEST";
     "JETBLUE"; "SPIRIT"; "FRONTIER"; "HOTEL"; "MARRIOTT"; "HILTON"; "HYATT";
     "AIRBNB"; "VRBO"; "BOOKING"; "EXPEDIA"; "KAYAK"; "TRIVAGO"; "HERTZ";
     "ENTERPRISE"; "AVIS"; "BUDGET"; "NATIONAL CAR"; "ALAMO"; "TURO"; "CRUISE"]);
  (js "Education", map js [
     "UNIVERSITY"; "COLLEGE"; "SCHOOL"; "TUITION"; "COURSERA"; "UDEMY";
     "SKILLSHARE"; "MASTERCLASS"; "LINKEDIN LEARNING"; "DUOLINGO"; "BOOKS";
     "TEXTBOOK"; "CHEGG"; "QUIZLET"; "KHAN ACADEMY"; "CODECADEMY"; "UDACITY";
     "EDX"; "PLURALSIGHT"]);
  (js "Personal Care", map js [
     "SALON"; "BARBER"; "HAIR"; "SPA"; "MASSAGE"; "NAIL"; "BEAUTY"; "WAXING";
     "LASER"; "DERMATOLOG"; "SKINCARE"; "COSMETIC"]);
  (js "Pets", map js [
     "PETCO"; "PETSMART"; "VET"; "VETERINARY"; "PET SUPPLIES"; "CHEWY";
     "BANFIELD"; "PET FOOD"; "GROOMING"]);
  (js "Home", map js [
     "RENT"; "MORTGAGE"; "PROPERTY"; "MAINTENANCE"; "REPAIR"; "PLUMBER";
     "ELECTRICIAN"; "CLEANING"; "MAID"; "HOUSEKEEPING"; "LANDLORD";
     "APARTMENT"; "CONDO"; "HOA"]);
  (js "Transfer", map js [
     "VENMO"; "PAYPAL"; "ZELLE"; "CASH APP"; "WIRE"; "ACH"; "TRANSFER";
     "SEND MONEY"; "PAYMENT TO"; "PAYMENT FROM"]);
  (js "Cash Withdrawal", map js [
     "ATM"; "CASH"; "WITHDRAWAL"; "CASH BACK"]);
  (js "Fees", map js [
     "FEE"; "CHARGE"; "OVERDRAFT"; "LATE FEE"; "SERVICE CHARGE";
     "MAINTENANCE FEE"; "MONTHLY FEE"; "ANNUAL FEE"; "INTEREST CHARGE";
     "FINANCE CHARGE"]);
  (js "Income", map js [
     "PAYROLL"; "SALARY"; "DEPOSIT"; "DIRECT DEP"; "INTEREST"; "DIVIDEND";
     "REFUND"; "REIMBURSEMENT"; "BONUS"; "COMMISSION"; "INCOME"; "CREDIT";
     "CASHBACK"; "REWARD"]);
  (js "Other", [])
]%string.

Definition isCategory (s : jsstring) : bool := existsb (str_eqb s) CATEGORIES.

Definition ruleMatches (upperDesc : jsstring) (r : CategoryRule) : bool :=
  includes upperDesc (toUpperCase (Schema.pattern r)).

(** The nested loops over [Object.entries(EXTENDED_PATTERNS)]: the first
    category, in key order, one of whose patterns occurs in [upperDesc]. *)
Fixpoint scanPatterns (upperDesc : jsstring)
    (table : list (jsstring * list jsstring)) : option jsstring :=
  match table with
  | [] => None
  | (cat, patterns) :: table' =>
      if existsb (fun p => includes upperDesc p) patterns then Some cat
      else scanPatterns upperDesc table'
  end.

Arguments normalizeMerchant : simpl never.

(** Pattern-based categorization (fast, no API calls).  [rules] is what
    [getCategoryRules()] resolved to, in the order the store returned it;
    the read itself and its errors are in [SmartCategorization]. *)
Definition categorizeByPattern (rules : list CategoryRule) (description : jsstring)
  : option CategorizationResult :=
  let normalizedMerchant := normalizeMerchant description in
  let upperDesc := toUpperCase normalizedMerchant in
  (* First check user-defined rules in database (highest priority) *)
  match find (ruleMatches upperDesc) rules with
  | Some r => Some (mkResult (Schema.category r) high rule normalizedMerchant None)
  | None =>
      (* Then check extended patterns *)
      match scanPatterns upperDesc EXTENDED_PATTERNS with
      | Some cat => Some (mkResult cat high pattern normalizedMerchant None)
      | None =>
          let upper := toUpperCase description in
          if startsWith upper (js "SQ *") || startsWith upper (js "SQU*") then None
          else if startsWith upper (js "TST*") || startsWith upper (js "TOAST*") then
            Some (mkResult (js "Dining") medium pattern normalizedMerchant None)
          else None
      end
  end.

Arguments categorizeByPattern : simpl never.

(** The degraded result used whenever the hosted model is unavailable. *)
Definition fallbackResult (normalizedMerchant : jsstring) : CategorizationResult :=
  mkResult (js "Other") low fallback normalizedMerchant (Some true).

Definition aiResult (cat normalizedMerchant : jsstring) : CategorizationResult :=
  mkResult cat (if str_eqb cat (js "Other") then low else medium) ai
           normalizedMerchant (Some true).

(** A parsed JSON value. *)
#[warnings="-register-all"] Inductive JSON : Type :=
| JNull
| JBool (b : bool)
| JNumber (q : Q)
| JString (s : jsstring)
| JArray (items : list JSON)
| JObject (fields : list (jsstring * JSON)).

(** The result of the property access [v[j]]. *)
Inductive Access : Type :=
| TypeError              (* v is null *)
| Undefined
| Value (v : JSON).

Definition decimal (n : nat) : jsstring :=
  js (DecimalString.NilEmpty.string_of_uint (Nat.to_uint n)).

Definition property (v : JSON) (j : nat) : Access :=
  match v with
  | JNull => TypeError
  | JBool _ | JNumber _ => Undefined
  | JString s =>
      match s !! j with Some c => Value (JString [c]) | None => Undefined end
  | JArray items =>
      match items !! j with Some x => Value x | None => Undefined end
  | JObject fields =>
      match find (fun kv => str_eqb (fst kv) (decimal j)) fields with
      | Some kv => Value (snd kv)
      | None => Undefined
      end
  end.

(** [(categories[j] && CATEGORIES.includes(categories[j])) ? categories[j] : 'Other']. *)
Definition checkedCategory (a : Access) : jsstring :=
  match a with
  | Value (JString s) => if isCategory s then s else js "Other"
  | _ => js "Other"
  end.

(** What is sent to the hosted model: the single-item prompt is built from
    the description and its normalized merchant, the batch prompt from the
    normalized merchants of the batch, in order. *)
Inductive ChatRequest : Type :=
| SingleItem (description normalizedMerchant : jsstring)
| BatchItems (merchants : list jsstring).

(** [openai.chat.completions.create] either throws or resolves to a
    response whose choices carry a content that may be null. *)
Inductive ChatResponse : Type :=
| Throws
| Choices (contents : list (option jsstring)).

(** JavaScript arrays with holes: [results[i] = x] extends the array when
    [i] is past its end. *)
Definition array_set {A : Type} (arr : list (option A)) (i : nat) (x : A)
  : list (option A) :=
  if i <? length arr then <[i := Some x]> arr
  else arr ++ replicate (i - length arr) None ++ [Some x].

Definition array_get {A : Type} (arr : list (option A)) (i : nat) : option A :=
  mjoin (arr !! i).

Record AIItem : Type := mkItem {
  index : nat;
  description : jsstring;
  normalized : jsstring
}.

(** [for (i = 0; i < l.length; i += size) l.slice(i, i + size)]. *)
Fixpoint slices {A : Type} (fuel size : nat) (l : list A) : list (list A) :=
  match fuel with
  | 0 => []
  | S fuel' =>
      match l with
      | [] => []
      | _ :: _ => take size l :: slices fuel' size (drop size l)
      end
  end.

Definition batchSize : nat := 20.

Definition batches {A : Type} (l : list A) : list (list A) :=
  slices (length l) batchSize l.

(** [content || '[]']. *)
Definition contentOrEmptyArray (content : option jsstring) : jsstring :=
  match content with
  | Some (c :: t) => c :: t
  | _ => js "[]"
  end.

Section WithEnvironment.

(** [process.env.OPENAI_API_KEY]. *)
Variable OPENAI_API_KEY : option jsstring.

(** The hosted model. *)
Variable chat : ChatRequest -> ChatResponse.

(** [JSON.parse]; [None] is a SyntaxError. *)
Variable JSON_parse : jsstring -> option JSON.

Definition keyConfigured : bool :=
  match OPENAI_API_KEY with
  | Some (_ :: _) => true
  | _ => false
  end.

(** AI-powered categorization using OpenAI.  Only called when pattern
    matching fails. *)
Definition categorizeByAI (description normalizedMerchant : jsstring)
  : CategorizationResult :=
  if negb keyConfigured then fallbackResult normalizedMerchant
  else
    match chat (SingleItem description normalizedMerchant) with
    | Throws => fallbackResult normalizedMerchant
    | Choices [] => fallbackResult normalizedMerchant
    | Choices (content :: _) =>
        let aiCategory :=
          match content with
          | Some c => match trim c with [] => js "Other" | t => t end
          | None => js "Other"
          end in
        let validCategory :=
          if isCategory aiCategory then aiCategory else js "Other" in
        aiResult validCategory normalizedMerchant
    end.

(** Smart categorization - tries pattern matching first, falls back to AI. *)
Definition smartCategorize (rules : list CategoryRule) (description : jsstring)
  : CategorizationResult :=
  match categorizeByPattern rules description with
  | Some patternResult => patternResult
  | None => categorizeByAI description (normalizeMerchant description)
  end.

Definition Results : Type := list (option CategorizationResult).

(** First pass: pattern matching. *)
Fixpoint firstPass (rules : list CategoryRule) (descriptions : list jsstring)
    (i : nat) (results : Results) (needsAI : list AIItem)
  : Results * list AIItem :=
  match descriptions with
  | [] => (results, needsAI)
  | d :: rest =>
      match categorizeByPattern rules d with
      | Some patternResult =>
          firstPass rules rest (S i) (array_set results i patternResult) needsAI
      | None =>
          firstPass rules rest (S i) results
                    (needsAI ++ [mkItem i d (normalizeMerchant d)])
      end
  end.

Definition fillFallback (results : Results) (items : list AIItem) : Results :=
  fold_left (fun res item => array_set res (index item) (fallbackResult (normalized item)))
            items results.

(** The loop over [j] inside the inner [try]; [true] when it threw. *)
Fixpoint assignCategories (categories : JSON) (batch : list AIItem) (j : nat)
    (results : Results) : Results * bool :=
  match batch with
  | [] => (results, false)
  | item :: rest =>
      match property categories j with
      | TypeError => (results, true)
      | a =>
          assignCategories categories rest (S j)
            (array_set results (index item)
                       (aiResult (checkedCategory a) (normalized item)))
      end
  end.

(** The inner [try] / [catch] on one response. *)
Definition handleResponse (contents : list (option jsstring))
    (batch : list AIItem) (results : Results) : Results :=
  match contents with
  | [] => fillFallback results batch
  | content :: _ =>
      match JSON_parse (contentOrEmptyArray content) with
      | None => fillFallback results batch
      | Some categories =>
          match assignCategories categories batch 0 results with
          | (results', false) => results'
          | (results', true) => fillFallback results' batch
          end
      end
  end.

(** The loop over the batches inside the outer [try]; [true] when the
    call to the hosted model threw. *)
Fixpoint batchLoop (bs : list (list AIItem)) (results : Results)
  : Results * bool :=
  match bs with
  | [] => (results, false)
  | batch :: rest =>
      match chat (BatchItems (map normalized batch)) with
      | Throws => (results, true)
      | Choices contents => batchLoop rest (handleResponse contents batch results)
      end
  end.

(** The outer [catch]: fill in fallbacks where nothing was stored. *)
Definition fillMissing (results : Results) (items : list AIItem) : Results :=
  fold_left (fun res item =>
               match array_get res (index item) with
               | Some _ => res
               | None => array_set res (index item) (fallbackResult (normalized item))
               end)
            items results.

(** Batch categorize multiple transactions.  Uses pattern matching for
    most, AI for unknowns.  [rules] is what the reads of the rule store
    resolved to; the reads and their errors are in [SmartCategorization]. *)
Definition batchCategorize (rules : list CategoryRule) (descriptions : list jsstring)
  : Results :=
  let '(results, needsAI) := firstPass rules descriptions 0 [] [] in
  match needsAI with
  | _ :: _ =>
      if keyConfigured then
        match batchLoop (batches needsAI) results with
        | (results', false) => results'
        | (results', true) => fillMissing results' needsAI
        end
      else fillFallback results needsAI
  | [] => fillFallback results needsAI
  end.

End WithEnvironment.

Record Learned : Type := mkLearned {
  ruleCreated : bool;
  learnedPattern : option jsstring
}.

(** Learn from user correction - optionally create a new rule. *)
Definition learnFromCorrection (db : Queries.Database)
    (originalDescription correctedCategory : jsstring) (createRule : bool)
  : Learned * Queries.Database :=
  if negb createRule then (mkLearned false None, db)
  else
    let normalizedMerchant := normalizeMerchant originalDescription in
    (* Only create rules for normalized merchants that are reasonably specific *)
    if (length normalizedMerchant <? 3) || (50 <? length normalizedMerchant) then
      (mkLearned false None, db)
    else
      match Queries.insertCategoryRule db (mkNewRule normalizedMerchant correctedCategory) with
      | inr (_, db') => (mkLearned true (Some normalizedMerchant), db')
      | inl error =>
          match Queries.code error with
          | Some c =>
              if str_eqb c (js "23505")
              then (mkLearned false (Some normalizedMerchant), db)
              else (mkLearned false None, db)
          | None => (mkLearned false None, db)
          end
      end.

End Categorization.

(* ================================================================== *)
(** * Agent tools                                                       *)
(* ================================================================== *)

(** The payload a tool serialises with [JSON.stringify]; absent fields
    are [None]. *)
Record ToolPayload (Row : Type) : Type := mkPayload {
  success : bool;
  error : option jsstring;
  rowCount : option nat;
  data : option (list Row);
  query : option jsstring
}.

Arguments mkPayload {Row}.
Arguments success {Row}.
Arguments error {Row}.
Arguments rowCount {Row}.
Arguments data {Row}.
Arguments query {Row}.

(** The [sql_query] tool over SQLite, with its own guard and rewriting. *)
Module SqliteTools.

Import Queries.

Section SqlQueryTool.

Variable Row : Type.

(** [db.prepare(q).all()]: an exception or the rows. *)
Variable prepare_all : jsstring -> DbError + list Row.

Definition createSqlQueryTool (userId query : jsstring) (received : list jsstring)
  : ToolPayload Row * list jsstring :=
  if negb (isSelect query) then
    (mkPayload false
       (Some (js "Only SELECT queries are allowed for security reasons."))
       None None None,
     received)
  else
    let secure := secureQuery userId query in
    (match prepare_all secure with
     | inl e => mkPayload false (Some (message e)) None None (Some query)
     | inr results =>
         mkPayload true None (Some (length results)) (Some (take 100 results))
                   (Some secure)
     end, received ++ [secure]).

End SqlQueryTool.

End SqliteTools.

(** The [sql_query] tool over Postgres, a wrapper of [executeRawQuery]. *)
Module PostgresTools.

Import Queries.

Section SqlQueryTool.

Variable Row : Type.
Variable neonSql : jsstring -> DbError + list Row.

Definition createSqlQueryTool (userId query : jsstring) (received : list jsstring)
  : ToolPayload Row * list jsstring :=
  match executeRawQuery Row neonSql userId query received with
  | (Resolved _ results, received') =>
      (mkPayload true None (Some (length results)) (Some (take 100 results))
                 (Some query), received')
  | (Thrown _ e, received') =>
      (mkPayload false (Some e) None None (Some query), received')
  end.

End SqlQueryTool.

End PostgresTools.

(* ================================================================== *)
(** * Vector store                                                      *)
(* ================================================================== *)

(** A JavaScript number as far as the retrieval layer looks at it: an
    ordered value or NaN.  Rounding never changes the sign of a difference
    of two numbers, so comparisons are those of the values.  The two
    infinities are not represented. *)
Module Number.

Inductive number : Type :=
| NaN
| Num (q : Q).

(** [a >= b]. *)
Definition geq (a b : number) : bool :=
  match a, b with
  | Num x, Num y => Qle_bool y x
  | _, _ => false
  end.

(** [a - b]. *)
Definition sub (a b : number) : number :=
  match a, b with
  | Num x, Num y => Num (x - y)
  | _, _ => NaN
  end.

(** Insertion into a list ordered by [before], after every element that
    goes before the new one. *)
Fixpoint insertBy {A : Type} (before : A -> A -> bool) (a : A) (l : list A) : list A :=
  match l with
  | [] => [a]
  | b :: l' => if before a b then a :: l else b :: insertBy before a l'
  end.

(** A stable sort. *)
Definition sortBy {A : Type} (before : A -> A -> bool) (l : list A) : list A :=
  foldr (insertBy before) [] l.

(** [Array.prototype.sort(compareFn)]: [a] stays before [b] unless
    [compareFn(a, b) > 0]; a NaN result counts as 0. *)
Definition keepsOrder (v : number) : bool :=
  match v with
  | NaN => true
  | Num q => Qle_bool q 0
  end.

Definition sort {A : Type} (compareFn : A -> A -> number) (l : list A) : list A :=
  sortBy (fun a b => keepsOrder (compareFn a b)) l.

(** [ToIntegerOrInfinity]: NaN counts as 0, any other number loses its
    fraction. *)
Definition toIntegerOrInfinity (v : number) : Z :=
  match v with
  | NaN => 0%Z
  | Num q => if Qle_bool 0 q then Qfloor q else Qceiling q
  end.

(** [arr.slice(0, end)]: a negative [end] counts from the end of the
    array. *)
Definition sliceTo {A : Type} (finish : number) (arr : list A) : list A :=
  let len := Z.of_nat (length arr) in
  let relativeEnd := toIntegerOrInfinity finish in
  let final := if (relativeEnd <? 0)%Z then Z.max (len + relativeEnd) 0
               else Z.min relativeEnd len in
  take (Z.to_nat final) arr.

End Number.

Module VectorTypes.

Import Schema Number.

(** A row of [vector_store]. *)
Record Row : Type := mkRow {
  row_id : nat;
  user_id : jsstring;
  doc_type : DocumentType;
  source_id : jsstring;
  row_text : jsstring;
  row_embedding : list number;
  row_metadata : jsstring
}.

Record VectorDocument : Type := mkDocument {
  id : nat;
  userId : jsstring;
  docType : DocumentType;
  sourceId : jsstring;
  text : jsstring;
  embedding : list number;
  metadata : jsstring
}.

Record SearchResult : Type := mkSearchResult {
  document : VectorDocument;
  score : number
}.

(** The [options] argument of [searchSimilar]; [None] is an absent field.
    [topK] is any number: the callers pass what they were given. *)
Record SearchOptions : Type := mkOptions {
  topK : option number;
  docTypes : option (list DocumentType);
  minScore : option number
}.

Definition defaultTopK : number := Num 10.
Definition defaultMinScore : number := Num (1 # 2).

(** [WHERE user_id = ?], and [AND doc_type IN (...)] when [docTypes] is
    given and not empty. *)
Definition selected (userId : jsstring) (types : option (list DocumentType))
    (row : Row) : bool :=
  str_eqb (user_id row) userId &&
  match types with
  | Some (t :: ts) => existsb (DocumentType_eqb (doc_type row)) (t :: ts)
  | _ => true
  end.

End VectorTypes.

(** The SQLite vector store: cosine similarity computed in the application. *)
Module VectorStore.

Import Schema Number.
Export VectorTypes.

Section Search.

(** [embedText]; [None] when it throws. *)
Variable embedText : jsstring -> option (list number).

(** The number [cosineSimilarity] computes for two vectors of the same
    length. *)
Variable cosine : list number -> list number -> number.

(** Compute cosine similarity between two vectors; [None] is the error
    'Vectors must have the same length'. *)
Definition cosineSimilarity (a b : list number) : option number :=
  if length a =? length b then Some (cosine a b) else None.

Definition toResult (queryEmbedding : list number) (row : Row) : option SearchResult :=
  match cosineSimilarity queryEmbedding (row_embedding row) with
  | Some s =>
      Some (mkSearchResult
              (mkDocument (row_id row) (user_id row) (doc_type row) (source_id row)
                          (row_text row) (row_embedding row) (row_metadata row))
              s)
  | None => None
  end.

(** Search for similar documents using cosine similarity. *)
Definition searchSimilar (table : list Row) (userId query : jsstring)
    (options : SearchOptions) : option (list SearchResult) :=
  let k := default defaultTopK (topK options) in
  let threshold := default defaultMinScore (minScore options) in
  match embedText query with
  | None => None
  | Some queryEmbedding =>
      let rows := List.filter (selected userId (docTypes options)) table in
      (* Calculate similarity scores *)
      match mapM (toResult queryEmbedding) rows with
      | None => None
      | Some results =>
          (* Filter by minimum score and sort by similarity (descending) *)
          Some (sliceTo k
                  (sort (fun a b => sub (score b) (score a))
                        (List.filter (fun r => geq (score r) threshold) results)))
      end
  end.

End Search.

End VectorStore.

(** The pgvector store.  The search hands its statement to [sql.unsafe],
    a property of the query function of the Neon client.  That function
    sends a statement when it is called as a template tag; [sql.unsafe(text)]
    sends nothing: it wraps the text for interpolation into a template, and
    the clients before 1.0 have no such property.  What [await] gives is
    therefore no array of rows, and [rows.filter] throws (when the call of
    [sql.unsafe] has not thrown already). *)
Module PgVectorStore.

Import Schema Number.
Export VectorTypes.

Section Search.

Variable embedText : jsstring -> option (list number).

(** Search for similar documents using pgvector cosine similarity;
    [None] when the call throws. *)
Definition searchSimilar (userId query : jsstring) (options : SearchOptions)
  : option (list SearchResult) :=
  match embedText query with
  | None => None
  | Some queryEmbedding =>
      (* [await sql.unsafe(...)], then [rows.filter(...)] *)
      None
  end.

End Search.

End PgVectorStore.

(* ================================================================== *)
(** * Notions the specification uses                                    *)
(* ================================================================== *)

Module Spec.

Import RegExp Schema Queries Categorization.

(** ** Query safety layer (specification, section 4.6) *)

(** [\s+WHERE] right after a table reference. *)
Definition followingWhere : list atom := [plus Space] ++ lit "WHERE".

(** The rewriting as the specification words it, one table reference at
    a time: a reference followed by WHERE gets the scope predicate and AND
    injected after that WHERE, any other reference gets a WHERE clause
    appended.  The scope value is bound as it is. *)
Fixpoint scopeEachReference (userId : jsstring) (pre : jsstring) (s : jsstring)
    (skip : nat) {struct s} : jsstring :=
  match skip with
  | S k =>
      match s with
      | c :: s' => scopeEachReference userId (c :: pre) s' k
      | [] => []
      end
  | 0 =>
      match match_at fromTransactionsRegex pre s with
      | Some rest =>
          let '(out, rest') :=
            match match_here true followingWhere None rest with
            | Some rest2 => (whereAndClause userId, rest2)
            | None => (whereClause userId, rest)
            end in
          match s with
          | c :: s' =>
              out ++ scopeEachReference userId (c :: pre) s'
                                        (pred (length s - length rest'))
          | [] => out
          end
      | None =>
          match s with
          | c :: s' => c :: scopeEachReference userId (c :: pre) s' 0
          | [] => []
          end
      end
  end.

Definition scopedStatement (userId query : jsstring) : jsstring :=
  scopeEachReference userId [] query 0.

(** Every table reference of the text is followed by WHERE. *)
Fixpoint everyReferenceHasWhere (pre s : jsstring) : bool :=
  match match_at fromTransactionsRegex pre s with
  | Some _ =>
      match match_at fromTransactionsWhereRegex pre s with
      | Some _ => true
      | None => false
      end
  | None => true
  end &&
  match s with
  | [] => true
  | c :: s' => everyReferenceHasWhere (c :: pre) s'
  end.

(** The references agree: none is followed by WHERE, or all are. *)
Definition uniformReferences (query : jsstring) : bool :=
  negb (test fromTransactionsWhereRegex query) || everyReferenceHasWhere [] query.

(** The scope value has no [$], the escape character of replacement
    texts. *)
Definition plainScope (userId : jsstring) : bool :=
  forallb (fun c => negb (char_eqb c "$")) userId.

(** [s.split(sep)] for a one-character separator. *)
Fixpoint split (sep : ascii) (s : jsstring) : list jsstring :=
  match s with
  | [] => [[]]
  | c :: s' =>
      if char_eqb c sep then [] :: split sep s'
      else
        match split sep s' with
        | piece :: pieces => (c :: piece) :: pieces
        | [] => [[c]]
        end
  end.

Definition blank (s : jsstring) : bool := forallb is_space s.

(** Several statements separated by semicolons. *)
Definition multipleStatements (query : jsstring) : bool :=
  2 <=? length (List.filter (fun piece => negb (blank piece)) (split ";" query)).

(** A keyword in any casing. *)
Definition spells (keyword : string) (w : jsstring) : Prop :=
  toUpperCase w = js keyword.

(** The text starts, after optional white space, with the keyword in
    some casing. *)
Definition startsWithKeyword (keyword : string) (query : jsstring) : Prop :=
  exists ws kw rest, query = ws ++ kw ++ rest /\ blank ws = true /\ spells keyword kw.

(** ** Merchant normalizer (specification, section 4.1) *)

(** Nothing is left to strip: the text starts with none of the prefixes
    and none of the suffix patterns applies. *)
Definition settled (y : jsstring) : bool :=
  forallb (fun p => negb (startsWith y p)) MERCHANT_PREFIXES &&
  forallb (fun suffix => negb (test (suffix_regex suffix) y)) MERCHANT_SUFFIXES &&
  negb (test trailing_id y) &&
  negb (test city_state y).

(** ** Rule store, categorization orchestrator and learning loop
    (specification, sections 4.2, 4.3 and 4.5) *)

(** The normalized merchant contains the pattern, ignoring case. *)
Definition containsIgnoringCase (merchant pat : jsstring) : bool :=
  includes (toUpperCase merchant) (toUpperCase pat).

(** Some Pattern Table entry occurs in the merchant. *)
Definition inPatternTable (merchant : jsstring) : Prop :=
  exists cat patterns p,
    In (cat, patterns) EXTENDED_PATTERNS /\ In p patterns /\
    includes (toUpperCase merchant) p = true.

(** The rule table already holds the pattern. *)
Definition conflicts (db : Database) (merchant : jsstring) : bool :=
  existsb (fun r => str_eqb (Schema.pattern r) merchant) (category_rules db).

(** ** AI fallback (specification, section 4.4) *)

(** A stubbed hosted model that answers every merchant with the name
    [decide] gives it: the single-item reply is that name, possibly with
    white space around it, and the batch reply is the JSON array of the
    names, in the order of the merchants. *)
Definition answersWith (chat : ChatRequest -> ChatResponse)
    (JSON_parse : jsstring -> option JSON) (decide : jsstring -> jsstring) : Prop :=
  (forall description merchant, exists reply others,
      chat (SingleItem description merchant) = Choices (Some reply :: others) /\
      trim reply = decide merchant) /\
  (forall merchants, exists reply others,
      chat (BatchItems merchants) = Choices (Some reply :: others) /\
      JSON_parse (contentOrEmptyArray (Some reply)) =
        Some (JArray (map (fun m => JString (decide m)) merchants))).

(** The descriptions [batchCategorize] leaves to the hosted model. *)
Definition needsAI (rules : list CategoryRule) (descriptions : list jsstring)
  : list AIItem :=
  snd (firstPass rules descriptions 0 [] []).

(** ** Vector store (specification, section 4.7) *)

Import Number VectorTypes.

(** The results are in descending order of score. *)
Definition descending (results : list SearchResult) : Prop :=
  StronglySorted (fun a b => geq (score a) (score b) = true) results.

(** There are at most [k] of them, for a number [k]. *)
Definition atMost (n : nat) (k : number) : Prop :=
  geq k (Num (inject_Z (Z.of_nat n))) = true.

(** What a search promises of the documents it selects.  A requested list
    of types constrains the results when it is not empty. *)
Definition selects (user : jsstring) (options : SearchOptions)
    (results : list SearchResult) : Prop :=
  (forall r, In r results -> userId (document r) = user) /\
  (forall t ts, docTypes options = Some (t :: ts) ->
     forall r, In r results -> In (docType (document r)) (t :: ts)) /\
  (forall r, In r results ->
     geq (score r) (default defaultMinScore (minScore options)) = true) /\
  descending results.

(** What a search promises of its results. *)
Definition meets (user : jsstring) (options : SearchOptions)
    (results : list SearchResult) : Prop :=
  selects user options results /\
  atMost (length results) (default defaultTopK (topK options)).

End Spec.

(* ================================================================== *)
(** * Sample data and stubs of the hosted services                      *)
(* ================================================================== *)

Module Samples.

Import Schema Queries Categorization Number VectorTypes.

Definition joes_coffee : jsstring := js "SQ *JOE'S COFFEE #4521 SAN FRANCISCO CA".

Definition sampleDb : Database :=
  mkDb [mkRule 0 (js "STARBUCKS") (js "Coffee")] 1 true.

Definition sampleTable : list Row := [
  mkRow 1 (js "user_42") Schema.transaction (js "17") (js "expense at STARBUCKS")
        [Num (9 # 10)] (js "{}");
  mkRow 2 (js "user_7") Schema.transaction (js "18") (js "expense at PEETS")
        [Num (8 # 10)] (js "{}");
  mkRow 3 (js "user_42") Schema.schema (js "1") (js "TABLE transactions")
        [Num (7 # 10)] (js "{}");
  mkRow 4 (js "user_42") Schema.category_rule (js "5") (js "STARBUCKS is Coffee")
        [Num (3 # 10)] (js "{}")
].

(** A stub of the embedding model and of the similarity: the similarity
    of a stored vector is its first component. *)
Definition sampleEmbed (_ : jsstring) : option (list number) := Some [Num 1].
Definition sampleCosine (_ e : list number) : number := hd NaN e.

(** A stub of the hosted model that answers every batch with an array of
    one name, whatever the size of the batch. *)
Definition shortReplyChat (_ : ChatRequest) : ChatResponse := Choices [Some (js "one")].
Definition shortReplyParse (_ : jsstring) : option JSON :=
  Some (JArray [JString (js "Coffee")]).

(** A stub of the hosted model whose batch replies never parse. *)
Definition garbledChat (_ : ChatRequest) : ChatResponse :=
  Choices [Some (js "Sure! Here are the categories:")].
Definition garbledParse (_ : jsstring) : option JSON := None.

(** A stub that answers Coffee for every merchant: padded with white
    space in the single-item reply, and in an array with one entry per
    merchant in the batch reply. *)
Definition coffeeChat (request : ChatRequest) : ChatResponse :=
  match request with
  | SingleItem _ _ => Choices [Some (js " Coffee ")]
  | BatchItems merchants => Choices [Some ("["%char :: repeat "c"%char (length merchants))]
  end.

Definition coffeeParse (reply : jsstring) : option JSON :=
  Some (JArray (map (fun _ => JString (js "Coffee")) (tail reply))).

(** A stub that answers Coffee followed by a space for every merchant:
    alone in the single-item reply, and as every entry of the JSON array of
    the batch reply.  [paddedParse] is what [JSON.parse] gives on such an
    array. *)
Definition paddedEntry : jsstring := "034"%char :: js "Coffee " ++ ["034"%char].

Definition paddedChat (request : ChatRequest) : ChatResponse :=
  match request with
  | SingleItem _ _ => Choices [Some (js "Coffee ")]
  | BatchItems merchants =>
      Choices [Some (js "[" ++ join (js ",") (repeat paddedEntry (length merchants)) ++
                     js "]")]
  end.

Definition paddedParse (reply : jsstring) : option JSON :=
  Some (JArray (repeat (JString (js "Coffee "))
                       (S (length (List.filter (char_eqb ",") reply))))).

End Samples.

(* ================================================================== *)
(** * Further string primitives                                         *)
(* ================================================================== *)

Module Text.

Definition lower_char (c : ascii) : ascii :=
  if is_upper c then ascii_of_nat (code c + 32) else c.

(** [String.prototype.toLowerCase]. *)
Definition toLowerCase (s : jsstring) : jsstring := map lower_char s.

(** A string used as a condition: the empty string is falsy. *)
Definition nonEmpty (s : jsstring) : bool :=
  match s with
  | [] => false
  | _ :: _ => true
  end.

(** A possibly undefined string used as a condition. *)
Definition truthy (v : option jsstring) : bool :=
  match v with
  | Some s => nonEmpty s
  | None => false
  end.

(** [a || b] on possibly undefined strings. *)
Definition orElse (a b : option jsstring) : option jsstring :=
  if truthy a then a else b.

Arguments lower_char : simpl never.

End Text.

(* ================================================================== *)
(** * Rule store queries                                                *)
(* ================================================================== *)

Module RuleStore.

Import Schema Queries Number.

Section Collation.

(** The order [ORDER BY pattern] sorts by: that of the collation of the
    database. *)
Variable pattern_le : jsstring -> jsstring -> bool.

(** Get all category rules:
    [db.select().from(categoryRules).orderBy(asc(categoryRules.pattern))]. *)
Definition getCategoryRules (db : Database) : DbError + list CategoryRule :=
  if negb (reachable db) then inl connection_error
  else inr (sortBy (fun a b => pattern_le (pattern a) (pattern b)) (category_rules db)).

End Collation.

(** Delete a category rule; the result tells whether a row was deleted. *)
Definition deleteCategoryRule (db : Database) (ruleId : nat)
  : DbError + (bool * Database) :=
  if negb (reachable db) then inl connection_error
  else
    let result := List.filter (fun r => id r =? ruleId) (category_rules db) in
    inr (0 <? length result,
         mkDb (List.filter (fun r => negb (id r =? ruleId)) (category_rules db))
              (next_id db) (reachable db)).

Definition defaultRules : list NewCategoryRule := [
  mkNewRule (js "STARBUCKS") (js "Coffee");
  mkNewRule (js "COFFEE") (js "Coffee");
  mkNewRule (js "DUNKIN") (js "Coffee");
  mkNewRule (js "PEET") (js "Coffee");
  mkNewRule (js "WHOLE FOODS") (js "Groceries");
  mkNewRule (js "SAFEWAY") (js "Groceries");
  mkNewRule (js "TRADER JOE") (js "Groceries");
  mkNewRule (js "KROGER") (js "Groceries");
  mkNewRule (js "WALMART") (js "Groceries");
  mkNewRule (js "TARGET") (js "Shopping");
  mkNewRule (js "AMAZON") (js "Shopping");
  mkNewRule (js "UBER") (js "Transportation");
  mkNewRule (js "LYFT") (js "Transportation");
  mkNewRule (js "SHELL") (js "Gas");
  mkNewRule (js "CHEVRON") (js "Gas");
  mkNewRule (js "EXXON") (js "Gas");
  mkNewRule (js "BP ") (js "Gas");
  mkNewRule (js "NETFLIX") (js "Entertainment");
  mkNewRule (js "SPOTIFY") (js "Entertainment");
  mkNewRule (js "HULU") (js "Entertainment");
  mkNewRule (js "DISNEY") (js "Entertainment");
  mkNewRule (js "RESTAURANT") (js "Dining");
  mkNewRule (js "PIZZA") (js "Dining");
  mkNewRule (js "MCDONALD") (js "Dining");
  mkNewRule (js "CHIPOTLE") (js "Dining");
  mkNewRule (js "SUBWAY") (js "Dining");
  mkNewRule (js "VENMO") (js "Transfer");
  mkNewRule (js "PAYPAL") (js "Transfer");
  mkNewRule (js "ZELLE") (js "Transfer");
  mkNewRule (js "ATM") (js "Cash Withdrawal");
  mkNewRule (js "PHARMACY") (js "Healthcare");
  mkNewRule (js "CVS") (js "Healthcare");
  mkNewRule (js "WALGREENS") (js "Healthcare");
  mkNewRule (js "GYM") (js "Fitness");
  mkNewRule (js "FITNESS") (js "Fitness")
].

(** [db.insert(categoryRules).values(rule).onConflictDoNothing({ target:
    categoryRules.pattern })]: a row whose pattern is taken is skipped
    without an error.  The value of the serial column is drawn before the
    conflict is seen, so it is used up either way. *)
Definition insertOrIgnore (db : Database) (rule : NewCategoryRule) : DbError + Database :=
  if negb (reachable db) then inl connection_error
  else if existsb (fun r => str_eqb (pattern r) (new_pattern rule)) (category_rules db)
  then inr (mkDb (category_rules db) (S (next_id db)) (reachable db))
  else
    let row := mkRule (next_id db) (new_pattern rule) (new_category rule) in
    inr (mkDb (category_rules db ++ [row]) (S (next_id db)) (reachable db)).

(** One turn of the loop of [seedCategoryRules]: [inserted] counts the
    statements that did not throw. *)
Definition seedOne (state : nat * Database) (rule : NewCategoryRule) : nat * Database :=
  match insertOrIgnore (snd state) rule with
  | inr db' => (S (fst state), db')
  | inl _ => state
  end.

Definition seedRules (rules : list NewCategoryRule) (db : Database) : nat * Database :=
  fold_left seedOne rules (0, db).

(** Insert default category rules (upsert-like behavior). *)
Definition seedCategoryRules (db : Database) : nat * Database :=
  seedRules defaultRules db.

End RuleStore.

(* ================================================================== *)
(** * The categorization engine over the rule store                     *)
(* ================================================================== *)

(** The exported functions of the engine.  [categorizeByPattern] reads the
    rules with [getCategoryRules()] on every call, outside any [try]: an
    error of the store ends the call, and so the call of [smartCategorize]
    or of [batchCategorize] around it.  [Categorization] has the bodies of
    these functions for the rules a read resolved to. *)
Module SmartCategorization.

Import Schema Queries Categorization RuleStore.

Section WithStore.

Variable pattern_le : jsstring -> jsstring -> bool.
Variable OPENAI_API_KEY : option jsstring.
Variable chat : ChatRequest -> ChatResponse.
Variable JSON_parse : jsstring -> option JSON.

(** Pattern-based categorization (fast, no API calls). *)
Definition categorizeByPattern (db : Database) (description : jsstring)
  : DbError + option CategorizationResult :=
  match getCategoryRules pattern_le db with
  | inl error => inl error
  | inr rules => inr (Categorization.categorizeByPattern rules description)
  end.

(** Smart categorization - tries pattern matching first, falls back to AI. *)
Definition smartCategorize (db : Database) (description : jsstring)
  : DbError + CategorizationResult :=
  match categorizeByPattern db description with
  | inl error => inl error
  | inr (Some patternResult) => inr patternResult
  | inr None =>
      inr (categorizeByAI OPENAI_API_KEY chat description (normalizeMerchant description))
  end.

(** First pass: pattern matching. *)
Fixpoint firstPass (db : Database) (descriptions : list jsstring)
    (i : nat) (results : Results) (needsAI : list AIItem)
  : DbError + (Results * list AIItem) :=
  match descriptions with
  | [] => inr (results, needsAI)
  | d :: rest =>
      match categorizeByPattern db d with
      | inl error => inl error
      | inr (Some patternResult) =>
          firstPass db rest (S i) (array_set results i patternResult) needsAI
      | inr None =>
          firstPass db rest (S i) results
                    (needsAI ++ [mkItem i d (normalizeMerchant d)])
      end
  end.

(** Batch categorize multiple transactions.  Uses pattern matching for
    most, AI for unknowns. *)
Definition batchCategorize (db : Database) (descriptions : list jsstring)
  : DbError + Results :=
  match firstPass db descriptions 0 [] [] with
  | inl error => inl error
  | inr (results, needsAI) =>
      inr match needsAI with
          | _ :: _ =>
              if keyConfigured OPENAI_API_KEY then
                match batchLoop chat JSON_parse (batches needsAI) results with
                | (results', false) => results'
                | (results', true) => fillMissing results' needsAI
                end
              else fillFallback results needsAI
          | [] => fillFallback results needsAI
          end
  end.

End WithStore.

End SmartCategorization.

(* ================================================================== *)
(** * The learn_category tool                                           *)
(* ================================================================== *)

Module LearnTool.

Import Schema Queries Categorization Text.

(** The two texts of the [message] field. *)
Inductive LearnMessage : Type :=
| CreatedRule (pattern : option jsstring) (category : jsstring)
| RuleAlreadyExists.

Record LearnPayload : Type := mkLearnPayload {
  learn_success : bool;
  learn_error : option jsstring;
  learn_ruleCreated : option bool;
  learn_pattern : option jsstring;
  learn_category : option jsstring;
  learn_message : option LearnMessage
}.

(** [CATEGORIES.find(c => c.toLowerCase() === category.toLowerCase())]. *)
Definition findCategory (category : jsstring) : option jsstring :=
  find (fun c => str_eqb (toLowerCase c) (toLowerCase category)) CATEGORIES.

(** Create a categorization rule from a user correction. *)
Definition createLearnCategoryTool (db : Database) (description category : jsstring)
  : LearnPayload * Database :=
  match findCategory category with
  | None =>
      (mkLearnPayload false
         (Some (js "Invalid category. Available categories: " ++ join (js ", ") CATEGORIES))
         None None None None, db)
  | Some validCategory =>
      let '(result, db') := learnFromCorrection db description validCategory true in
      (mkLearnPayload true None (Some (ruleCreated result)) (learnedPattern result)
         (Some validCategory)
         (Some (if ruleCreated result
                then CreatedRule (learnedPattern result) validCategory
                else RuleAlreadyExists)),
       db')
  end.

End LearnTool.

(* ================================================================== *)
(** * Embeddings                                                        *)
(* ================================================================== *)

Module Embeddings.

Import Categorization Number Text.

(** The [input] of [openai.embeddings.create]: one text or a batch. *)
Inductive EmbeddingInput : Type :=
| One (text : jsstring)
| Many (texts : list jsstring).

Section Service.

(** [openai.embeddings.create] throws ([None]) or resolves to a response;
    the value is the list of the embeddings of [response.data]. *)
Variable create : EmbeddingInput -> option (list (list number)).

(** Generate embedding for a single text string. *)
Definition embedText (text : jsstring) : option (list number) :=
  if negb (nonEmpty text) || (length (trim text) =? 0) then None
  else
    match create (One (trim text)) with
    | Some (embedding :: _) => Some embedding
    | _ => None
    end.

(** The loop over the batches of [embedTexts]. *)
Fixpoint embedBatches (bs : list (list jsstring)) (allEmbeddings : list (list number))
  : option (list (list number)) :=
  match bs with
  | [] => Some allEmbeddings
  | batch :: rest =>
      match create (Many batch) with
      | None => None
      | Some batchEmbeddings => embedBatches rest (allEmbeddings ++ batchEmbeddings)
      end
  end.

Definition embeddingBatchSize : nat := 2048.

(** Generate embeddings for multiple texts in batch. *)
Definition embedTexts (texts : list jsstring) : option (list (list number)) :=
  if length texts =? 0 then Some []
  else
    (* Filter out empty strings and trim *)
    let cleanTexts := List.filter (fun t => 0 <? length t) (map trim texts) in
    if length cleanTexts =? 0 then Some []
    else embedBatches (slices (length cleanTexts) embeddingBatchSize cleanTexts) [].

End Service.

End Embeddings.

(* ================================================================== *)
(** * Vector store: documents                                           *)
(* ================================================================== *)

(** The writes of the pgvector store. *)
Module PgVectorDocuments.

Import Schema Queries Categorization Number.
Export VectorTypes.

(** The table [vector_store] with its serial column, and whether the
    server can be reached.  The column [created_at] is left out. *)
Record Store : Type := mkStore {
  rows : list Row;
  next_row_id : nat;
  available : bool
}.

(** [sourceId: string | number]. *)
Inductive SourceId : Type :=
| SourceText (s : jsstring)
| SourceNumber (n : nat).

(** [String(sourceId)]. *)
Definition sourceKey (sourceId : SourceId) : jsstring :=
  match sourceId with
  | SourceText s => s
  | SourceNumber n => decimal n
  end.

(** The columns of the unique index [(user_id, doc_type, source_id)]. *)
Definition sameKey (userId : jsstring) (docType : DocumentType) (key : jsstring)
    (row : Row) : bool :=
  str_eqb (user_id row) userId && DocumentType_eqb (doc_type row) docType &&
  str_eqb (source_id row) key.

Section Documents.

Variable embedText : jsstring -> option (list number).

(** What the column of type [vector(1536)] stores for a vector literal;
    [None] when the server rejects it. *)
Variable toVector : list number -> option (list number).

Variable JSON_stringify : JSON -> jsstring.

(** Upsert a document with its embedding: [INSERT ... ON CONFLICT (user_id,
    doc_type, source_id) DO UPDATE SET text, embedding, metadata ...
    RETURNING id].  [None] when the call throws. *)
Definition upsertDocument (store : Store) (userId : jsstring) (docType : DocumentType)
    (sourceId : SourceId) (text : jsstring) (metadata : JSON)
  : option (nat * Store) :=
  match embedText text with
  | None => None
  | Some embedding =>
      if negb (available store) then None
      else
        match toVector embedding with
        | None => None
        | Some v =>
            let key := sourceKey sourceId in
            match find (sameKey userId docType key) (rows store) with
            | Some old =>
                let row := mkRow (row_id old) userId docType key text v
                                 (JSON_stringify metadata) in
                Some (row_id old,
                      mkStore (map (fun r => if sameKey userId docType key r
                                             then row else r) (rows store))
                              (S (next_row_id store)) (available store))
            | None =>
                let row := mkRow (next_row_id store) userId docType key text v
                                 (JSON_stringify metadata) in
                Some (next_row_id store,
                      mkStore (rows store ++ [row]) (S (next_row_id store))
                              (available store))
            end
        end
  end.

End Documents.

(** An element of the argument of [upsertDocuments]; [metadata] is
    optional. *)
Record NewDocument : Type := mkNewDocument {
  new_userId : jsstring;
  new_docType : DocumentType;
  new_sourceId : SourceId;
  new_text : jsstring;
  new_metadata : option JSON
}.

Section Batch.

(** [openai.embeddings.create], as in [Embeddings]. *)
Variable create : Embeddings.EmbeddingInput -> option (list (list number)).
Variable toVector : list number -> option (list number).
Variable JSON_stringify : JSON -> jsstring.

(** The statement of [upsertDocuments]: [INSERT ... ON CONFLICT (user_id,
    doc_type, source_id) DO UPDATE SET text, embedding, metadata ...
    RETURNING id], for the vector literal of [embedding]. *)
Definition insertOrUpdate (store : Store) (userId : jsstring) (docType : DocumentType)
    (key text : jsstring) (embedding : list number) (metadata : jsstring)
  : option (nat * Store) :=
  if negb (available store) then None
  else
    match toVector embedding with
    | None => None
    | Some v =>
        match find (sameKey userId docType key) (rows store) with
        | Some old =>
            let row := mkRow (row_id old) userId docType key text v metadata in
            Some (row_id old,
                  mkStore (map (fun r => if sameKey userId docType key r
                                         then row else r) (rows store))
                          (S (next_row_id store)) (available store))
        | None =>
            let row := mkRow (next_row_id store) userId docType key text v metadata in
            Some (next_row_id store,
                  mkStore (rows store ++ [row]) (S (next_row_id store))
                          (available store))
        end
    end.

(** The loop [for (let i = 0; i < documents.length; i++)] from index [i]
    on: [embeddings[i].join(',')] throws when there is no embedding at [i].
    The statements are not in a transaction: the store keeps what was
    written before a throw. *)
Fixpoint upsertLoop (embeddings : list (list number)) (i : nat)
    (documents : list NewDocument) (store : Store) (ids : list nat)
  : option (list nat) * Store :=
  match documents with
  | [] => (Some ids, store)
  | doc :: rest =>
      match embeddings !! i with
      | None => (None, store)
      | Some embedding =>
          match insertOrUpdate store (new_userId doc) (new_docType doc)
                               (sourceKey (new_sourceId doc)) (new_text doc) embedding
                               (JSON_stringify (default (JObject []) (new_metadata doc))) with
          | None => (None, store)
          | Some (id, store') => upsertLoop embeddings (S i) rest store' (ids ++ [id])
          end
      end
  end.

(** Upsert multiple documents in batch; the first component is [None]
    when the call throws. *)
Definition upsertDocuments (store : Store) (documents : list NewDocument)
  : option (list nat) * Store :=
  let texts := map new_text documents in
  match Embeddings.embedTexts create texts with
  | None => (None, store)
  | Some embeddings => upsertLoop embeddings 0 documents store []
  end.

End Batch.

(** Delete a document from the vector store. *)
Definition deleteDocument (store : Store) (userId : jsstring) (docType : DocumentType)
    (sourceId : SourceId) : option (bool * Store) :=
  if negb (available store) then None
  else
    let result := List.filter (sameKey userId docType (sourceKey sourceId)) (rows store) in
    Some (0 <? length result,
          mkStore (List.filter (fun r => negb (sameKey userId docType (sourceKey sourceId) r))
                               (rows store))
                  (next_row_id store) (available store)).

(** Delete all documents for a user. *)
Definition deleteUserDocuments (store : Store) (userId : jsstring)
  : option (nat * Store) :=
  if negb (available store) then None
  else
    let result := List.filter (fun r => str_eqb (user_id r) userId) (rows store) in
    Some (length result,
          mkStore (List.filter (fun r => negb (str_eqb (user_id r) userId)) (rows store))
                  (next_row_id store) (available store)).

(** Get document count for a user. *)
Definition getDocumentCount (store : Store) (userId : jsstring)
    (docType : option DocumentType) : option nat :=
  if negb (available store) then None
  else
    let whereClause (r : Row) :=
      match docType with
      | Some t => str_eqb (user_id r) userId && DocumentType_eqb (doc_type r) t
      | None => str_eqb (user_id r) userId
      end in
    Some (length (List.filter whereClause (rows store))).

End PgVectorDocuments.

(* ================================================================== *)
(** * Retrieval of context                                              *)
(* ================================================================== *)

Module Retrieval.

Import Schema Categorization Number.
Export VectorTypes.

(** The [options] argument of [retrieveContext]; [topK] is any number. *)
Record ContextOptions : Type := mkContextOptions {
  context_topK : option number;
  includeTransactions : option bool;
  includeCategoryRules : option bool;
  includeExamples : option bool
}.

Definition typeLabel (t : DocumentType) : jsstring :=
  match t with
  | transaction => js "Transaction"
  | category_rule => js "Category Rule"
  | query_example => js "Example"
  | schema => js "Document"
  end.

(** [`[${typeLabel} ${i + 1}] ${r.document.text}`]. *)
Definition contextPart (i : nat) (r : SearchResult) : jsstring :=
  js "[" ++ typeLabel (docType (document r)) ++ js " " ++ decimal (i + 1) ++ js "] " ++
  text (document r).

Definition newline : jsstring := ["010"%char].

Definition contextMinScore : number := Num (4 # 10).

(** The list [docTypes] built from the three flags. *)
Definition contextDocTypes (options : ContextOptions) : list DocumentType :=
  (if default true (includeTransactions options) then [transaction] else []) ++
  (if default true (includeCategoryRules options) then [category_rule] else []) ++
  (if default true (includeExamples options) then [query_example] else []).

Section Context.

(** [searchSimilar] of the store in use. *)
Variable searchSimilar :
  jsstring -> jsstring -> SearchOptions -> option (list SearchResult).

(** Retrieve context for a query (main RAG retrieval function). *)
Definition retrieveContext (userId query : jsstring) (options : ContextOptions)
  : option (jsstring * list SearchResult) :=
  let topK := default (Num 5) (context_topK options) in
  let docTypes := contextDocTypes options in
  match searchSimilar userId query
                      (mkOptions (Some topK) (Some docTypes) (Some contextMinScore)) with
  | None => None
  | Some results =>
      if length results =? 0 then Some ([], [])
      else
        (* Format context for LLM consumption *)
        let contextParts := imap contextPart results in
        Some (join newline contextParts, results)
  end.

End Context.

End Retrieval.

(* ================================================================== *)
(** * The vector column of the schema                                   *)
(* ================================================================== *)

Module VectorColumn.

Import Number.

Section Driver.

(** [String(x)] and [Number(s)] on numbers and their texts. *)
Variable Number_toString : number -> jsstring.
Variable Number_ofString : jsstring -> number.

(** [toDriver]: [`[${value.join(',')}]`]. *)
Definition toDriver (value : list number) : jsstring :=
  js "[" ++ join (js ",") (map Number_toString value) ++ js "]".

(** [value.replace(/[\[\]]/g, '')]: every bracket is dropped. *)
Definition dropBrackets (value : jsstring) : jsstring :=
  List.filter (fun c => negb (char_eqb c "[" || char_eqb c "]")) value.

(** [fromDriver]: parse pgvector string format [[0.1,0.2,0.3,...]]. *)
Definition fromDriver (value : jsstring) : list number :=
  let cleaned := dropBrackets value in
  map Number_ofString (Spec.split "," cleaned).

End Driver.

End VectorColumn.

(* ================================================================== *)
(** * Agent state                                                       *)
(* ================================================================== *)

Module Agent.

(** [[...new Set(items)]]: the distinct values, in the order of their
    first occurrence; [seen] holds the values already in the set. *)
Fixpoint distinct (seen items : list jsstring) : list jsstring :=
  match items with
  | [] => []
  | a :: rest =>
      if existsb (str_eqb a) seen then distinct seen rest
      else a :: distinct (a :: seen) rest
  end.

(** The reducer of [toolsUsed]: [(x, y) => [...new Set([...x, ...y])]]. *)
Definition toolsUsedReducer (x y : list jsstring) : list jsstring :=
  distinct [] (x ++ y).

End Agent.

(* ================================================================== *)
(** * Charts of the text-to-SQL path                                    *)
(* ================================================================== *)

Module Charts.

Import Text.

Inductive ChartType : Type := line | pie | bar.

Record ChartData (Row : Type) : Type := mkChart {
  chart_type : ChartType;
  chart_data : list Row;
  dataKey : jsstring;
  nameKey : jsstring;
  title : jsstring
}.

Arguments mkChart {Row}.
Arguments chart_type {Row}.
Arguments chart_data {Row}.
Arguments dataKey {Row}.
Arguments nameKey {Row}.
Arguments title {Row}.

(** [words.some(w => s.includes(w))], written with [||] in the source. *)
Definition mentions (s : jsstring) (words : list string) : bool :=
  existsb (fun w => includes s (js w)) words.

Section Detect.

Variable Row : Type.

(** [Object.keys(row)]. *)
Variable Object_keys : Row -> list jsstring.

(** The object literal of a chart, once both keys are known to be set. *)
Definition chartOf (type : ChartType) (results : list Row) (valueKey labelKey : option jsstring)
    (title : string) : option (ChartData Row) :=
  match labelKey, valueKey with
  | Some name, Some value =>
      if nonEmpty name && nonEmpty value
      then Some (mkChart type results value name (js title))
      else None
  | _, _ => None
  end.

(** Detect if query results should be visualized as a chart. *)
Definition detectChartType (userQuery : jsstring) (results : list Row)
  : option (ChartData Row) :=
  match results with
  | [] => None
  | first :: _ =>
      let queryLower := toLowerCase userQuery in
      let columns := Object_keys first in
      let timeColumn c := mentions c ["month"; "date"; "week"]%string in
      let totalColumn c := mentions c ["total"; "amount"; "sum"; "count"]%string in
      (* Check for time-series data (monthly, weekly trends) *)
      let lineChart :=
        if mentions queryLower ["month"; "trend"; "over time"]%string &&
           existsb timeColumn columns
        then
          let dateKey := orElse (find timeColumn columns) (columns !! 0) in
          let valueKey :=
            orElse (find (fun c => mentions c ["total"; "amount"; "sum"; "expense";
                                               "income"]%string) columns)
                   (columns !! 1) in
          chartOf line results valueKey dateKey "Trend Over Time"
        else None in
      match lineChart with
      | Some chart => Some chart
      | None =>
          (* Check for category breakdown (pie chart) *)
          let categoryColumn c := mentions c ["category"; "type"]%string in
          let pieChart :=
            if mentions queryLower ["category"; "breakdown"; "by type"]%string &&
               existsb categoryColumn columns
            then
              let categoryKey := orElse (find categoryColumn columns) (columns !! 0) in
              let valueKey := orElse (find totalColumn columns) (columns !! 1) in
              if length results <=? 15
              then chartOf pie results valueKey categoryKey "Breakdown by Category"
              else None
            else None in
          match pieChart with
          | Some chart => Some chart
          | None =>
              (* Check for comparison/ranking (bar chart) *)
              if mentions queryLower ["top"; "compare"; "most"; "highest";
                                      "ranking"]%string &&
                 (1 <? length results) && (length results <=? 20)
              then
                let labelKey :=
                  orElse (find (fun c => mentions c ["category"; "description";
                                                     "merchant"; "name"]%string) columns)
                         (columns !! 0) in
                let valueKey := orElse (find totalColumn columns) (columns !! 1) in
                chartOf bar results valueKey labelKey "Comparison"
              else None
          end
      end
  end.

End Detect.

End Charts.

(* ================================================================== *)
(** * Upload summary                                                    *)
(* ================================================================== *)

Module Upload.

Import Categorization.

(** The value of the field [method]. *)
Definition methodName (m : Method) : jsstring :=
  match m with
  | rule => js "rule"
  | pattern => js "pattern"
  | ai => js "ai"
  | fallback => js "fallback"
  end.

(** The object [methodCounts]: its properties in the order they were
    created. *)
Definition Counts : Type := list (jsstring * nat).

(** [acc[key]]. *)
Definition getCount (acc : Counts) (key : jsstring) : option nat :=
  option_map snd (find (fun kv => str_eqb (fst kv) key) acc).

(** [acc[key] = v]. *)
Definition setCount (acc : Counts) (key : jsstring) (v : nat) : Counts :=
  if existsb (fun kv => str_eqb (fst kv) key) acc
  then map (fun kv => if str_eqb (fst kv) key then (key, v) else kv) acc
  else acc ++ [(key, v)].

(** [v || 0]. *)
Definition orZero (v : option nat) : nat := default 0 v.

(** The callback of [categorizations.reduce]. *)
Definition countMethod (acc : Counts) (r : CategorizationResult) : Counts :=
  setCount acc (methodName (method r)) (orZero (getCount acc (methodName (method r))) + 1).

(** [categorizations.reduce(..., {})]; [reduce] passes over the holes of
    the array. *)
Definition methodCounts (categorizations : list (option CategorizationResult)) : Counts :=
  fold_left (fun acc r => match r with Some r => countMethod acc r | None => acc end)
            categorizations [].

(** The field [categorization] of the response. *)
Record CategorizationSummary : Type := mkSummary {
  byRule : nat;
  byPattern : nat;
  byAI : nat;
  uncategorized : nat
}.

Definition categorizationSummary (categorizations : list (option CategorizationResult))
  : CategorizationSummary :=
  let methodCounts := methodCounts categorizations in
  mkSummary (orZero (getCount methodCounts (js "rule")))
            (orZero (getCount methodCounts (js "pattern")))
            (orZero (getCount methodCounts (js "ai")))
            (orZero (getCount methodCounts (js "default"))).

End Upload.

(* ================================================================== *)
(** * Notions used to state further properties                          *)
(* ================================================================== *)

Module Properties.

Import Schema Queries Categorization Spec.

(** A categorization result for the merchant [merchant] whose fields
    agree with each other: the confidence and the rule suggestion are those
    of the method, and the category is that of a stored rule whose pattern
    occurs in the merchant, or one of [CATEGORIES]. *)
Definition wellFormed (rules : list CategoryRule) (merchant : jsstring)
    (r : CategorizationResult) : Prop :=
  normalizedMerchant r = merchant /\
  match method r with
  | rule =>
      confidence r = high /\ suggestRule r = None /\
      exists stored, In stored rules /\ Categorization.category r = Schema.category stored /\
                     containsIgnoringCase merchant (Schema.pattern stored) = true
  | pattern =>
      suggestRule r = None /\ In (Categorization.category r) CATEGORIES /\
      (confidence r = high \/
       (confidence r = medium /\ Categorization.category r = js "Dining"))
  | ai =>
      suggestRule r = Some true /\ In (Categorization.category r) CATEGORIES /\
      confidence r = (if str_eqb (Categorization.category r) (js "Other") then low else medium)
  | fallback =>
      Categorization.category r = js "Other" /\ confidence r = low /\
      suggestRule r = Some true
  end.

(** The rule table respects its constraints: the ids come from the
    serial column and no pattern occurs twice. *)
Definition consistent (db : Database) : Prop :=
  Forall (fun r => Schema.id r < next_id db) (category_rules db) /\
  List.NoDup (map Schema.pattern (category_rules db)).

Import Number VectorTypes.

(** ** The documents of the vector store *)

(** The columns of the unique index of [vector_store]. *)
Definition rowKey (r : Row) : jsstring * DocumentType * jsstring :=
  (user_id r, doc_type r, source_id r).

(** The unique index holds. *)
Definition keysUnique (rows : list Row) : Prop := List.NoDup (map rowKey rows).

(** ** The summary of an upload *)

Definition Method_eqb (a b : Method) : bool :=
  match a, b with
  | rule, rule | pattern, pattern | ai, ai | fallback, fallback => true
  | _, _ => false
  end.

(** The number of results of a method in an array that may have holes. *)
Definition countOf (m : Method) (categorizations : list (option CategorizationResult))
  : nat :=
  length (List.filter (fun r => match r with
                                | Some r => Method_eqb (method r) m
                                | None => false
                                end) categorizations).

(** ** Documents one at a time *)

Import PgVectorDocuments.

Section OneByOne.

Variable create : Embeddings.EmbeddingInput -> option (list (list number)).
Variable toVector : list number -> option (list number).
Variable JSON_stringify : JSON -> jsstring.

(** A caller that awaits [upsertDocument] for each document in turn and
    collects the ids, up to the first call that throws. *)
Fixpoint upsertEach (store : Store) (documents : list NewDocument) (ids : list nat)
  : option (list nat) * Store :=
  match documents with
  | [] => (Some ids, store)
  | doc :: rest =>
      match upsertDocument (Embeddings.embedText create) toVector JSON_stringify store
                           (new_userId doc) (new_docType doc) (new_sourceId doc)
                           (new_text doc) (default (JObject []) (new_metadata doc)) with
      | None => (None, store)
      | Some (id, store') => upsertEach store' rest (ids ++ [id])
      end
  end.

End OneByOne.

(** The rows of a user, of the requested types when a list of types is
    given and not empty. *)
Definition visibleTo (user : jsstring) (types : option (list DocumentType))
    (rows : list Row) : list Row :=
  List.filter (selected user types) rows.

End Properties.

(* ================================================================== *)
(** * Sample stores                                                     *)
(* ================================================================== *)

Module Examples.

Import Schema Queries Categorization Number PgVectorDocuments Samples.

Definition sampleStore : Store := mkStore sampleTable 5 true.

Definition sampleStringify (_ : JSON) : jsstring := js "{}".

Definition sampleToVector (e : list number) : option (list number) := Some e.

(** The store after a document of user_42 with the source id 17 has been
    upserted again. *)
Definition afterUpdate : Store :=
  mkStore
    (mkRow 1 (js "user_42") Schema.transaction (js "17") (js "coffee at PEETS")
           [Num 1] (js "{}") :: tail sampleTable)
    6 true.

(** The store after a document with the new source id 99 has been
    upserted. *)
Definition afterInsert : Store :=
  mkStore
    (sampleTable ++
     [mkRow 5 (js "user_42") Schema.transaction (js "99") (js "coffee at PEETS")
            [Num 1] (js "{}")])
    6 true.

(** The store after the documents of user_42 have been deleted. *)
Definition afterDeleteUser : Store :=
  mkStore
    [mkRow 2 (js "user_7") Schema.transaction (js "18") (js "expense at PEETS")
           [Num (8 # 10)] (js "{}")]
    5 true.

(** The texts of the numbers 1 and 0.5, and the numbers of these texts;
    [Number] of the empty text is 0. *)
Definition sampleToString (x : number) : jsstring :=
  match x with
  | Num q => if Qeq_bool q 1 then js "1"
             else if Qeq_bool q (1 # 2) then js "0.5"
             else js "NaN"
  | NaN => js "NaN"
  end.

Definition sampleOfString (s : jsstring) : number :=
  if str_eqb s (js "1") then Num 1
  else if str_eqb s (js "0.5") then Num (1 # 2)
  else if str_eqb s [] then Num 0
  else NaN.

(** An embedding service that tells texts apart by their length. *)
Definition lengthEmbedding (text : jsstring) : list number :=
  [Num (inject_Z (Z.of_nat (length text)))].

Definition lengthService (input : Embeddings.EmbeddingInput)
  : option (list (list number)) :=
  match input with
  | Embeddings.One text => Some [lengthEmbedding text]
  | Embeddings.Many texts => Some (map lengthEmbedding texts)
  end.

Definition sampleDocuments : list NewDocument := [
  mkNewDocument (js "user_42") Schema.transaction (SourceNumber 17)
                (js "coffee at PEETS") None;
  mkNewDocument (js "user_42") Schema.query_example (SourceText (js "example_0"))
                (js " total spending ") (Some (JObject []))
].

(** The same documents after a document with a blank text. *)
Definition blankFirst : list NewDocument :=
  mkNewDocument (js "user_42") Schema.transaction (SourceNumber 16) (js "  ") None
  :: sampleDocuments.

End Examples.

(* ================================================================== *)
(** * Facts about strings                                               *)
(* ================================================================== *)

Module StringFacts.

Ltac each_char c := destruct c as [[] [] [] [] [] [] [] []].

Lemma char_eqb_eq a b : char_eqb a b = true <-> a = b.
Proof. apply Ascii.eqb_eq. Qed.

Lemma char_eqb_refl a : char_eqb a a = true.
Proof. apply Ascii.eqb_refl. Qed.

Lemma str_eqb_eq a b : str_eqb a b = true <-> a = b.
Proof.
  revert b. induction a as [|x a IH]; intros [|y b]; simpl; split;
    try congruence; try reflexivity.
  - intros H. apply andb_prop in H as [H1 H2].
    apply char_eqb_eq in H1. apply IH in H2. congruence.
  - intros H. injection H as -> ->. rewrite char_eqb_refl. simpl. now apply IH.
Qed.

Lemma str_eqb_refl a : str_eqb a a = true.
Proof. now apply str_eqb_eq. Qed.

Lemma upper_char_not_lower c : is_lower (upper_char c) = false.
Proof. each_char c; reflexivity. Qed.

Lemma upper_char_fixed c : is_lower c = false -> upper_char c = c.
Proof. unfold upper_char. now intros ->. Qed.

Lemma space_not_lower c : is_space c = true -> is_lower c = false.
Proof. each_char c; try reflexivity; discriminate. Qed.

Lemma upper_char_space c : is_space (upper_char c) = is_space c.
Proof. each_char c; reflexivity. Qed.

(** ** trim *)

Lemma trimStart_blank ws s :
  forallb is_space ws = true -> trimStart (ws ++ s) = trimStart s.
Proof.
  induction ws as [|c ws IH]; simpl; [reflexivity|].
  intros H. apply andb_prop in H as [-> H]. now apply IH.
Qed.

Lemma trimStart_suffix s : exists k, trimStart s = drop k s.
Proof.
  induction s as [|c s [k IH]]; simpl.
  - now exists 0.
  - destruct (is_space c); [now exists (S k) | now exists 0].
Qed.

Lemma trimStart_fixed s :
  match s with c :: _ => is_space c = false | [] => True end -> trimStart s = s.
Proof. destruct s as [|c s]; simpl; [reflexivity|]. now intros ->. Qed.

Lemma trimStart_head s :
  match trimStart s with c :: _ => is_space c = false | [] => True end.
Proof.
  induction s as [|c s IH]; simpl; [exact I|].
  destruct (is_space c) eqn:E; [exact IH | exact E].
Qed.

Lemma trimStart_snoc l c :
  is_space c = false -> exists l', trimStart (l ++ [c]) = l' ++ [c] /\
                                   exists k, l' = drop k l.
Proof.
  intros Hc. induction l as [|x l [l' [IH [k Hk]]]]; simpl.
  - rewrite Hc. exists []. split; [reflexivity|]. now exists 0.
  - destruct (is_space x).
    + exists l'. split; [exact IH|]. now exists (S k).
    + exists (x :: l). split; [reflexivity|]. now exists 0.
Qed.

Lemma trimEnd_prefix s : exists n, trimEnd s = take n s.
Proof.
  unfold trimEnd. destruct (trimStart_suffix (rev s)) as [k ->].
  exists (length s - k).
  rewrite skipn_rev. apply rev_involutive.
Qed.

Lemma trimEnd_cons c s :
  is_space c = false -> exists s', trimEnd (c :: s) = c :: s'.
Proof.
  intros Hc. unfold trimEnd. simpl.
  destruct (trimStart_snoc (rev s) c Hc) as [l' [-> _]].
  rewrite rev_app_distr. simpl. now exists (rev l').
Qed.

Lemma trim_cons c s :
  is_space c = false -> exists s', trim (c :: s) = c :: s'.
Proof.
  intros Hc. unfold trim. simpl. rewrite Hc. now apply trimEnd_cons.
Qed.

Lemma trimEnd_head s :
  match s with c :: _ => is_space c = false | [] => True end ->
  match trimEnd s with c :: _ => is_space c = false | [] => True end.
Proof.
  destruct s as [|c s]; [now intros _|].
  intros Hc. destruct (trimEnd_cons c s Hc) as [s' ->]. exact Hc.
Qed.

Lemma trimEnd_idem s : trimEnd (trimEnd s) = trimEnd s.
Proof.
  unfold trimEnd. rewrite rev_involutive. f_equal.
  apply trimStart_fixed. apply trimStart_head.
Qed.

Lemma trim_head s :
  match trim s with c :: _ => is_space c = false | [] => True end.
Proof. unfold trim. apply trimEnd_head, trimStart_head. Qed.

(** Trimming a trimmed text changes nothing. *)
Lemma trim_idem s : trim (trim s) = trim s.
Proof.
  unfold trim at 1. rewrite (trimStart_fixed (trim s)) by apply trim_head.
  unfold trim. apply trimEnd_idem.
Qed.

Lemma trim_sub s : exists k n, trim s = take n (drop k s).
Proof.
  unfold trim. destruct (trimStart_suffix s) as [k ->].
  destruct (trimEnd_prefix (drop k s)) as [n ->]. now exists k, n.
Qed.

End StringFacts.

(* ================================================================== *)
(** * Pattern categorization and the learning loop                      *)
(* ================================================================== *)

Import StringFacts RegExp Schema Queries Categorization Spec Samples.

Lemma find_ruleMatches_Some upperDesc rules r :
  In r rules -> ruleMatches upperDesc r = true ->
  exists r', find (ruleMatches upperDesc) rules = Some r' /\
             In r' rules /\ ruleMatches upperDesc r' = true.
Proof.
  intros Hin Hr.
  destruct (find (ruleMatches upperDesc) rules) as [r'|] eqn:E.
  - exists r'. split; [reflexivity|]. now apply find_some in E.
  - pose proof (find_none _ _ E r Hin) as H. congruence.
Qed.

(** C3 (the code departs from the claim).  On the description
    "SQ *JOE'S COFFEE #4521 SAN FRANCISCO CA" [normalizeMerchant] returns
    "JOE'S COFFEE #4521 SAN": the prefix is stripped, but the store number
    is not at the end when the suffix patterns run and the city pattern
    takes one word only, so "#4521 SAN" stays.  When no stored rule matches,
    the description is still categorized as Coffee with confidence high by
    method pattern, through the Pattern Table entry "COFFEE". *)
Theorem joes_coffee_end_to_end (rules : list CategoryRule) :
  find (ruleMatches (toUpperCase (normalizeMerchant joes_coffee))) rules = None ->
  normalizeMerchant joes_coffee = js "JOE'S COFFEE #4521 SAN" /\
  normalizeMerchant joes_coffee <> js "JOE'S COFFEE" /\
  categorizeByPattern rules joes_coffee =
    Some (mkResult (js "Coffee") high pattern (js "JOE'S COFFEE #4521 SAN") None).
Proof.
  intros Hnone.
  assert (E : normalizeMerchant joes_coffee = js "JOE'S COFFEE #4521 SAN")
    by (vm_compute; reflexivity).
  split; [exact E|]. split.
  - rewrite E. vm_compute. discriminate.
  - unfold categorizeByPattern. cbv zeta. rewrite Hnone. rewrite E.
    vm_compute. reflexivity.
Qed.

Lemma joes_coffee_end_to_end_witness :
  normalizeMerchant joes_coffee = js "JOE'S COFFEE #4521 SAN" /\
  normalizeMerchant joes_coffee <> js "JOE'S COFFEE" /\
  categorizeByPattern [] joes_coffee =
    Some (mkResult (js "Coffee") high pattern (js "JOE'S COFFEE #4521 SAN") None).
Proof. apply (joes_coffee_end_to_end []). reflexivity. Defined.

(** The example the source gives for the city pattern,
    "STARBUCKS SAN FRANCISCO CA", keeps the first word of the city as
    well: the pattern takes one word before the state. *)
Lemma two_word_city_half_stripped :
  normalizeMerchant (js "STARBUCKS SAN FRANCISCO CA") = js "STARBUCKS SAN" /\
  normalizeMerchant (js "STARBUCKS SEATTLE WA") = js "STARBUCKS".
Proof. split; vm_compute; reflexivity. Qed.

Lemma containsIgnoringCase_ruleMatches merchant r :
  containsIgnoringCase merchant (Schema.pattern r) = ruleMatches (toUpperCase merchant) r.
Proof. reflexivity. Qed.

(** C8.  Stored rules take precedence over the Pattern Table: when the
    normalized merchant of a description contains the pattern of some
    stored rule (ignoring case) and also a Pattern Table entry, the result
    has method rule and confidence high, and its category is that of a
    stored rule whose pattern the merchant contains, namely the first one
    in the order of the store; the method is never pattern. *)
Theorem rule_precedence (rules : list CategoryRule) (description : jsstring)
    (r : CategoryRule) :
  In r rules ->
  containsIgnoringCase (normalizeMerchant description) (Schema.pattern r) = true ->
  inPatternTable (normalizeMerchant description) ->
  exists r' result,
    categorizeByPattern rules description = Some result /\
    method result = rule /\
    method result <> pattern /\
    confidence result = high /\
    Categorization.category result = Schema.category r' /\
    normalizedMerchant result = normalizeMerchant description /\
    In r' rules /\
    containsIgnoringCase (normalizeMerchant description) (Schema.pattern r') = true /\
    find (ruleMatches (toUpperCase (normalizeMerchant description))) rules = Some r'.
Proof.
  intros Hin Hr _. rewrite containsIgnoringCase_ruleMatches in Hr.
  destruct (find_ruleMatches_Some _ rules r Hin Hr) as [r' [Hfind [Hin' Hr']]].
  exists r', (mkResult (Schema.category r') high rule (normalizeMerchant description) None).
  split.
  { unfold categorizeByPattern. cbv zeta. rewrite Hfind. reflexivity. }
  split; [reflexivity|]. split; [discriminate|].
  split; [reflexivity|]. split; [reflexivity|]. split; [reflexivity|].
  split; [exact Hin'|].
  split; [rewrite containsIgnoringCase_ruleMatches; exact Hr' | exact Hfind].
Qed.

Lemma rule_precedence_witness :
  exists r' result,
    categorizeByPattern [mkRule 7 (js "joe's") (js "Dining")] joes_coffee = Some result /\
    method result = rule /\
    method result <> pattern /\
    confidence result = high /\
    Categorization.category result = Schema.category r' /\
    normalizedMerchant result = normalizeMerchant joes_coffee /\
    In r' [mkRule 7 (js "joe's") (js "Dining")] /\
    containsIgnoringCase (normalizeMerchant joes_coffee) (Schema.pattern r') = true /\
    find (ruleMatches (toUpperCase (normalizeMerchant joes_coffee)))
         [mkRule 7 (js "joe's") (js "Dining")] = Some r'.
Proof.
  apply (rule_precedence [mkRule 7 (js "joe's") (js "Dining")] joes_coffee
                         (mkRule 7 (js "joe's") (js "Dining"))).
  - simpl. left. reflexivity.
  - vm_compute. reflexivity.
  - exists (js "Coffee"), (map js ["STARBUCKS"; "COFFEE"; "DUNKIN"; "PEET"; "CARIBOU";
      "COSTA"; "TIM HORTON"; "PHILZ"; "BLUE BOTTLE"; "CAFE"; "ESPRESSO"; "DUTCH BROS";
      "PEETS"]%string), (js "COFFEE").
    split; [simpl; left; reflexivity|].
    split; [simpl; right; left; reflexivity|].
    vm_compute. reflexivity.
Defined.

(** C7.  [learnFromCorrection] creates a rule exactly when it is asked to
    ([createRule] true), the normalized merchant has between 3 and 50
    characters, and the insert succeeds (the store is reachable and holds
    no rule with that pattern).  So a normalized merchant of length 2 or 51
    creates no rule and lengths 3 and 50 create one when the insert does not
    conflict.  A created rule is the normalized merchant with the corrected
    category, appended to the store; otherwise the store is unchanged.  With
    [createRule] false the call is a no-op, and a uniqueness conflict yields
    [ruleCreated] false with the pattern, not an error. *)
Theorem learnFromCorrection_guard (db : Database)
    (description correctedCategory : jsstring) (createRule : bool) :
  let merchant := normalizeMerchant description in
  let n := length merchant in
  let out := learnFromCorrection db description correctedCategory createRule in
  ruleCreated (fst out) =
    createRule && (3 <=? n) && (n <=? 50) && reachable db && negb (conflicts db merchant) /\
  (ruleCreated (fst out) = true ->
     learnedPattern (fst out) = Some merchant /\
     category_rules (snd out) =
       category_rules db ++ [mkRule (next_id db) merchant correctedCategory]) /\
  (ruleCreated (fst out) = false -> snd out = db) /\
  (createRule = false -> fst out = mkLearned false None) /\
  (createRule = true -> 3 <= n <= 50 -> reachable db = true ->
     conflicts db merchant = true -> fst out = mkLearned false (Some merchant)).
Proof.
  cbv zeta. unfold learnFromCorrection, insertCategoryRule, conflicts.
  generalize (normalizeMerchant description). intros merchant.
  destruct createRule.
  2:{ cbn. repeat split; intros; try discriminate; auto. }
  destruct (Nat.ltb_spec (length merchant) 3) as [H3|H3].
  { rewrite (proj2 (Nat.leb_gt 3 (length merchant))) by lia.
    cbn. repeat split; intros; try discriminate; auto; lia. }
  rewrite (proj2 (Nat.leb_le 3 (length merchant))) by lia.
  destruct (Nat.ltb_spec 50 (length merchant)) as [H50|H50].
  { rewrite (proj2 (Nat.leb_gt (length merchant) 50)) by lia.
    cbn. repeat split; intros; try discriminate; auto; lia. }
  rewrite (proj2 (Nat.leb_le (length merchant) 50)) by lia.
  destruct (reachable db).
  2:{ cbn. repeat split; intros; try discriminate; auto. }
  destruct (existsb _ (category_rules db)).
  - cbn. repeat split; intros; try discriminate; auto.
  - cbn. repeat split; intros; try discriminate; auto.
Qed.

Lemma learnFromCorrection_guard_witness :
  let merchant := normalizeMerchant (js "Blue Bottle") in
  let n := length merchant in
  let out := learnFromCorrection sampleDb (js "Blue Bottle") (js "Coffee") true in
  ruleCreated (fst out) =
    true && (3 <=? n) && (n <=? 50) && reachable sampleDb &&
    negb (conflicts sampleDb merchant) /\
  (ruleCreated (fst out) = true ->
     learnedPattern (fst out) = Some merchant /\
     category_rules (snd out) =
       category_rules sampleDb ++ [mkRule (next_id sampleDb) merchant (js "Coffee")]) /\
  (ruleCreated (fst out) = false -> snd out = sampleDb) /\
  (true = false -> fst out = mkLearned false None) /\
  (true = true -> 3 <= n <= 50 -> reachable sampleDb = true ->
     conflicts sampleDb merchant = true -> fst out = mkLearned false (Some merchant)).
Proof. exact (learnFromCorrection_guard sampleDb (js "Blue Bottle") (js "Coffee") true). Defined.

(** The boundaries of the guard, on merchants of 2, 3, 50 and 51 letters
    and a store that holds none of them. *)
Lemma learning_guard_boundaries :
  let learns k :=
    ruleCreated (fst (learnFromCorrection sampleDb (repeat "A"%char k) (js "Other") true)) in
  length (normalizeMerchant (repeat "A"%char 2)) = 2 /\ learns 2 = false /\
  length (normalizeMerchant (repeat "A"%char 3)) = 3 /\ learns 3 = true /\
  length (normalizeMerchant (repeat "A"%char 50)) = 50 /\ learns 50 = true /\
  length (normalizeMerchant (repeat "A"%char 51)) = 51 /\ learns 51 = false.
Proof. vm_compute. repeat split. Qed.

(* ================================================================== *)
(** * Query safety layer: the SELECT guard                              *)
(* ================================================================== *)

Lemma toUpperCase_cons_inv kw c0 krest :
  toUpperCase kw = c0 :: krest ->
  exists c kw', kw = c :: kw' /\ upper_char c = c0.
Proof.
  destruct kw as [|c kw']; simpl; [discriminate|].
  intros H. injection H as H1 H2. now exists c, kw'.
Qed.

(** A text whose first character other than white space is not an S, in
    either case, is not a SELECT. *)
Lemma isSelect_other_initial ws kw rest c0 krest :
  blank ws = true -> toUpperCase kw = c0 :: krest ->
  is_space c0 = false -> char_eqb "S" c0 = false ->
  isSelect (ws ++ kw ++ rest) = false.
Proof.
  intros Hws Hkw Hsp HS.
  destruct (toUpperCase_cons_inv _ _ _ Hkw) as [c [kw' [-> Hc]]].
  assert (Hc' : is_space c = false) by (rewrite <- upper_char_space, Hc; exact Hsp).
  unfold isSelect, trim. rewrite trimStart_blank by exact Hws.
  simpl ((c :: kw') ++ rest). simpl trimStart. rewrite Hc'.
  destruct (trimEnd_cons c (kw' ++ rest) Hc') as [s' ->].
  simpl. rewrite Hc, HS. reflexivity.
Qed.

Lemma isSelect_keyword keyword c0 krest query :
  js keyword = c0 :: krest -> is_space c0 = false -> char_eqb "S" c0 = false ->
  startsWithKeyword keyword query -> isSelect query = false.
Proof.
  intros Hk Hsp HS [ws [kw [rest [-> [Hws Hkw]]]]].
  unfold spells in Hkw. rewrite Hk in Hkw.
  now apply (isSelect_other_initial ws kw rest c0 krest).
Qed.

(** C2 as stated fails: a candidate made of two statements separated by a
    semicolon passes the guard when it begins with SELECT, and reaches the
    store, through [executeRawQuery] and through the SQLite tool alike. *)
Lemma stacked_statements_reach_store :
  let candidate := js "SELECT 1; DROP TABLE transactions" in
  multipleStatements candidate = true /\
  executeRawQuery unit (fun _ => inr []) (js "user_42") candidate [] =
    (Resolved unit [], [candidate]) /\
  SqliteTools.createSqlQueryTool unit (fun _ => inr []) (js "user_42") candidate [] =
    (mkPayload true None (Some 0) (Some []) (Some candidate), [candidate]).
Proof. vm_compute. repeat split. Qed.

(** C2 (amended).  Every candidate whose trimmed, upper-cased form does not
    begin with SELECT is rejected before anything is sent to the store: in
    particular every candidate that starts, after optional white space, with
    INSERT, UPDATE or DELETE in any casing.  [executeRawQuery] throws 'Only
    SELECT queries are allowed', both [sql_query] tools return a payload with
    [success] false, and the list of statements the store received is
    unchanged. *)
Theorem non_select_rejected (Row : Type)
    (neonSql prepare_all : jsstring -> DbError + list Row)
    (userId query : jsstring) (received : list jsstring) :
  isSelect query = false \/ startsWithKeyword "INSERT" query \/
  startsWithKeyword "UPDATE" query \/ startsWithKeyword "DELETE" query ->
  executeRawQuery Row neonSql userId query received =
    (Thrown Row (js "Only SELECT queries are allowed"), received) /\
  PostgresTools.createSqlQueryTool Row neonSql userId query received =
    (mkPayload false (Some (js "Only SELECT queries are allowed")) None None (Some query),
     received) /\
  SqliteTools.createSqlQueryTool Row prepare_all userId query received =
    (mkPayload false (Some (js "Only SELECT queries are allowed for security reasons."))
               None None None,
     received).
Proof.
  intros H.
  assert (E : isSelect query = false).
  { destruct H as [H|[H|[H|H]]]; [exact H| | |].
    - now apply (isSelect_keyword "INSERT" "I" (js "NSERT")).
    - now apply (isSelect_keyword "UPDATE" "U" (js "PDATE")).
    - now apply (isSelect_keyword "DELETE" "D" (js "ELETE")). }
  unfold PostgresTools.createSqlQueryTool, SqliteTools.createSqlQueryTool,
    executeRawQuery.
  rewrite E. simpl. repeat split.
Qed.

Lemma non_select_rejected_witness :
  executeRawQuery unit (fun _ => inr []) (js "user_42")
                  (js "  delete from transactions") [] =
    (Thrown unit (js "Only SELECT queries are allowed"), []) /\
  PostgresTools.createSqlQueryTool unit (fun _ => inr []) (js "user_42")
                  (js "  delete from transactions") [] =
    (mkPayload false (Some (js "Only SELECT queries are allowed")) None None
               (Some (js "  delete from transactions")), []) /\
  SqliteTools.createSqlQueryTool unit (fun _ => inr []) (js "user_42")
                  (js "  delete from transactions") [] =
    (mkPayload false (Some (js "Only SELECT queries are allowed for security reasons."))
               None None None, []).
Proof.
  apply (non_select_rejected unit (fun _ => inr []) (fun _ => inr []) (js "user_42")
                             (js "  delete from transactions") []).
  right. right. right.
  exists (js "  "), (js "delete"), (js " from transactions").
  split; [reflexivity|]. split; reflexivity.
Defined.

(* ================================================================== *)
(** * Facts about the regular expressions                               *)
(* ================================================================== *)

Module RegExpFacts.

(** Matching a literal piece character by character: the character
    before the rest and the rest. *)
Fixpoint strip_lit (icase : bool) (l : jsstring) (prev : option ascii) (s : jsstring)
  : option (option ascii * jsstring) :=
  match l with
  | [] => Some (prev, s)
  | x :: l' =>
      match s with
      | c :: s' =>
          if class_matches icase (Lit x) c then strip_lit icase l' (Some c) s' else None
      | [] => None
      end
  end.

(** Passing over a run of white space. *)
Fixpoint skip_spaces (prev : option ascii) (s : jsstring) : option ascii * jsstring :=
  match s with
  | c :: s' => if is_space c then skip_spaces (Some c) s' else (prev, s)
  | [] => (prev, [])
  end.

Definition space_led (s : jsstring) : Prop :=
  match s with c :: _ => is_space c = true | [] => True end.

Lemma match_here_lit icase l re prev s :
  match_here icase (map (fun c => Chr (Lit c)) l ++ re) prev s =
  match strip_lit icase l prev s with
  | Some (p, r) => match_here icase re p r
  | None => None
  end.
Proof.
  revert prev s. induction l as [|x l IH]; intros prev s; simpl; [reflexivity|].
  destruct s as [|c s]; [reflexivity|].
  destruct (class_matches icase (Lit x) c); [apply IH | reflexivity].
Qed.

Lemma strip_lit_length icase l prev s p r :
  strip_lit icase l prev s = Some (p, r) -> length s = length l + length r.
Proof.
  revert prev s. induction l as [|x l IH]; intros prev s; simpl.
  - intros H. injection H as _ ->. reflexivity.
  - destruct s as [|c s]; [discriminate|].
    destruct (class_matches icase (Lit x) c); [|discriminate].
    intros H. apply IH in H. simpl. lia.
Qed.

Lemma strip_lit_last icase l x prev s p r :
  strip_lit icase (l ++ [x]) prev s = Some (p, r) ->
  exists c, p = Some c /\ class_matches icase (Lit x) c = true.
Proof.
  revert prev s. induction l as [|y l IH]; intros prev s; simpl.
  - destruct s as [|c s]; [discriminate|].
    destruct (class_matches icase (Lit x) c) eqn:E; [|discriminate].
    intros H. injection H as <- _. now exists c.
  - destruct s as [|c s]; [discriminate|].
    destruct (class_matches icase (Lit y) c); [|discriminate]. apply IH.
Qed.

Lemma skip_spaces_length prev s :
  length (snd (skip_spaces prev s)) <= length s.
Proof.
  revert prev. induction s as [|c s IH]; intros prev; simpl; [lia|].
  destruct (is_space c); simpl; [|lia]. specialize (IH (Some c)). lia.
Qed.

Lemma skip_spaces_head prev s :
  match snd (skip_spaces prev s) with c :: _ => is_space c = false | [] => True end.
Proof.
  revert prev. induction s as [|c s IH]; intros prev; simpl; [exact I|].
  destruct (is_space c) eqn:E; simpl; [apply IH | exact E].
Qed.

Lemma skip_spaces_rest prev s : snd (skip_spaces prev s) = trimStart s.
Proof.
  revert prev. induction s as [|c s IH]; intros prev; simpl; [reflexivity|].
  destruct (is_space c); [apply IH | reflexivity].
Qed.

(** A literal that does not start with white space cannot match on it. *)
Lemma lit_not_space icase x c :
  is_space x = false -> is_space c = true -> class_matches icase (Lit x) c = false.
Proof.
  intros Hx Hc. unfold class_matches. destruct icase.
  - destruct (char_eqb (upper_char x) (upper_char c)) eqn:E; [|reflexivity].
    apply char_eqb_eq in E.
    rewrite <- (upper_char_space x), E, upper_char_space in Hx. congruence.
  - destruct (char_eqb x c) eqn:E; [|reflexivity].
    apply char_eqb_eq in E. congruence.
Qed.

(** A run of white space followed by something that cannot start on
    white space nor on the end of the text: the run is taken whole. *)
Lemma rep_space_then icase cont lo prev s :
  (forall p t, space_led t -> cont p t = None) ->
  rep icase Space cont lo None prev s =
  let '(p, r) := skip_spaces prev s in
  if lo <=? length s - length r then cont p r else None.
Proof.
  intros Hcont. revert lo prev.
  induction s as [|c s IH]; intros lo prev.
  - simpl. rewrite Hcont by exact I. now destruct lo.
  - cbn [rep skip_spaces more_allowed option_map].
    change (class_matches icase Space c) with (is_space c).
    destruct (is_space c) eqn:E; cbn [andb].
    + rewrite IH. pose proof (skip_spaces_length (Some c) s) as Hlen.
      destruct (skip_spaces (Some c) s) as [p r]. cbn [snd] in Hlen.
      replace (lo <=? length (c :: s) - length r) with (pred lo <=? length s - length r).
      2:{ cbn [length]. destruct lo as [|lo]; [reflexivity|].
          replace (S (length s) - length r) with (S (length s - length r)) by lia.
          reflexivity. }
      destruct (pred lo <=? length s - length r) eqn:E2.
      2:{ destruct lo; [simpl in E2; discriminate | reflexivity]. }
      destruct (cont p r); [reflexivity|].
      destruct lo; [|reflexivity]. apply Hcont. exact E.
    + rewrite Nat.sub_diag. now destruct lo.
Qed.

(** A run of white space at the end of the pattern. *)
Lemma rep_space_last icase lo prev s :
  rep icase Space (fun _ t => Some t) lo None prev s =
  if lo <=? length s - length (trimStart s) then Some (trimStart s) else None.
Proof.
  revert lo prev. induction s as [|c s IH]; intros lo prev.
  - simpl. now destruct lo.
  - cbn [rep trimStart more_allowed option_map].
    change (class_matches icase Space c) with (is_space c).
    destruct (is_space c) eqn:E; cbn [andb].
    + rewrite IH.
      assert (Hlen : length (trimStart s) <= length s).
      { rewrite <- (skip_spaces_rest None). apply skip_spaces_length. }
      replace (lo <=? length (c :: s) - length (trimStart s))
        with (pred lo <=? length s - length (trimStart s)).
      2:{ cbn [length]. destruct lo as [|lo]; [reflexivity|].
          replace (S (length s) - length (trimStart s))
            with (S (length s - length (trimStart s))) by lia.
          reflexivity. }
      destruct (pred lo <=? length s - length (trimStart s)) eqn:E2; [reflexivity|].
      destruct lo; [|reflexivity]. simpl in E2. discriminate.
    + rewrite Nat.sub_diag. now destruct lo.
Qed.

(** With a lower bound of one the character before the run is not looked at. *)
Lemma rep_prev_irrelevant icase k cont lo hi prev prev' s :
  rep icase k cont (S lo) hi prev s = rep icase k cont (S lo) hi prev' s.
Proof. destruct s; reflexivity. Qed.

(** A pattern that ends with [$] matches up to the end of the text. *)
Lemma rep_to_end icase k cont lo hi prev s r :
  (forall p t r', cont p t = Some r' -> r' = []) ->
  rep icase k cont lo hi prev s = Some r -> r = [].
Proof.
  intros Hcont. revert lo hi prev.
  induction s as [|c s IH]; intros lo hi prev; simpl.
  - destruct lo; [apply Hcont | discriminate].
  - destruct (class_matches icase k c && more_allowed hi).
    + destruct (rep icase k cont (pred lo) (option_map pred hi) (Some c) s) eqn:E.
      * intros H. injection H as <-. now apply IH in E.
      * destruct lo; [apply Hcont | discriminate].
    + destruct lo; [apply Hcont | discriminate].
Qed.

Lemma match_here_to_end icase re prev s r :
  match_here icase (re ++ [Eos]) prev s = Some r -> r = [].
Proof.
  revert prev s r. induction re as [|a re IH]; intros prev s r; simpl.
  - destruct s; [|discriminate]. intros H. now injection H as <-.
  - destruct a as [k|k lo hi| |].
    + destruct s as [|c s]; [discriminate|].
      destruct (class_matches icase k c); [apply IH | discriminate].
    + apply rep_to_end. intros p t r'. apply IH.
    + destruct (xorb _ _); [apply IH | discriminate].
    + destruct s; [apply IH | discriminate].
Qed.

(** ** Searching *)

Lemma rep_suffix icase k cont lo hi prev s x :
  (forall p t y, cont p t = Some y -> exists m, t = m ++ y) ->
  rep icase k cont lo hi prev s = Some x -> exists m, s = m ++ x.
Proof.
  intros Hcont. revert lo hi prev.
  induction s as [|c s IH]; intros lo hi prev; simpl.
  - destruct lo; [apply Hcont | discriminate].
  - destruct (class_matches icase k c && more_allowed hi).
    + destruct (rep icase k cont (pred lo) (option_map pred hi) (Some c) s) eqn:E.
      * intros H. injection H as <-. apply IH in E as [m ->]. now exists (c :: m).
      * destruct lo; [apply Hcont | discriminate].
    + destruct lo; [apply Hcont | discriminate].
Qed.

(** What is left after a match is a suffix of the text. *)
Lemma match_here_suffix icase re prev s x :
  match_here icase re prev s = Some x -> exists m, s = m ++ x.
Proof.
  revert prev s x. induction re as [|a re IH]; intros prev s x; simpl.
  - intros H. injection H as <-. now exists [].
  - destruct a as [k|k lo hi| |].
    + destruct s as [|c s]; [discriminate|].
      destruct (class_matches icase k c); [|discriminate].
      intros H. apply IH in H as [m ->]. now exists (c :: m).
    + apply rep_suffix. intros p t y. apply IH.
    + destruct (xorb _ _); [apply IH | discriminate].
    + destruct s; [apply IH | discriminate].
Qed.

Lemma match_at_take r pre s rest :
  match_at r pre s = Some rest -> s = take (length s - length rest) s ++ rest.
Proof.
  intros H. apply match_here_suffix in H as [m ->].
  rewrite length_app. replace (length m + length rest - length rest) with (length m) by lia.
  now rewrite take_app_length.
Qed.

(** The leftmost match splits the text. *)
Lemma exec_from_sound r pre s m :
  exec_from r pre s = Some m ->
  exists s1, s = s1 ++ matched m ++ after m /\ before m = rev pre ++ s1 /\
             match_at r (rev s1 ++ pre) (matched m ++ after m) = Some (after m).
Proof.
  revert pre m. induction s as [|c s IH]; intros pre m.
  - unfold exec_from.
    destruct (match_at r pre []) as [rest|] eqn:E; [|discriminate].
    intros H. injection H as <-. cbn [before matched after].
    exists []. pose proof (match_at_take _ _ _ _ E) as Hs.
    simpl in Hs. subst rest. cbn [length Nat.sub take app rev].
    split; [reflexivity|]. split; [now rewrite app_nil_r | exact E].
  - change (exec_from r pre (c :: s))
      with (match match_at r pre (c :: s) with
            | Some rest =>
                Some (mkMatch (rev pre)
                        (take (length (c :: s) - length rest) (c :: s)) rest)
            | None => exec_from r (c :: pre) s
            end).
    destruct (match_at r pre (c :: s)) as [rest|] eqn:E.
    + intros H. injection H as <-. cbn [before matched after].
      exists []. pose proof (match_at_take _ _ _ _ E) as Hs.
      cbn [app rev]. cbn [length] in Hs. rewrite <- Hs.
      split; [reflexivity|]. split; [now rewrite app_nil_r | exact E].
    + intros H. apply IH in H as [s1 [H1 [H2 H3]]].
      exists (c :: s1). split; [simpl; now f_equal|]. split.
      * rewrite H2. simpl. now rewrite <- app_assoc.
      * simpl. rewrite <- app_assoc. exact H3.
Qed.

Lemma exec_from_None r pre s :
  exec_from r pre s = None -> match_at r pre s = None.
Proof.
  destruct s as [|c s]; simpl; now destruct (match_at r pre _).
Qed.

Lemma exec_from_None_tail r pre c s :
  exec_from r pre (c :: s) = None -> exec_from r (c :: pre) s = None.
Proof. simpl. now destruct (match_at r pre (c :: s)). Qed.

(** Without a match the text is left as it is. *)
Lemma replace_first_no_match r template s :
  test r s = false -> replace_first r template s = s.
Proof. unfold test, replace_first. now destruct (exec r s). Qed.

(** Removing the first match of a pattern that ends with [$] leaves a
    prefix of the text. *)
Lemma replace_first_to_end re icase s :
  exists n, replace_first (RegExp.mk (re ++ [Eos]) icase false) [] s = take n s.
Proof.
  unfold replace_first, exec.
  destruct (exec_from _ [] s) as [m|] eqn:E.
  - apply exec_from_sound in E as [s1 [H1 [H2 H3]]].
    unfold match_at in H3. cbn [source ignoreCase] in H3.
    apply match_here_to_end in H3. rewrite H3 in *. simpl in *.
    rewrite !app_nil_r in *. exists (length s1).
    rewrite H2, H1. now rewrite take_app_length.
  - exists (length s). now rewrite firstn_all.
Qed.

(** A replacement text without [$] is inserted as it is. *)
Lemma GetSubstitution_plain m template :
  forallb (fun c => negb (char_eqb c "$")) template = true ->
  GetSubstitution m template = template.
Proof.
  induction template as [|c t IH]; simpl; [reflexivity|].
  intros H. apply andb_prop in H as [H1 H2].
  apply negb_true_iff in H1. rewrite H1. f_equal. now apply IH.
Qed.

End RegExpFacts.

(* ================================================================== *)
(** * Query safety layer: the scope rewriting                           *)
(* ================================================================== *)

Module ScopeFacts.

Import RegExpFacts.

(** The end of a table reference that starts at the current position:
    FROM, white space, transactions. *)
Definition reference_end (prev : option ascii) (s : jsstring)
  : option (option ascii * jsstring) :=
  match strip_lit true (js "FROM") prev s with
  | Some (p1, s1) =>
      let '(p2, s2) := skip_spaces p1 s1 in
      if 1 <=? length s1 - length s2
      then strip_lit true (js "transactions") p2 s2
      else None
  | None => None
  end.

Lemma letter_not_space_led icase l X p t :
  match l with x :: _ => is_space x = false | [] => False end ->
  space_led t ->
  match_here icase (map (fun c => Chr (Lit c)) l ++ X) p t = None.
Proof.
  intros Hl Ht. rewrite match_here_lit.
  destruct l as [|x l]; [contradiction|].
  destruct t as [|c t]; [reflexivity|]. simpl in *.
  now rewrite lit_not_space.
Qed.

Lemma table_reference_closed X prev s :
  match_here true (lit "FROM" ++ [plus Space] ++ lit "transactions" ++ X) prev s =
  match reference_end prev s with
  | Some (p, r) => match_here true X p r
  | None => None
  end.
Proof.
  unfold lit. rewrite match_here_lit. unfold reference_end.
  destruct (strip_lit true (js "FROM") prev s) as [[p1 s1]|]; [|reflexivity].
  cbn [app]. unfold plus. cbn [match_here].
  rewrite rep_space_then.
  2:{ intros p t Ht. apply letter_not_space_led; [reflexivity | exact Ht]. }
  destruct (skip_spaces p1 s1) as [p2 s2].
  destruct (1 <=? length s1 - length s2); [|reflexivity].
  apply match_here_lit.
Qed.

Lemma match_at_reference pre s :
  match_at fromTransactionsRegex pre s =
  match reference_end (head pre) s with
  | Some (p, r) =>
      if xorb (is_word_opt p) (is_word_opt (head r)) then Some r else None
  | None => None
  end.
Proof.
  unfold match_at, fromTransactionsRegex. cbn [source ignoreCase].
  rewrite table_reference_closed.
  destruct (reference_end (head pre) s) as [[p r]|]; reflexivity.
Qed.

Lemma match_at_reference_where pre s :
  match_at fromTransactionsWhereRegex pre s =
  match reference_end (head pre) s with
  | Some (p, r) => match_here true followingWhere p r
  | None => None
  end.
Proof.
  unfold match_at, fromTransactionsWhereRegex. cbn [source ignoreCase].
  apply table_reference_closed.
Qed.

Lemma s_is_word c : class_matches true (Lit "s") c = true -> is_word c = true.
Proof. unfold class_matches. each_char c; vm_compute; congruence. Qed.

Lemma space_not_word c : is_space c = true -> is_word c = false.
Proof. each_char c; vm_compute; congruence. Qed.

Lemma reference_end_word prev s p r :
  reference_end prev s = Some (p, r) -> is_word_opt p = true.
Proof.
  unfold reference_end.
  destruct (strip_lit true (js "FROM") prev s) as [[p1 s1]|]; [|discriminate].
  destruct (skip_spaces p1 s1) as [p2 s2].
  destruct (1 <=? length s1 - length s2); [|discriminate].
  change (js "transactions") with (js "transaction" ++ ["s"%char]).
  intros H. apply strip_lit_last in H as [c [-> Hc]].
  now apply s_is_word.
Qed.

Lemma reference_end_length prev s p r :
  reference_end prev s = Some (p, r) -> length r < length s.
Proof.
  unfold reference_end.
  destruct (strip_lit true (js "FROM") prev s) as [[p1 s1]|] eqn:E1; [|discriminate].
  pose proof (skip_spaces_length p1 s1) as Hlen.
  destruct (skip_spaces p1 s1) as [p2 s2]. cbn [snd] in Hlen.
  destruct (1 <=? length s1 - length s2); [|discriminate].
  intros E2. apply strip_lit_length in E1, E2. simpl in E1, E2. lia.
Qed.

Lemma followingWhere_prev p r :
  match_here true followingWhere p r = match_here true followingWhere None r.
Proof. unfold followingWhere, plus. cbn [app match_here]. apply rep_prev_irrelevant. Qed.

Lemma followingWhere_head p r r2 :
  match_here true followingWhere p r = Some r2 -> is_word_opt (head r) = false.
Proof.
  unfold followingWhere, plus. cbn [app match_here].
  destruct r as [|c r]; [discriminate|]. cbn [rep more_allowed head is_word_opt].
  change (class_matches true Space c) with (is_space c).
  destruct (is_space c) eqn:E; [|discriminate].
  intros _. now apply space_not_word.
Qed.

Lemma followingWhere_length p r r2 :
  match_here true followingWhere p r = Some r2 -> length r2 <= length r.
Proof.
  intros H. apply match_here_suffix in H as [m ->]. rewrite length_app. lia.
Qed.

(** A reference followed by WHERE is a reference. *)
Lemma where_then_reference pre s r2 :
  match_at fromTransactionsWhereRegex pre s = Some r2 ->
  exists r, match_at fromTransactionsRegex pre s = Some r /\
            match_here true followingWhere None r = Some r2.
Proof.
  rewrite match_at_reference_where, match_at_reference.
  destruct (reference_end (head pre) s) as [[p r]|] eqn:E; [|discriminate].
  intros H. exists r.
  rewrite (reference_end_word _ _ _ _ E), (followingWhere_head _ _ _ H).
  split; [reflexivity|]. now rewrite <- (followingWhere_prev p).
Qed.

Lemma reference_where pre s r r2 :
  match_at fromTransactionsRegex pre s = Some r ->
  match_here true followingWhere None r = Some r2 ->
  match_at fromTransactionsWhereRegex pre s = Some r2.
Proof.
  rewrite match_at_reference_where, match_at_reference.
  destruct (reference_end (head pre) s) as [[p r']|]; [|discriminate].
  destruct (xorb _ _); [|discriminate].
  intros H. injection H as ->. now rewrite (followingWhere_prev p).
Qed.

Lemma reference_nonempty pre s r :
  match_at fromTransactionsRegex pre s = Some r -> length r < length s.
Proof.
  rewrite match_at_reference.
  destruct (reference_end (head pre) s) as [[p r']|] eqn:E; [|discriminate].
  destruct (xorb _ _); [|discriminate].
  intros H. injection H as <-. now apply reference_end_length in E.
Qed.

(** No position of the text starts a reference followed by WHERE. *)
Fixpoint noWhere (pre s : jsstring) : bool :=
  match match_at fromTransactionsWhereRegex pre s with
  | Some _ => false
  | None => true
  end &&
  match s with
  | [] => true
  | c :: s' => noWhere (c :: pre) s'
  end.

Lemma exec_from_noWhere pre s :
  exec_from fromTransactionsWhereRegex pre s = None -> noWhere pre s = true.
Proof.
  revert pre. induction s as [|c s IH]; intros pre H.
  - cbn [noWhere]. apply exec_from_None in H. now rewrite H.
  - cbn [noWhere]. rewrite (exec_from_None _ _ _ H). cbn [andb].
    apply IH. now apply exec_from_None_tail in H.
Qed.

Lemma plain_whereClause userId m :
  plainScope userId = true ->
  GetSubstitution m (whereClause userId) = whereClause userId.
Proof.
  intros H. apply GetSubstitution_plain. unfold whereClause.
  rewrite !forallb_app. unfold plainScope in H. rewrite H. reflexivity.
Qed.

Lemma plain_whereAndClause userId m :
  plainScope userId = true ->
  GetSubstitution m (whereAndClause userId) = whereAndClause userId.
Proof.
  intros H. apply GetSubstitution_plain. unfold whereAndClause.
  rewrite !forallb_app. unfold plainScope in H. rewrite H. reflexivity.
Qed.

(** When no reference is followed by WHERE, replacing every reference is
    the rewriting of the specification. *)
Lemma replace_references userId pre s skip :
  plainScope userId = true -> noWhere pre s = true ->
  replace_all fromTransactionsRegex (whereClause userId) pre s skip =
  scopeEachReference userId pre s skip.
Proof.
  intros Hu. revert pre skip. induction s as [|c s IH]; intros pre skip Hn.
  - destruct skip as [|k]; [|reflexivity]. cbn [replace_all scopeEachReference].
    destruct (match_at fromTransactionsRegex pre []) as [r|] eqn:E; [|reflexivity].
    apply reference_nonempty in E. simpl in E. lia.
  - cbn [noWhere] in Hn. apply andb_prop in Hn as [Hn1 Hn2].
    destruct skip as [|k]; cbn [replace_all scopeEachReference]; [|now apply IH].
    destruct (match_at fromTransactionsRegex pre (c :: s)) as [r|] eqn:E.
    + destruct (match_here true followingWhere None r) as [r2|] eqn:E2.
      { rewrite (reference_where _ _ _ _ E E2) in Hn1. discriminate. }
      rewrite plain_whereClause by exact Hu.
      pose proof (reference_nonempty _ _ _ E) as Hlen.
      destruct (length (c :: s) - length r) as [|k] eqn:En; [lia|].
      cbn [pred]. f_equal. now apply IH.
    + f_equal. now apply IH.
Qed.

(** When every reference is followed by WHERE, replacing every reference
    with its WHERE is the rewriting of the specification. *)
Lemma replace_references_where userId pre s skip :
  plainScope userId = true -> everyReferenceHasWhere pre s = true ->
  replace_all fromTransactionsWhereRegex (whereAndClause userId) pre s skip =
  scopeEachReference userId pre s skip.
Proof.
  intros Hu. revert pre skip. induction s as [|c s IH]; intros pre skip Hn.
  - destruct skip as [|k]; [|reflexivity]. cbn [replace_all scopeEachReference].
    destruct (match_at fromTransactionsRegex pre []) as [r|] eqn:E.
    { apply reference_nonempty in E. simpl in E. lia. }
    destruct (match_at fromTransactionsWhereRegex pre []) as [r2|] eqn:E2; [|reflexivity].
    apply where_then_reference in E2 as [r [E2 _]]. congruence.
  - cbn [everyReferenceHasWhere] in Hn. apply andb_prop in Hn as [Hn1 Hn2].
    destruct skip as [|k]; cbn [replace_all scopeEachReference]; [|now apply IH].
    destruct (match_at fromTransactionsWhereRegex pre (c :: s)) as [r2|] eqn:E2.
    + destruct (where_then_reference _ _ _ E2) as [r [E Ew]].
      rewrite E, Ew. rewrite plain_whereAndClause by exact Hu.
      pose proof (reference_nonempty _ _ _ E) as Hlen.
      pose proof (followingWhere_length _ _ _ Ew) as Hlen2.
      destruct (length (c :: s) - length r2) as [|k] eqn:En; [lia|].
      cbn [pred]. f_equal. now apply IH.
    + destruct (match_at fromTransactionsRegex pre (c :: s)) as [r|] eqn:E;
        [discriminate|].
      f_equal. now apply IH.
Qed.

End ScopeFacts.

Import ScopeFacts.

(** C1 as stated fails: in a candidate with two table references, one
    followed by WHERE and one not, only the first is rewritten; the
    reference without WHERE gets no WHERE clause appended. *)
Lemma mixed_references_not_scoped :
  let candidate :=
    js "SELECT * FROM transactions WHERE id IN (SELECT id FROM transactions)" in
  isSelect candidate = true /\
  test fromTransactionsRegex candidate = true /\
  secureQuery (js "user_42") candidate =
    js "SELECT * FROM transactions WHERE user_id = 'user_42' AND id IN (SELECT id FROM transactions)" /\
  scopedStatement (js "user_42") candidate =
    js "SELECT * FROM transactions WHERE user_id = 'user_42' AND id IN (SELECT id FROM transactions WHERE user_id = 'user_42')" /\
  snd (executeRawQuery unit (fun _ => inr []) (js "user_42") candidate []) <>
    [scopedStatement (js "user_42") candidate].
Proof.
  vm_compute.
  split; [reflexivity|]. split; [reflexivity|]. split; [reflexivity|].
  split; [reflexivity|]. intros H. discriminate H.
Qed.

Lemma secureQuery_scoped userId query :
  plainScope userId = true -> uniformReferences query = true ->
  test fromTransactionsRegex query = true ->
  secureQuery userId query = scopedStatement userId query.
Proof.
  intros Hu Hq Ht. unfold secureQuery, scopedStatement. rewrite Ht.
  unfold uniformReferences in Hq. unfold replace.
  change (global fromTransactionsWhereRegex) with true.
  change (global fromTransactionsRegex) with true. cbv iota.
  destruct (test fromTransactionsWhereRegex query) eqn:Ew.
  - simpl in Hq. now apply replace_references_where.
  - apply replace_references; [exact Hu|].
    apply exec_from_noWhere. unfold test, exec in Ew.
    now destruct (exec_from fromTransactionsWhereRegex [] query).
Qed.

(** C1 (amended).  For a scope value without [$] and a candidate that
    passes the SELECT guard and references the transactions table, with
    references that agree (none is followed by WHERE, or every one is),
    [executeRawQuery] sends to the store the statement rewritten reference
    by reference: "WHERE user_id = '<scope>'" is appended to a reference
    without WHERE, and "user_id = '<scope>' AND" is injected right after the
    WHERE that follows a reference.  In particular the candidate "SELECT
    category, SUM(amount) FROM transactions GROUP BY category" for scope
    "user_42" is rewritten to "SELECT category, SUM(amount) FROM
    transactions WHERE user_id = 'user_42' GROUP BY category". *)
Theorem scope_injection (Row : Type) (neonSql : jsstring -> DbError + list Row)
    (userId query : jsstring) (received : list jsstring) :
  isSelect query = true ->
  test fromTransactionsRegex query = true ->
  plainScope userId = true ->
  uniformReferences query = true ->
  secureQuery userId query = scopedStatement userId query /\
  executeRawQuery Row neonSql userId query received =
    (match neonSql (scopedStatement userId query) with
     | inl e => Thrown Row (message e)
     | inr rows => Resolved Row rows
     end,
     received ++ [scopedStatement userId query]) /\
  secureQuery (js "user_42")
              (js "SELECT category, SUM(amount) FROM transactions GROUP BY category") =
    js "SELECT category, SUM(amount) FROM transactions WHERE user_id = 'user_42' GROUP BY category".
Proof.
  intros Hs Ht Hu Hq.
  pose proof (secureQuery_scoped userId query Hu Hq Ht) as E.
  split; [exact E|]. split.
  - unfold executeRawQuery. rewrite Hs. cbn [negb]. rewrite E. reflexivity.
  - vm_compute. reflexivity.
Qed.

Lemma scope_injection_witness :
  let candidate := js "select sum(amount) from  transactions where amount < 0" in
  secureQuery (js "user_42") candidate = scopedStatement (js "user_42") candidate /\
  executeRawQuery unit (fun _ => inr []) (js "user_42") candidate [] =
    (Resolved unit [], [] ++ [scopedStatement (js "user_42") candidate]) /\
  secureQuery (js "user_42")
              (js "SELECT category, SUM(amount) FROM transactions GROUP BY category") =
    js "SELECT category, SUM(amount) FROM transactions WHERE user_id = 'user_42' GROUP BY category".
Proof.
  apply (scope_injection unit (fun _ => inr []) (js "user_42")
           (js "select sum(amount) from  transactions where amount < 0") []);
    vm_compute; reflexivity.
Defined.

(* ================================================================== *)
(** * Merchant normalizer                                               *)
(* ================================================================== *)

Module NormalizerFacts.

Import RegExpFacts.

(** No lower-case letter. *)
Definition no_lower (s : jsstring) : bool := forallb (fun c => negb (is_lower c)) s.

Definition head_space (s : jsstring) : bool :=
  match s with c :: _ => is_space c | [] => false end.

(** Every white-space character is a single space between two other
    characters, or a single space at an end of the text. *)
Fixpoint single_spaced (s : jsstring) : bool :=
  match s with
  | [] => true
  | c :: s' =>
      (if is_space c then char_eqb c " " && negb (head_space s') else true) &&
      single_spaced s'
  end.

(** What one pass of the normalizer guarantees of its result. *)
Definition tidy (s : jsstring) : Prop :=
  no_lower s = true /\ single_spaced s = true /\ trim s = s.

(** ** Upper case *)

Lemma toUpperCase_no_lower s : no_lower (toUpperCase s) = true.
Proof.
  induction s as [|c s IH]; simpl; [reflexivity|].
  now rewrite upper_char_not_lower, IH.
Qed.

Lemma toUpperCase_fixed s : no_lower s = true -> toUpperCase s = s.
Proof.
  induction s as [|c s IH]; simpl; [reflexivity|].
  intros H. apply andb_prop in H as [H1 H2]. apply negb_true_iff in H1.
  now rewrite (upper_char_fixed c H1), IH.
Qed.

Lemma no_lower_take n s : no_lower s = true -> no_lower (take n s) = true.
Proof.
  revert n. induction s as [|c s IH]; intros [|n]; simpl; try reflexivity.
  intros H. apply andb_prop in H as [-> H2]. now apply IH.
Qed.

Lemma no_lower_drop k s : no_lower s = true -> no_lower (drop k s) = true.
Proof.
  revert k. induction s as [|c s IH]; intros [|k]; simpl; try reflexivity.
  - now intros H.
  - intros H. apply andb_prop in H as [_ H2]. now apply IH.
Qed.

Lemma no_lower_trim s : no_lower s = true -> no_lower (trim s) = true.
Proof.
  intros H. destruct (trim_sub s) as [k [n ->]].
  now apply no_lower_take, no_lower_drop.
Qed.

(** ** Single spacing *)

Lemma head_space_take n s : head_space (take n s) = true -> head_space s = true.
Proof. destruct n, s; simpl; congruence. Qed.

Lemma single_spaced_take n s : single_spaced s = true -> single_spaced (take n s) = true.
Proof.
  revert n. induction s as [|c s IH]; intros [|n]; simpl; try reflexivity.
  intros H. apply andb_prop in H as [H1 H2]. rewrite (IH n H2), andb_true_r.
  destruct (is_space c); [|reflexivity].
  apply andb_prop in H1 as [-> H1]. simpl.
  destruct (head_space (take n s)) eqn:E; [|reflexivity].
  apply head_space_take in E. now rewrite E in H1.
Qed.

Lemma single_spaced_drop k s : single_spaced s = true -> single_spaced (drop k s) = true.
Proof.
  revert k. induction s as [|c s IH]; intros [|k]; simpl; try reflexivity.
  - now intros H.
  - intros H. apply andb_prop in H as [_ H2]. now apply IH.
Qed.

Lemma single_spaced_trim s : single_spaced s = true -> single_spaced (trim s) = true.
Proof.
  intros H. destruct (trim_sub s) as [k [n ->]].
  now apply single_spaced_take, single_spaced_drop.
Qed.

(** ** The white-space pattern *)

Lemma match_at_whitespace pre s :
  match_at whitespace_run pre s =
  if 1 <=? length s - length (trimStart s) then Some (trimStart s) else None.
Proof.
  unfold match_at, whitespace_run, plus. cbn [source ignoreCase match_here].
  apply (rep_space_last false 1 (head pre) s).
Qed.

Lemma trimStart_length s : length (trimStart s) <= length s.
Proof. rewrite <- (skip_spaces_rest None). apply skip_spaces_length. Qed.

Lemma drop_leading_spaces s :
  drop (length s - length (trimStart s)) s = trimStart s.
Proof.
  induction s as [|c s IH]; [reflexivity|].
  cbn [trimStart]. destruct (is_space c).
  - pose proof (trimStart_length s) as Hlen. cbn [length].
    replace (S (length s) - length (trimStart s))
      with (S (length s - length (trimStart s))) by lia.
    exact IH.
  - now rewrite Nat.sub_diag.
Qed.

(** Passing over [k] characters leads to the same scan as starting
    after them. *)
Lemma replace_all_skip r template k s pre :
  k <= length s ->
  replace_all r template pre s k =
  replace_all r template (rev (take k s) ++ pre) (drop k s) 0.
Proof.
  revert s pre. induction k as [|k IH]; intros s pre Hk.
  - now rewrite take_0, drop_0.
  - destruct s as [|c s]; [simpl in Hk; lia|].
    cbn [replace_all take drop rev]. rewrite IH by (simpl in Hk; lia).
    now rewrite <- app_assoc.
Qed.

Lemma collapse_step_space pre c s :
  is_space c = true ->
  replace_all whitespace_run (js " ") pre (c :: s) 0 =
  " "%char :: replace_all whitespace_run (js " ")
                (rev (take (length s - length (trimStart s)) s) ++ c :: pre)
                (trimStart s) 0.
Proof.
  intros Hc. pose proof (trimStart_length s) as Hlen.
  assert (Hn : length (c :: s) - length (trimStart s) =
               S (length s - length (trimStart s))) by (cbn [length]; lia).
  assert (Hm : match_at whitespace_run pre (c :: s) = Some (trimStart s)).
  { rewrite match_at_whitespace. cbn [trimStart]. rewrite Hc, Hn. reflexivity. }
  cbn [replace_all]. rewrite Hm. cbv zeta. rewrite Hn.
  change (GetSubstitution _ (js " ")) with (js " ").
  cbn [app js list_ascii_of_string]. f_equal.
  rewrite replace_all_skip by lia. f_equal. apply drop_leading_spaces.
Qed.

Lemma collapse_step_other pre c s :
  is_space c = false ->
  replace_all whitespace_run (js " ") pre (c :: s) 0 =
  c :: replace_all whitespace_run (js " ") (c :: pre) s 0.
Proof.
  intros Hc. cbn [replace_all]. rewrite match_at_whitespace.
  cbn [trimStart]. rewrite Hc. now rewrite Nat.sub_diag.
Qed.

Lemma collapse_nil pre : replace_all whitespace_run (js " ") pre [] 0 = [].
Proof. reflexivity. Qed.

(** Collapsing white space yields a single-spaced text that starts with
    white space only if the text did. *)
Lemma collapse_single_spaced n s pre :
  length s <= n ->
  single_spaced (replace_all whitespace_run (js " ") pre s 0) = true /\
  head_space (replace_all whitespace_run (js " ") pre s 0) = head_space s.
Proof.
  revert s pre. induction n as [|n IH]; intros s pre Hn.
  - destruct s; [|simpl in Hn; lia]. rewrite collapse_nil. split; reflexivity.
  - destruct s as [|c s]; [rewrite collapse_nil; split; reflexivity|].
    simpl in Hn. destruct (is_space c) eqn:Hc.
    + rewrite collapse_step_space by exact Hc.
      pose proof (trimStart_length s) as Hlen.
      destruct (IH (trimStart s)
                   (rev (take (length s - length (trimStart s)) s) ++ c :: pre))
        as [H1 H2]; [lia|].
      cbn [single_spaced head_space]. rewrite H1, H2.
      change (is_space " ") with true. cbn iota. rewrite Hc.
      pose proof (trimStart_head s) as Hh.
      split; [|reflexivity]. rewrite char_eqb_refl, andb_true_r. cbn [andb].
      destruct (trimStart s) as [|d t]; [reflexivity|].
      cbn [head_space]. now rewrite Hh.
    + rewrite collapse_step_other by exact Hc.
      destruct (IH s (c :: pre)) as [H1 H2]; [lia|].
      cbn [single_spaced head_space]. rewrite Hc, H1. split; reflexivity.
Qed.

(** A single-spaced text is left as it is. *)
Lemma collapse_fixed s pre :
  single_spaced s = true -> replace_all whitespace_run (js " ") pre s 0 = s.
Proof.
  revert pre. induction s as [|c s IH]; intros pre; [reflexivity|].
  cbn [single_spaced]. intros H. apply andb_prop in H as [H1 H2].
  destruct (is_space c) eqn:Hc.
  - apply andb_prop in H1 as [Hsp Hh]. apply char_eqb_eq in Hsp. subst c.
    apply negb_true_iff in Hh. rewrite collapse_step_space by exact Hc.
    assert (Ht : trimStart s = s).
    { apply trimStart_fixed. destruct s; [exact I | exact Hh]. }
    rewrite Ht. f_equal. now apply IH.
  - rewrite collapse_step_other by exact Hc. f_equal. now apply IH.
Qed.

Lemma collapse_no_lower s pre skip :
  no_lower s = true ->
  no_lower (replace_all whitespace_run (js " ") pre s skip) = true.
Proof.
  revert pre skip. induction s as [|c s IH]; intros pre skip H.
  - destruct skip; [|reflexivity]. cbn [replace_all].
    now destruct (match_at whitespace_run pre []).
  - cbn [no_lower forallb] in H. apply andb_prop in H as [H1 H2].
    destruct skip as [|k]; cbn [replace_all]; [|now apply IH].
    destruct (match_at whitespace_run pre (c :: s)) as [rest|].
    + change (GetSubstitution _ (js " ")) with (js " ").
      destruct (length (c :: s) - length rest) as [|k].
      * cbn [app js list_ascii_of_string no_lower forallb].
        rewrite H1. change (negb (is_lower " ")) with true. cbn [andb].
        now apply IH.
      * cbn [app js list_ascii_of_string no_lower forallb].
        change (negb (is_lower " ")) with true. cbn [andb]. now apply IH.
    + cbn [no_lower forallb]. rewrite H1. now apply IH.
Qed.

(** ** The steps of the normalizer *)

Lemma strip_prefix_no_lower n p : no_lower n = true -> no_lower (strip_prefix n p) = true.
Proof.
  intros H. unfold strip_prefix, slice. destruct (startsWith n p); [|exact H].
  now apply no_lower_trim, no_lower_drop.
Qed.

Lemma strip_suffix_no_lower n suffix :
  no_lower n = true -> no_lower (strip_suffix n suffix) = true.
Proof.
  intros H. unfold strip_suffix, replace, suffix_regex. cbn [global].
  destruct (replace_first_to_end suffix true n) as [k ->].
  now apply no_lower_trim, no_lower_take.
Qed.

Lemma fold_no_lower {A : Type} (f : jsstring -> A -> jsstring) (l : list A) n :
  (forall m a, no_lower m = true -> no_lower (f m a) = true) ->
  no_lower n = true -> no_lower (fold_left f l n) = true.
Proof.
  intros Hf. revert n. induction l as [|a l IH]; intros n H; simpl; [exact H|].
  now apply IH, Hf.
Qed.

(** The text that reaches the collapsing step has no lower-case letter. *)
Lemma stripped_no_lower x :
  no_lower (fold_left strip_suffix MERCHANT_SUFFIXES
              (fold_left strip_prefix MERCHANT_PREFIXES (trim (toUpperCase x)))) = true.
Proof.
  apply fold_no_lower; [apply strip_suffix_no_lower|].
  apply fold_no_lower; [apply strip_prefix_no_lower|].
  apply no_lower_trim, toUpperCase_no_lower.
Qed.

Lemma remove_to_end_tidy re s :
  no_lower s = true -> single_spaced s = true ->
  tidy (trim (replace (RegExp.mk (re ++ [Eos]) false false) [] s)).
Proof.
  intros H1 H2. unfold replace. cbn [global].
  destruct (replace_first_to_end re false s) as [k ->].
  split; [now apply no_lower_trim, no_lower_take|].
  split; [now apply single_spaced_trim, single_spaced_take | apply trim_idem].
Qed.

(** One pass of the normalizer yields a tidy text. *)
Lemma normalizeMerchant_tidy x : tidy (normalizeMerchant x).
Proof.
  unfold normalizeMerchant. cbv zeta.
  pose proof (stripped_no_lower x) as Hs. revert Hs.
  generalize (fold_left strip_suffix MERCHANT_SUFFIXES
                (fold_left strip_prefix MERCHANT_PREFIXES (trim (toUpperCase x)))).
  intros s Hs.
  assert (Hw : tidy (trim (replace whitespace_run (js " ") s))).
  { unfold replace. change (global whitespace_run) with true. cbv iota.
    split; [now apply no_lower_trim, collapse_no_lower|]. split; [|apply trim_idem].
    apply single_spaced_trim.
    now destruct (collapse_single_spaced (length s) s [] (Nat.le_refl _)). }
  revert Hw. generalize (trim (replace whitespace_run (js " ") s)). intros w [Hw1 [Hw2 _]].
  assert (Ht : tidy (trim (replace trailing_id [] w))).
  { apply (remove_to_end_tidy [plus Space; atLeast 4 Digit]); assumption. }
  revert Ht. generalize (trim (replace trailing_id [] w)). intros t [Ht1 [Ht2 _]].
  apply (remove_to_end_tidy [plus Space; atLeast 2 AZ; plus Space; exactly 2 AZ]);
    assumption.
Qed.

(** ** A second pass *)

Lemma strip_prefixes_settled l y :
  forallb (fun p => negb (startsWith y p)) l = true -> fold_left strip_prefix l y = y.
Proof.
  induction l as [|p l IH]; simpl; [reflexivity|].
  intros H. apply andb_prop in H as [H1 H2]. apply negb_true_iff in H1.
  unfold strip_prefix at 2. rewrite H1. now apply IH.
Qed.

Lemma strip_suffixes_settled l y :
  trim y = y ->
  forallb (fun suffix => negb (test (suffix_regex suffix) y)) l = true ->
  fold_left strip_suffix l y = y.
Proof.
  intros Hy. induction l as [|suffix l IH]; simpl; [reflexivity|].
  intros H. apply andb_prop in H as [H1 H2]. apply negb_true_iff in H1.
  unfold strip_suffix at 2. unfold replace. cbn [global suffix_regex].
  fold (suffix_regex suffix).
  rewrite (replace_first_no_match _ _ _ H1), Hy. now apply IH.
Qed.

(** A tidy text on which nothing is left to strip is a fixed point. *)
Lemma tidy_settled_fixed y :
  tidy y -> settled y = true -> normalizeMerchant y = y.
Proof.
  intros [H1 [H2 H3]] Hs. unfold settled in Hs.
  apply andb_prop in Hs as [Hs Hc]. apply andb_prop in Hs as [Hs Ht].
  apply andb_prop in Hs as [Hp Hx].
  apply negb_true_iff in Hc, Ht.
  unfold normalizeMerchant. cbv zeta.
  rewrite (toUpperCase_fixed y H1), H3.
  rewrite (strip_prefixes_settled _ y Hp).
  rewrite (strip_suffixes_settled _ y H3 Hx).
  unfold replace at 3. change (global whitespace_run) with true. cbv iota.
  rewrite (collapse_fixed y [] H2), H3.
  unfold replace at 2. change (global trailing_id) with false. cbv iota.
  rewrite (replace_first_no_match _ _ _ Ht), H3.
  unfold replace. change (global city_state) with false. cbv iota.
  now rewrite (replace_first_no_match _ _ _ Hc), H3.
Qed.

End NormalizerFacts.

Import NormalizerFacts.

(** C4 as stated fails: the prefixes are stripped in one pass over the
    list, so "POS SQ *FOO" loses "POS " in the first application and
    "SQ *" only in the second. *)
Lemma normalizeMerchant_not_idempotent :
  normalizeMerchant (js "POS SQ *FOO") = js "SQ *FOO" /\
  normalizeMerchant (js "SQ *FOO") = js "FOO" /\
  normalizeMerchant (normalizeMerchant (js "POS SQ *FOO")) <>
    normalizeMerchant (js "POS SQ *FOO").
Proof.
  vm_compute. split; [reflexivity|]. split; [reflexivity|].
  intros H. discriminate H.
Qed.

(** C4 (amended).  [normalizeMerchant] is idempotent on every description
    whose normalized form is settled, that is, starts with none of the
    listed prefixes and matches none of the suffix patterns, the trailing
    number pattern or the city and state pattern: a second application then
    returns the normalized form unchanged. *)
Theorem normalizeMerchant_idempotent_when_settled (x : jsstring) :
  settled (normalizeMerchant x) = true ->
  normalizeMerchant (normalizeMerchant x) = normalizeMerchant x.
Proof.
  pose proof (normalizeMerchant_tidy x) as Ht. revert Ht.
  generalize (normalizeMerchant x). intros y Ht Hs.
  now apply tidy_settled_fixed.
Qed.

Lemma normalizeMerchant_idempotent_when_settled_witness :
  normalizeMerchant (normalizeMerchant (js "SQ *Joe's Coffee  #4521")) =
  normalizeMerchant (js "SQ *Joe's Coffee  #4521").
Proof.
  apply (normalizeMerchant_idempotent_when_settled (js "SQ *Joe's Coffee  #4521")).
  vm_compute. reflexivity.
Defined.

(* ================================================================== *)
(** * Retrieval layer                                                   *)
(* ================================================================== *)

Module RetrievalFacts.

Import Number VectorTypes.

(** ** Stable insertion sort *)

Section Sorting.

Context {A : Type}.
Variable before : A -> A -> bool.

Lemma insertBy_In a l x : In x (insertBy before a l) <-> x = a \/ In x l.
Proof.
  induction l as [|b l IH]; simpl; [intuition|].
  destruct (before a b); simpl; [intuition|].
  rewrite IH. intuition.
Qed.

Lemma sortBy_In l x : In x (sortBy before l) <-> In x l.
Proof.
  induction l as [|a l IH]; simpl; [reflexivity|].
  rewrite insertBy_In, IH. intuition.
Qed.

Lemma insertBy_length a l : length (insertBy before a l) = S (length l).
Proof.
  induction l as [|b l IH]; simpl; [reflexivity|].
  destruct (before a b); simpl; [reflexivity | now rewrite IH].
Qed.

Lemma sortBy_length l : length (sortBy before l) = length l.
Proof.
  induction l as [|a l IH]; simpl; [reflexivity|].
  now rewrite insertBy_length, IH.
Qed.

Variable P : A -> Prop.
Variable R : A -> A -> Prop.
Hypothesis before_true : forall a b, P a -> P b -> before a b = true -> R a b.
Hypothesis before_false : forall a b, P a -> P b -> before a b = false -> R b a.
Hypothesis R_trans : forall a b c, P a -> P b -> P c -> R a b -> R b c -> R a c.

Lemma insertBy_sorted a l :
  P a -> Forall P l -> StronglySorted R l -> StronglySorted R (insertBy before a l).
Proof.
  intros Pa Pl Hs. induction l as [|b l IH]; simpl.
  - constructor; constructor.
  - apply Forall_cons_iff in Pl as [Pb Pl].
    apply StronglySorted_inv in Hs as [Hs Hb].
    destruct (before a b) eqn:E.
    + constructor; [now constructor|].
      constructor; [now apply before_true|].
      rewrite List.Forall_forall in Hb, Pl |- *. intros x Hx.
      apply (R_trans a b x); auto.
    + constructor; [now apply IH|].
      rewrite List.Forall_forall in Hb |- *. intros x Hx.
      apply insertBy_In in Hx as [->|Hx]; [now apply before_false | now apply Hb].
Qed.

Lemma sortBy_sorted l : Forall P l -> StronglySorted R (sortBy before l).
Proof.
  induction l as [|a l IH]; intros Pl; simpl; [constructor|].
  apply Forall_cons_iff in Pl as [Pa Pl].
  apply insertBy_sorted; [exact Pa | | now apply IH].
  rewrite List.Forall_forall in Pl |- *. intros x Hx. apply Pl.
  apply (sortBy_In l x). exact Hx.
Qed.

End Sorting.

Lemma In_take_In {A : Type} n (l : list A) x : In x (take n l) -> In x l.
Proof.
  revert n. induction l as [|a l IH]; intros [|n]; simpl; try contradiction.
  intros [->|H]; [now left | right; now apply (IH n)].
Qed.

Lemma StronglySorted_take_n {A : Type} (R : A -> A -> Prop) n l :
  StronglySorted R l -> StronglySorted R (take n l).
Proof.
  intros Hs. revert n. induction Hs as [|a l Hs IH Ha]; intros [|n]; simpl;
    try constructor; [apply IH|].
  rewrite List.Forall_forall in Ha |- *. intros x Hx. apply Ha.
  now apply In_take_In in Hx.
Qed.

Lemma StronglySorted_filter {A : Type} (R : A -> A -> Prop) f l :
  StronglySorted R l -> StronglySorted R (List.filter f l).
Proof.
  intros Hs. induction Hs as [|a l Hs IH Ha]; simpl; [constructor|].
  destruct (f a); [|exact IH]. constructor; [exact IH|].
  rewrite List.Forall_forall in Ha |- *. intros x Hx. apply Ha.
  now apply filter_In in Hx.
Qed.

Lemma StronglySorted_map {A B : Type} (R : A -> A -> Prop) (S : B -> B -> Prop)
    (f : A -> B) l :
  (forall a b, R a b -> S (f a) (f b)) ->
  StronglySorted R l -> StronglySorted S (map f l).
Proof.
  intros Hf Hs. induction Hs as [|a l Hs IH Ha]; simpl; constructor; [exact IH|].
  rewrite List.Forall_forall in Ha |- *. intros y Hy.
  apply in_map_iff in Hy as [x [<- Hx]]. now apply Hf, Ha.
Qed.

Lemma DocumentType_eqb_eq a b : Schema.DocumentType_eqb a b = true <-> a = b.
Proof. destruct a, b; simpl; split; congruence. Qed.

(** A selected row belongs to the user and has one of the requested
    types, when a non-empty list of types is requested. *)
Lemma selected_sound userId types row :
  selected userId types row = true ->
  user_id row = userId /\
  forall t ts, types = Some (t :: ts) -> In (doc_type row) (t :: ts).
Proof.
  unfold selected. intros H. apply andb_prop in H as [H1 H2].
  apply str_eqb_eq in H1. split; [exact H1|].
  intros t ts ->. apply existsb_exists in H2 as [x [Hx Hx']].
  apply DocumentType_eqb_eq in Hx'. now subst x.
Qed.

Lemma geq_Num a b : geq a b = true -> exists x y, a = Num x /\ b = Num y /\ (y <= x)%Q.
Proof.
  destruct a as [|x], b as [|y]; simpl; try discriminate.
  intros H. apply Qle_bool_iff in H. now exists x, y.
Qed.

Lemma mapM_In {A B : Type} (f : A -> option B) l k y :
  mapM f l = Some k -> In y k -> exists x, In x l /\ f x = Some y.
Proof.
  intros H. apply mapM_Some_1 in H.
  induction H as [|x y' l k Hxy H IH]; simpl; [contradiction|].
  intros [<-|Hy]; [exists x; auto|].
  destruct (IH Hy) as [x' [Hx' Hf]]. exists x'. auto.
Qed.

Lemma In_sliceTo {A : Type} k (l : list A) x : In x (sliceTo k l) -> In x l.
Proof. unfold sliceTo. cbv zeta. apply In_take_In. Qed.

Lemma StronglySorted_sliceTo {A : Type} (R : A -> A -> Prop) k l :
  StronglySorted R l -> StronglySorted R (sliceTo k l).
Proof. unfold sliceTo. cbv zeta. apply StronglySorted_take_n. Qed.

(** A limit that is not negative is kept. *)
Lemma sliceTo_atMost {A : Type} k (l : list A) :
  geq k (Num 0) = true -> Spec.atMost (length (sliceTo k l)) k.
Proof.
  intros Hk. destruct (geq_Num _ _ Hk) as [q [z [-> [Hz Hq]]]].
  injection Hz as <-. unfold Spec.atMost, sliceTo, toIntegerOrInfinity. cbv zeta.
  assert (H0 : Qle_bool 0 q = true) by now apply Qle_bool_iff.
  rewrite H0.
  assert (Hf : (0 <= Qfloor q)%Z) by apply (Qfloor_resp_le 0 q Hq).
  destruct (Z.ltb_spec (Qfloor q) 0) as [Hneg|_]; [lia|].
  cbn [geq]. apply Qle_bool_iff.
  apply Qle_trans with (inject_Z (Qfloor q)); [|apply Qfloor_le].
  rewrite <- Zle_Qle, length_take. lia.
Qed.

(** ** Scan in the application *)

Lemma toResult_row cosine q row r :
  VectorStore.toResult cosine q row = Some r ->
  userId (document r) = user_id row /\ docType (document r) = doc_type row.
Proof.
  unfold VectorStore.toResult.
  destruct (VectorStore.cosineSimilarity cosine q (row_embedding row)); [|discriminate].
  intros H. injection H as <-. split; reflexivity.
Qed.

Lemma sort_descending threshold (results : list SearchResult) :
  Forall (fun r => geq (score r) threshold = true) results ->
  descending (sort (fun a b => sub (score b) (score a)) results).
Proof.
  intros H. unfold descending, sort.
  apply (sortBy_sorted _ (fun r => geq (score r) threshold = true)); [| | |exact H].
  - intros a b Ha Hb. destruct (geq_Num _ _ Ha) as [x [t [-> _]]].
    destruct (geq_Num _ _ Hb) as [y [t' [-> _]]]. simpl.
    rewrite !Qle_bool_iff. intros Hle. lra.
  - intros a b Ha Hb. destruct (geq_Num _ _ Ha) as [x [t [-> _]]].
    destruct (geq_Num _ _ Hb) as [y [t' [-> _]]]. simpl.
    intros Hle. apply Qle_bool_iff.
    destruct (Qlt_le_dec x y) as [Hlt|Hge]; [lra|].
    assert (Qle_bool (y - x) 0 = true) by (apply Qle_bool_iff; lra). congruence.
  - intros a b c Ha Hb Hc. destruct (geq_Num _ _ Ha) as [x [t [-> _]]].
    destruct (geq_Num _ _ Hb) as [y [t' [-> _]]].
    destruct (geq_Num _ _ Hc) as [z [t'' [-> _]]]. simpl.
    rewrite !Qle_bool_iff. intros. lra.
Qed.

Lemma sqlite_search_selects embedText cosine table user query options results :
  VectorStore.searchSimilar embedText cosine table user query options = Some results ->
  Spec.selects user options results.
Proof.
  unfold VectorStore.searchSimilar. cbv zeta.
  destruct (embedText query) as [q|]; [|discriminate].
  destruct (mapM _ _) as [scored|] eqn:E; [|discriminate].
  intros H. injection H as <-.
  set (kept := List.filter _ scored).
  assert (Hkept : forall r, In r kept ->
            In r scored /\
            geq (score r) (default defaultMinScore (minScore options)) = true).
  { intros r Hr. now apply filter_In in Hr. }
  assert (Hrow : forall r, In r scored ->
            exists row, selected user (docTypes options) row = true /\
                        userId (document r) = user_id row /\
                        docType (document r) = doc_type row).
  { intros r Hr. destruct (mapM_In _ _ _ _ E Hr) as [row [Hin Hf]].
    apply filter_In in Hin as [_ Hsel]. exists row. split; [exact Hsel|].
    now apply toResult_row in Hf. }
  unfold Spec.selects. split; [|split; [|split]].
  - intros r Hr. apply In_sliceTo, sortBy_In, Hkept in Hr as [Hr _].
    destruct (Hrow r Hr) as [row [Hsel [-> _]]]. now apply selected_sound in Hsel.
  - intros t ts Ht r Hr. apply In_sliceTo, sortBy_In, Hkept in Hr as [Hr _].
    destruct (Hrow r Hr) as [row [Hsel [_ ->]]].
    apply selected_sound in Hsel as [_ Hsel]. now apply Hsel.
  - intros r Hr. now apply In_sliceTo, sortBy_In, Hkept in Hr.
  - apply StronglySorted_sliceTo.
    apply (sort_descending (default defaultMinScore (minScore options))).
    apply List.Forall_forall. intros r Hr. now apply Hkept.
Qed.

Lemma sqlite_search_atMost embedText cosine table user query options results :
  VectorStore.searchSimilar embedText cosine table user query options = Some results ->
  geq (default defaultTopK (topK options)) (Num 0) = true ->
  Spec.atMost (length results) (default defaultTopK (topK options)).
Proof.
  unfold VectorStore.searchSimilar. cbv zeta.
  destruct (embedText query) as [q|]; [|discriminate].
  destruct (mapM _ _) as [scored|]; [|discriminate].
  intros H Hk. injection H as <-. now apply sliceTo_atMost.
Qed.

Lemma sqlite_search_returns embedText cosine table user query options q :
  embedText query = Some q ->
  (forall row, In row table -> length (row_embedding row) = length q) ->
  exists results,
    VectorStore.searchSimilar embedText cosine table user query options = Some results.
Proof.
  intros Hq Hlen. unfold VectorStore.searchSimilar. cbv zeta. rewrite Hq.
  destruct (mapM _ _) as [scored|] eqn:E; [eauto|].
  exfalso.
  assert (Hs : is_Some (mapM (VectorStore.toResult cosine q)
                          (List.filter (selected user (docTypes options)) table))).
  { apply mapM_is_Some_2. apply Forall_forall. intros row Hrow.
    apply list_elem_of_In, filter_In in Hrow as [Hrow _].
    unfold compose, VectorStore.toResult, VectorStore.cosineSimilarity.
    rewrite (Hlen row Hrow), Nat.eqb_refl. eauto. }
  rewrite E in Hs. now destruct Hs.
Qed.

End RetrievalFacts.

Import Number VectorTypes RetrievalFacts.

(** C9 as stated fails: an empty [docTypes] list is given, no document
    type belongs to it, and the search still returns a document of the
    user. *)
Lemma empty_docTypes_is_no_filter :
  let options := mkOptions (Some (Num 1)) (Some []) (Some (Num (1 # 2))) in
  VectorStore.searchSimilar sampleEmbed sampleCosine sampleTable (js "user_42")
                            (js "coffee") options =
    Some [mkSearchResult
            (mkDocument 1 (js "user_42") Schema.transaction (js "17")
                        (js "expense at STARBUCKS") [Num (9 # 10)] (js "{}"))
            (Num (9 # 10))] /\
  ~ In Schema.transaction [].
Proof. split; [vm_compute; reflexivity | intros []]. Qed.

(** It fails on the count as well: with [topK] -1, [slice(0, -1)] keeps
    all the results but the last, here two of three. *)
Lemma negative_topK_is_no_limit :
  let options := mkOptions (Some (Num (-1 # 1))) None (Some (Num 0)) in
  exists results,
    VectorStore.searchSimilar sampleEmbed sampleCosine sampleTable (js "user_42")
                              (js "coffee") options = Some results /\
    length results = 2 /\
    ~ Spec.atMost (length results) (Num (-1 # 1)).
Proof.
  eexists. split; [vm_compute; reflexivity|]. split; [reflexivity|].
  vm_compute. discriminate.
Qed.

(** The pgvector search of the sources returns on no call. *)
Lemma pgvector_search_never_returns embedText user query options :
  PgVectorStore.searchSimilar embedText user query options = None.
Proof. unfold PgVectorStore.searchSimilar. now destruct (embedText query). Qed.

(** C9 (amended).  Whatever the search of the SQLite store (cosine
    similarity computed by the application) returns contains only
    documents of the given user, only documents of the requested types when
    [docTypes] is given and not empty, no result with a score below
    [minScore], and is in descending order of score; and it has at most
    [topK] elements when [topK] is absent or not negative.  The search
    returns whenever the query can be embedded and the stored vectors have
    the length of the query vector. *)
Theorem searchSimilar_contract
    (embedText : jsstring -> option (list number))
    (cosine : list number -> list number -> number)
    (table : list Row) (user query : jsstring) (options : SearchOptions) :
  (forall results,
     VectorStore.searchSimilar embedText cosine table user query options = Some results ->
     selects user options results /\
     (geq (default defaultTopK (topK options)) (Num 0) = true ->
      meets user options results)) /\
  (forall q, embedText query = Some q ->
     (forall row, In row table -> length (row_embedding row) = length q) ->
     exists results,
       VectorStore.searchSimilar embedText cosine table user query options =
         Some results).
Proof.
  split.
  - intros results H.
    pose proof (sqlite_search_selects _ _ _ _ _ _ _ H) as Hsel.
    split; [exact Hsel|]. intros Hk. split; [exact Hsel|].
    now apply (sqlite_search_atMost _ _ _ _ _ _ _ H).
  - intros q Hq Hlen. now apply (sqlite_search_returns _ _ _ _ _ _ q).
Qed.

Lemma searchSimilar_contract_witness :
  meets (js "user_42")
        (mkOptions (Some (Num 2)) (Some [Schema.transaction; Schema.schema]) None)
        [mkSearchResult
           (mkDocument 1 (js "user_42") Schema.transaction (js "17")
                       (js "expense at STARBUCKS") [Num (9 # 10)] (js "{}"))
           (Num (9 # 10));
         mkSearchResult
           (mkDocument 3 (js "user_42") Schema.schema (js "1")
                       (js "TABLE transactions") [Num (7 # 10)] (js "{}"))
           (Num (7 # 10))].
Proof.
  apply (proj2 (proj1 (searchSimilar_contract sampleEmbed sampleCosine
                         sampleTable (js "user_42") (js "coffee")
                         (mkOptions (Some (Num 2))
                                    (Some [Schema.transaction; Schema.schema]) None))
                      _ ltac:(vm_compute; reflexivity))).
  reflexivity.
Defined.

(* ================================================================== *)
(** * Batch categorization                                              *)
(* ================================================================== *)

Module BatchFacts.

(** ** Arrays with holes *)

Section Arrays.

Context {A : Type}.
Implicit Types (arr : list (option A)) (x : A) (i j : nat).

Lemma array_set_length arr i x :
  length (array_set arr i x) = Nat.max (length arr) (S i).
Proof.
  unfold array_set. destruct (Nat.ltb_spec i (length arr)).
  - rewrite length_insert. lia.
  - rewrite !length_app, length_replicate. simpl. lia.
Qed.

Lemma array_get_set_eq arr i x : array_get (array_set arr i x) i = Some x.
Proof.
  unfold array_get, array_set. destruct (Nat.ltb_spec i (length arr)).
  - now rewrite list_lookup_insert_eq.
  - rewrite lookup_app_r by lia. rewrite lookup_app_r by (rewrite length_replicate; lia).
    rewrite length_replicate, Nat.sub_diag. reflexivity.
Qed.

Lemma array_get_set_ne arr i j x :
  i <> j -> array_get (array_set arr i x) j = array_get arr j.
Proof.
  intros Hij. unfold array_get, array_set. destruct (Nat.ltb_spec i (length arr)).
  - now rewrite list_lookup_insert_ne.
  - destruct (Nat.lt_ge_cases j (length arr)).
    + now rewrite lookup_app_l.
    + rewrite (lookup_ge_None_2 arr j) by lia.
      rewrite lookup_app_r by lia.
      destruct (Nat.lt_ge_cases (j - length arr) (i - length arr)).
      * rewrite lookup_app_l by (rewrite length_replicate; lia).
        rewrite lookup_replicate_2 by lia. reflexivity.
      * rewrite lookup_app_r by (rewrite length_replicate; lia).
        rewrite length_replicate.
        destruct (j - length arr - (i - length arr)) as [|k] eqn:E; [lia|].
        reflexivity.
Qed.

Lemma array_get_length arr i x : array_get arr i = Some x -> i < length arr.
Proof.
  unfold array_get. destruct (arr !! i) eqn:E; [|discriminate].
  intros _. now apply lookup_lt_Some in E.
Qed.

Lemma array_get_lookup arr i x : array_get arr i = Some x <-> arr !! i = Some (Some x).
Proof.
  unfold array_get. destruct (arr !! i) as [[y|]|]; simpl; split; congruence.
Qed.

(** A sequence of assignments [arr[i] = x]. *)
Definition assign (writes : list (nat * A)) arr : list (option A) :=
  fold_left (fun a w => array_set a (fst w) (snd w)) writes arr.

Lemma assign_cons w ws arr :
  assign (w :: ws) arr = assign ws (array_set arr (fst w) (snd w)).
Proof. reflexivity. Qed.

Lemma assign_app ws1 ws2 arr : assign (ws1 ++ ws2) arr = assign ws2 (assign ws1 arr).
Proof. apply fold_left_app. Qed.

Lemma assign_length ws arr n :
  Forall (fun w => fst w < n) ws -> length arr <= n -> length (assign ws arr) <= n.
Proof.
  revert arr. induction ws as [|w ws IH]; intros arr Hws Harr; simpl; [exact Harr|].
  apply Forall_cons_iff in Hws as [Hw Hws]. apply IH; [exact Hws|].
  rewrite array_set_length. lia.
Qed.

Lemma assign_untouched ws arr j :
  ~ In j (map fst ws) -> array_get (assign ws arr) j = array_get arr j.
Proof.
  revert arr. induction ws as [|w ws IH]; intros arr Hj; simpl; [reflexivity|].
  simpl in Hj. rewrite IH by tauto. apply array_get_set_ne. tauto.
Qed.

Lemma assign_defined ws arr j :
  is_Some (array_get arr j) -> is_Some (array_get (assign ws arr) j).
Proof.
  revert arr. induction ws as [|w ws IH]; intros arr Hj; simpl; [exact Hj|].
  apply IH. destruct (Nat.eq_dec (fst w) j) as [<-|Hne].
  - rewrite array_get_set_eq. eauto.
  - now rewrite array_get_set_ne.
Qed.

Lemma assign_written ws arr j :
  In j (map fst ws) -> is_Some (array_get (assign ws arr) j).
Proof.
  revert arr. induction ws as [|w ws IH]; intros arr; simpl; [contradiction|].
  intros [<-|Hj].
  - apply assign_defined. rewrite array_get_set_eq. eauto.
  - now apply IH.
Qed.

(** With distinct indices every assignment is still there at the end. *)
Lemma assign_value ws arr i x :
  List.NoDup (map fst ws) -> In (i, x) ws -> array_get (assign ws arr) i = Some x.
Proof.
  revert arr. induction ws as [|w ws IH]; intros arr Hnd; simpl; [contradiction|].
  simpl in Hnd. apply List.NoDup_cons_iff in Hnd as [Hw Hnd].
  intros [->|Hin].
  - simpl in *. rewrite assign_untouched by exact Hw. apply array_get_set_eq.
  - now apply IH.
Qed.

End Arrays.

(** ** The passes as sequences of assignments *)

Section Passes.

Variable OPENAI_API_KEY : option jsstring.
Variable chat : ChatRequest -> ChatResponse.
Variable JSON_parse : jsstring -> option JSON.

Abbreviation Results := (list (option CategorizationResult)).

Definition fallbackWrite (item : AIItem) : nat * CategorizationResult :=
  (index item, fallbackResult (normalized item)).

Definition fallbackWrites (items : list AIItem) : list (nat * CategorizationResult) :=
  map fallbackWrite items.

Lemma fillFallback_assign (results : Results) items :
  fillFallback results items = assign (fallbackWrites items) results.
Proof.
  unfold fillFallback, assign, fallbackWrites.
  revert results. induction items as [|item items IH]; intros results; simpl;
    [reflexivity | apply IH].
Qed.

Lemma fallbackWrites_indices items : map fst (fallbackWrites items) = map index items.
Proof. unfold fallbackWrites. rewrite map_map. reflexivity. Qed.

(** The assignments of the loop over a parsed reply, and whether the
    loop throws. *)
Fixpoint categoryWrites (categories : JSON) (batch : list AIItem) (j : nat)
  : list (nat * CategorizationResult) :=
  match batch with
  | [] => []
  | item :: rest =>
      match property categories j with
      | TypeError => []
      | a => (index item, aiResult (checkedCategory a) (normalized item))
               :: categoryWrites categories rest (S j)
      end
  end.

Fixpoint categoryThrows (categories : JSON) (batch : list AIItem) (j : nat) : bool :=
  match batch with
  | [] => false
  | item :: rest =>
      match property categories j with
      | TypeError => true
      | _ => categoryThrows categories rest (S j)
      end
  end.

Lemma assignCategories_assign categories batch j (results : Results) :
  assignCategories categories batch j results =
  (assign (categoryWrites categories batch j) results, categoryThrows categories batch j).
Proof.
  revert j results. induction batch as [|item rest IH]; intros j results; simpl;
    [reflexivity|].
  destruct (property categories j); [reflexivity | apply IH | apply IH].
Qed.

Lemma categoryWrites_indices categories batch j i :
  In i (map fst (categoryWrites categories batch j)) -> In i (map index batch).
Proof.
  revert j. induction batch as [|item rest IH]; intros j; simpl; [tauto|].
  destruct (property categories j); simpl; [tauto | |];
    (intros [H|H]; [now left | right; now apply (IH (S j))]).
Qed.

Lemma categoryWrites_all categories batch j :
  categoryThrows categories batch j = false ->
  map fst (categoryWrites categories batch j) = map index batch.
Proof.
  revert j. induction batch as [|item rest IH]; intros j; simpl; [reflexivity|].
  destruct (property categories j); simpl; [discriminate | |];
    (intros H; f_equal; now apply IH).
Qed.

(** The assignments of the inner [try] and [catch] on one response. *)
Definition responseWrites (contents : list (option jsstring)) (batch : list AIItem)
  : list (nat * CategorizationResult) :=
  match contents with
  | [] => fallbackWrites batch
  | content :: _ =>
      match JSON_parse (contentOrEmptyArray content) with
      | None => fallbackWrites batch
      | Some categories =>
          categoryWrites categories batch 0 ++
          (if categoryThrows categories batch 0 then fallbackWrites batch else [])
      end
  end.

Lemma handleResponse_assign contents batch (results : Results) :
  handleResponse JSON_parse contents batch results =
  assign (responseWrites contents batch) results.
Proof.
  unfold handleResponse, responseWrites.
  destruct contents as [|content others]; [apply fillFallback_assign|].
  destruct (JSON_parse (contentOrEmptyArray content)) as [categories|];
    [|apply fillFallback_assign].
  rewrite assignCategories_assign, assign_app.
  destruct (categoryThrows categories batch 0); [apply fillFallback_assign | reflexivity].
Qed.

Lemma responseWrites_indices contents batch i :
  In i (map fst (responseWrites contents batch)) <-> In i (map index batch).
Proof.
  unfold responseWrites.
  destruct contents as [|content others]; [now rewrite fallbackWrites_indices|].
  destruct (JSON_parse (contentOrEmptyArray content)) as [categories|];
    [|now rewrite fallbackWrites_indices].
  rewrite map_app, in_app_iff.
  destruct (categoryThrows categories batch 0) eqn:E.
  - rewrite fallbackWrites_indices. split; [|tauto].
    intros [H|H]; [now apply categoryWrites_indices in H | exact H].
  - rewrite (categoryWrites_all _ _ _ E). simpl. tauto.
Qed.

(** The assignments of the loop over the batches, and whether a call to
    the hosted model throws. *)
Fixpoint loopWrites (bs : list (list AIItem)) : list (nat * CategorizationResult) :=
  match bs with
  | [] => []
  | batch :: rest =>
      match chat (BatchItems (map normalized batch)) with
      | Throws => []
      | Choices contents => responseWrites contents batch ++ loopWrites rest
      end
  end.

Fixpoint loopThrows (bs : list (list AIItem)) : bool :=
  match bs with
  | [] => false
  | batch :: rest =>
      match chat (BatchItems (map normalized batch)) with
      | Throws => true
      | Choices _ => loopThrows rest
      end
  end.

Lemma batchLoop_assign bs (results : Results) :
  batchLoop chat JSON_parse bs results = (assign (loopWrites bs) results, loopThrows bs).
Proof.
  revert results. induction bs as [|batch rest IH]; intros results; simpl;
    [reflexivity|].
  destruct (chat (BatchItems (map normalized batch))); [reflexivity|].
  rewrite IH, handleResponse_assign, assign_app. reflexivity.
Qed.

Lemma loopWrites_indices bs i :
  In i (map fst (loopWrites bs)) -> In i (map index (concat bs)).
Proof.
  induction bs as [|batch rest IH]; simpl; [tauto|].
  rewrite map_app, in_app_iff.
  destruct (chat (BatchItems (map normalized batch))); simpl; [tauto|].
  rewrite map_app, in_app_iff, responseWrites_indices. tauto.
Qed.

Lemma loopWrites_all bs i :
  loopThrows bs = false ->
  In i (map index (concat bs)) -> In i (map fst (loopWrites bs)).
Proof.
  induction bs as [|batch rest IH]; simpl; [tauto|].
  rewrite map_app, in_app_iff.
  destruct (chat (BatchItems (map normalized batch))); [discriminate|].
  intros H. rewrite map_app, in_app_iff, responseWrites_indices. tauto.
Qed.

(** A call that throws ends the loop: only the batches before it have
    been written. *)
Lemma loopWrites_throw pre b post i :
  chat (BatchItems (map normalized b)) = Throws ->
  In i (map fst (loopWrites (pre ++ b :: post))) -> In i (map index (concat pre)).
Proof.
  intros Hb. induction pre as [|b0 pre IH]; simpl.
  - rewrite Hb. simpl. tauto.
  - rewrite map_app, in_app_iff.
    destruct (chat (BatchItems (map normalized b0))); simpl; [tauto|].
    rewrite map_app, in_app_iff, responseWrites_indices. tauto.
Qed.

Lemma loopThrows_throw pre b post :
  chat (BatchItems (map normalized b)) = Throws -> loopThrows (pre ++ b :: post) = true.
Proof.
  intros Hb. induction pre as [|b0 pre IH]; simpl; [now rewrite Hb|].
  now destruct (chat (BatchItems (map normalized b0))).
Qed.

(** The assignments of the outer [catch]. *)
Fixpoint missingWrites (results : Results) (items : list AIItem)
  : list (nat * CategorizationResult) :=
  match items with
  | [] => []
  | item :: rest =>
      match array_get results (index item) with
      | Some _ => missingWrites results rest
      | None =>
          fallbackWrite item
            :: missingWrites (array_set results (index item)
                                        (fallbackResult (normalized item))) rest
      end
  end.

Lemma fillMissing_assign (results : Results) items :
  fillMissing results items = assign (missingWrites results items) results.
Proof.
  unfold fillMissing, assign.
  revert results. induction items as [|item items IH]; intros results; simpl;
    [reflexivity|].
  destruct (array_get results (index item)); apply IH.
Qed.

Lemma missingWrites_In (results : Results) items w :
  In w (missingWrites results items) ->
  exists item, In item items /\ w = fallbackWrite item /\
               array_get results (index item) = None.
Proof.
  revert results. induction items as [|item items IH]; intros results; simpl;
    [tauto|].
  destruct (array_get results (index item)) eqn:E.
  - intros H. destruct (IH _ H) as [it [H1 [H2 H3]]]. exists it. tauto.
  - intros [<-|H]; [exists item; tauto|].
    destruct (IH _ H) as [it [H1 [H2 H3]]]. exists it.
    split; [tauto|]. split; [exact H2|].
    destruct (Nat.eq_dec (index item) (index it)) as [Heq|Hne].
    + rewrite <- Heq, array_get_set_eq in H3. discriminate.
    + now rewrite array_get_set_ne in H3.
Qed.

Lemma missingWrites_indices (results : Results) items i :
  In i (map fst (missingWrites results items)) ->
  In i (map index items) /\ array_get results i = None.
Proof.
  intros H. apply in_map_iff in H as [w [<- Hw]].
  destruct (missingWrites_In _ _ _ Hw) as [item [H1 [-> H3]]].
  split; [exact (in_map index items item H1) | exact H3].
Qed.

(** After the outer [catch] every item has a result. *)
Lemma fillMissing_written (results : Results) items item :
  In item items -> is_Some (array_get (fillMissing results items) (index item)).
Proof.
  rewrite fillMissing_assign.
  revert results. induction items as [|it items IH]; intros results; simpl; [tauto|].
  destruct (array_get results (index it)) eqn:E.
  - intros [<-|Hin]; [|now apply IH].
    apply assign_defined. rewrite E. eauto.
  - rewrite assign_cons. cbn [fallbackWrite fst snd].
    intros [<-|Hin]; [|now apply IH].
    apply assign_defined. rewrite array_get_set_eq. eauto.
Qed.

End Passes.

(** ** The first pass *)

(** The descriptions left to the hosted model, with their positions. *)
Fixpoint pending (rules : list Schema.CategoryRule) (i : nat) (ds : list jsstring)
  : list AIItem :=
  match ds with
  | [] => []
  | d :: rest =>
      match categorizeByPattern rules d with
      | Some _ => pending rules (S i) rest
      | None => mkItem i d (normalizeMerchant d) :: pending rules (S i) rest
      end
  end.

(** The results of the pattern matching, with their positions. *)
Fixpoint patternWrites (rules : list Schema.CategoryRule) (i : nat) (ds : list jsstring)
  : list (nat * CategorizationResult) :=
  match ds with
  | [] => []
  | d :: rest =>
      match categorizeByPattern rules d with
      | Some r => (i, r) :: patternWrites rules (S i) rest
      | None => patternWrites rules (S i) rest
      end
  end.

Lemma firstPass_eq rules ds i results needsAI :
  firstPass rules ds i results needsAI =
  (assign (patternWrites rules i ds) results, needsAI ++ pending rules i ds).
Proof.
  revert i results needsAI.
  induction ds as [|d ds IH]; intros i results needsAI; simpl.
  - now rewrite app_nil_r.
  - destruct (categorizeByPattern rules d); rewrite IH; [reflexivity|].
    now rewrite <- app_assoc.
Qed.

Lemma pending_In rules i ds item :
  In item (pending rules i ds) ->
  i <= index item /\ ds !! (index item - i) = Some (description item) /\
  normalized item = normalizeMerchant (description item) /\
  categorizeByPattern rules (description item) = None.
Proof.
  revert i. induction ds as [|d ds IH]; intros i; simpl; [tauto|].
  assert (Hrest : In item (pending rules (S i) ds) ->
                  i <= index item /\
                  (d :: ds) !! (index item - i) = Some (description item) /\
                  normalized item = normalizeMerchant (description item) /\
                  categorizeByPattern rules (description item) = None).
  { intros H. apply IH in H as [H1 [H2 H3]]. split; [lia|]. split; [|exact H3].
    replace (index item - i) with (S (index item - S i)) by lia. exact H2. }
  destruct (categorizeByPattern rules d) eqn:E; [exact Hrest|].
  intros [<-|H]; [|now apply Hrest]. simpl.
  rewrite Nat.sub_diag. repeat split; auto.
Qed.

Lemma pending_bound rules i ds item :
  In item (pending rules i ds) -> index item < i + length ds.
Proof.
  intros H. apply pending_In in H as [H1 [H2 _]].
  apply lookup_lt_Some in H2. lia.
Qed.

Lemma pending_NoDup rules i ds : List.NoDup (map index (pending rules i ds)).
Proof.
  revert i. induction ds as [|d ds IH]; intros i; simpl; [constructor|].
  destruct (categorizeByPattern rules d); [apply IH|].
  simpl. constructor; [|apply IH].
  intros H. apply in_map_iff in H as [item [Hi Hin]].
  apply pending_In in Hin as [Hle _]. simpl in *. lia.
Qed.

Lemma patternWrites_In rules i ds j r :
  In (j, r) (patternWrites rules i ds) ->
  i <= j /\ exists d, ds !! (j - i) = Some d /\ categorizeByPattern rules d = Some r.
Proof.
  revert i. induction ds as [|d ds IH]; intros i; simpl; [tauto|].
  assert (Hrest : In (j, r) (patternWrites rules (S i) ds) ->
                  i <= j /\ exists d', (d :: ds) !! (j - i) = Some d' /\
                                       categorizeByPattern rules d' = Some r).
  { intros H. apply IH in H as [H1 [d' [H2 H3]]]. split; [lia|]. exists d'.
    split; [|exact H3]. replace (j - i) with (S (j - S i)) by lia. exact H2. }
  destruct (categorizeByPattern rules d) eqn:E; [|exact Hrest].
  intros [H|H]; [|now apply Hrest]. injection H as -> ->.
  split; [lia|]. exists d. now rewrite Nat.sub_diag.
Qed.

Lemma patternWrites_bound rules i ds :
  Forall (fun w => fst w < i + length ds) (patternWrites rules i ds).
Proof.
  apply List.Forall_forall. intros [j r] H.
  apply patternWrites_In in H as [H1 [d [H2 _]]].
  apply lookup_lt_Some in H2. simpl. lia.
Qed.

Lemma patternWrites_NoDup rules i ds : List.NoDup (map fst (patternWrites rules i ds)).
Proof.
  revert i. induction ds as [|d ds IH]; intros i; simpl; [constructor|].
  destruct (categorizeByPattern rules d); [|apply IH].
  simpl. constructor; [|apply IH].
  intros H. apply in_map_iff in H as [[j r] [Hj Hin]].
  apply patternWrites_In in Hin as [Hle _]. simpl in *. lia.
Qed.

(** Every description is settled by the patterns or left pending. *)
Lemma firstPass_cover rules i ds k d :
  ds !! k = Some d ->
  (exists r, categorizeByPattern rules d = Some r /\
             In (i + k, r) (patternWrites rules i ds)) \/
  (categorizeByPattern rules d = None /\
   In (mkItem (i + k) d (normalizeMerchant d)) (pending rules i ds)).
Proof.
  revert i k. induction ds as [|d0 ds IH]; intros i k; [discriminate|].
  destruct k as [|k]; simpl.
  - intros H. injection H as ->. rewrite Nat.add_0_r.
    destruct (categorizeByPattern rules d) as [r|] eqn:E.
    + left. exists r. split; [reflexivity | now left].
    + right. split; [reflexivity | now left].
  - intros H. replace (i + S k) with (S i + k) by lia.
    destruct (IH (S i) k H) as [[r [H1 H2]]|[H1 H2]].
    + left. exists r. split; [exact H1|].
      destruct (categorizeByPattern rules d0); [now right | exact H2].
    + right. split; [exact H1|].
      destruct (categorizeByPattern rules d0); [exact H2 | now right].
Qed.

(** A pending position holds no pattern result. *)
Lemma pending_not_written rules i ds item :
  In item (pending rules i ds) -> ~ In (index item) (map fst (patternWrites rules i ds)).
Proof.
  intros Hp Hw. apply in_map_iff in Hw as [[j r] [Hj Hw]]. simpl in Hj. subst j.
  apply patternWrites_In in Hw as [_ [d [H1 H2]]].
  apply pending_In in Hp as [_ [H3 [_ H4]]]. congruence.
Qed.

(** ** The batches *)

Lemma slices_concat {A : Type} fuel size (l : list A) :
  0 < size -> length l <= fuel -> concat (slices fuel size l) = l.
Proof.
  intros Hsize. revert l. induction fuel as [|fuel IH]; intros l Hl.
  - destruct l; [reflexivity | simpl in Hl; lia].
  - destruct l as [|x l]; [reflexivity|].
    change (slices (S fuel) size (x :: l))
      with (take size (x :: l) :: slices fuel size (drop size (x :: l))).
    cbn [concat]. rewrite IH; [apply take_drop|].
    rewrite length_drop. simpl in *. lia.
Qed.

Lemma batches_concat {A : Type} (l : list A) : concat (batches l) = l.
Proof. apply slices_concat; [unfold batchSize; lia | lia]. Qed.

Lemma slices_size {A : Type} fuel size (l : list A) b :
  In b (slices fuel size l) -> length b <= size.
Proof.
  revert l. induction fuel as [|fuel IH]; intros l; simpl; [tauto|].
  destruct l as [|x l]; [simpl; tauto|].
  intros [<-|H]; [rewrite length_take; lia | now apply IH in H].
Qed.

Lemma NoDup_app_disjoint {A : Type} (l1 l2 : list A) x :
  List.NoDup (l1 ++ l2) -> In x l1 -> In x l2 -> False.
Proof.
  induction l1 as [|a l1 IH]; simpl; [tauto|].
  intros H. apply List.NoDup_cons_iff in H as [Ha H].
  intros [->|H1] H2; [|now apply IH].
  apply Ha, in_app_iff. now right.
Qed.

Lemma NoDup_concat_In {A B : Type} (f : A -> B) (bs : list (list A)) b :
  List.NoDup (map f (concat bs)) -> In b bs -> List.NoDup (map f b).
Proof.
  induction bs as [|b0 bs IH]; simpl; [tauto|].
  rewrite map_app. intros H [->|Hb].
  - now apply NoDup_app_remove_r in H.
  - apply IH; [|exact Hb]. now apply NoDup_app_remove_l in H.
Qed.

(** ** The second pass *)

Section SecondPass.

Variable OPENAI_API_KEY : option jsstring.
Variable chat : ChatRequest -> ChatResponse.
Variable JSON_parse : jsstring -> option JSON.

Abbreviation Results := (list (option CategorizationResult)).

Lemma fallback_value items (results : Results) item :
  List.NoDup (map index items) -> In item items ->
  array_get (assign (fallbackWrites items) results) (index item) =
    Some (fallbackResult (normalized item)).
Proof.
  intros Hnd Hin. apply assign_value.
  - now rewrite fallbackWrites_indices.
  - exact (in_map fallbackWrite items item Hin).
Qed.

(** The outer [catch] keeps what is there and fills the holes. *)
Lemma fillMissing_kept (results : Results) items j :
  is_Some (array_get results j) ->
  array_get (fillMissing results items) j = array_get results j.
Proof.
  intros Hj. rewrite fillMissing_assign. apply assign_untouched.
  intros H. apply missingWrites_indices in H as [_ H]. rewrite H in Hj.
  now destruct Hj.
Qed.

Lemma fillMissing_value (results : Results) items item :
  List.NoDup (map index items) -> In item items ->
  array_get results (index item) = None ->
  array_get (fillMissing results items) (index item) =
    Some (fallbackResult (normalized item)).
Proof.
  revert results. induction items as [|it items IH]; intros results Hnd; [simpl; tauto|].
  cbn [map] in Hnd. apply List.NoDup_cons_iff in Hnd as [Hit Hnd].
  intros [->|Hin] Hnone.
  - unfold fillMissing. cbn [fold_left]. rewrite Hnone.
    fold (fillMissing (array_set results (index item)
                                 (fallbackResult (normalized item))) items).
    rewrite fillMissing_kept; rewrite array_get_set_eq; eauto.
  - assert (Hne : index it <> index item).
    { intros E. apply Hit. rewrite E. now apply in_map. }
    unfold fillMissing. cbn [fold_left].
    destruct (array_get results (index it)).
    + now apply IH.
    + apply IH; [exact Hnd | exact Hin|]. now rewrite array_get_set_ne.
Qed.

(** What the loop over the batches leaves at the position of an item,
    given what the handling of the item's own batch leaves there: that
    value, or nothing new when a call threw before the batch was reached. *)
Lemma loop_item bs (results : Results) b item v :
  List.NoDup (map index (concat bs)) -> In b bs -> In item b ->
  (forall contents r0, chat (BatchItems (map normalized b)) = Choices contents ->
     array_get (assign (responseWrites JSON_parse contents b) r0) (index item) = Some v) ->
  array_get (assign (loopWrites chat JSON_parse bs) results) (index item) = Some v \/
  (loopThrows chat bs = true /\
   array_get (assign (loopWrites chat JSON_parse bs) results) (index item) =
     array_get results (index item)).
Proof.
  intros Hnd Hb Hitem Hv.
  revert results Hnd Hb. induction bs as [|b0 bs IH]; intros results Hnd Hb; [destruct Hb|].
  cbn [concat] in Hnd. rewrite map_app in Hnd.
  cbn [loopWrites loopThrows].
  destruct (chat (BatchItems (map normalized b0))) as [|contents] eqn:E.
  { right. split; reflexivity. }
  rewrite assign_app.
  destruct Hb as [->|Hb].
  - left. rewrite assign_untouched; [now apply Hv|].
    intros H. apply loopWrites_indices in H.
    apply (NoDup_app_disjoint _ _ (index item) Hnd); [now apply in_map | exact H].
  - assert (Hother : ~ In (index item) (map index b0)).
    { intros H. apply (NoDup_app_disjoint _ _ (index item) Hnd H).
      apply in_map, in_concat. eauto. }
    destruct (IH (assign (responseWrites JSON_parse contents b0) results))
      as [H|[H1 H2]]; [now apply NoDup_app_remove_l in Hnd | exact Hb | now left |].
    right. split; [exact H1|]. rewrite H2. apply assign_untouched.
    now rewrite responseWrites_indices.
Qed.

(** The second pass of [batchCategorize]. *)
Definition secondPass (results : Results) (needsAI : list AIItem) : Results :=
  match needsAI with
  | _ :: _ =>
      if keyConfigured OPENAI_API_KEY then
        match batchLoop chat JSON_parse (batches needsAI) results with
        | (results', false) => results'
        | (results', true) => fillMissing results' needsAI
        end
      else fillFallback results needsAI
  | [] => fillFallback results needsAI
  end.

Lemma batchCategorize_passes rules descriptions :
  batchCategorize OPENAI_API_KEY chat JSON_parse rules descriptions =
  secondPass (assign (patternWrites rules 0 descriptions) [])
             (pending rules 0 descriptions).
Proof.
  unfold batchCategorize. rewrite firstPass_eq. reflexivity.
Qed.

(** The second pass changes positions of pending items only. *)
Lemma secondPass_untouched (results : Results) needsAI j :
  ~ In j (map index needsAI) ->
  array_get (secondPass results needsAI) j = array_get results j.
Proof.
  intros Hj. unfold secondPass.
  assert (Hf : array_get (fillFallback results needsAI) j = array_get results j).
  { rewrite fillFallback_assign. apply assign_untouched.
    now rewrite fallbackWrites_indices. }
  destruct needsAI as [|it rest] eqn:En; [exact Hf|]. rewrite <- En in *.
  destruct (keyConfigured OPENAI_API_KEY); [|exact Hf].
  rewrite batchLoop_assign.
  assert (Hl : array_get (assign (loopWrites chat JSON_parse (batches needsAI)) results) j =
               array_get results j).
  { apply assign_untouched. intros H. apply loopWrites_indices in H.
    now rewrite batches_concat in H. }
  destruct (loopThrows chat (batches needsAI)); [|exact Hl].
  rewrite fillMissing_assign, assign_untouched; [exact Hl|].
  intros H. now apply missingWrites_indices in H.
Qed.

Lemma secondPass_defined (results : Results) needsAI j :
  is_Some (array_get results j) -> is_Some (array_get (secondPass results needsAI) j).
Proof.
  intros Hj. unfold secondPass.
  assert (Hf : is_Some (array_get (fillFallback results needsAI) j)).
  { rewrite fillFallback_assign. now apply assign_defined. }
  destruct needsAI as [|it rest] eqn:En; [exact Hf|]. rewrite <- En in *.
  destruct (keyConfigured OPENAI_API_KEY); [|exact Hf].
  rewrite batchLoop_assign.
  destruct (loopThrows chat (batches needsAI)); [|now apply assign_defined].
  rewrite fillMissing_assign. now apply assign_defined, assign_defined.
Qed.

(** After the second pass every pending item has a result. *)
Lemma secondPass_written (results : Results) needsAI item :
  In item needsAI -> is_Some (array_get (secondPass results needsAI) (index item)).
Proof.
  intros Hin. unfold secondPass.
  assert (Hf : is_Some (array_get (fillFallback results needsAI) (index item))).
  { rewrite fillFallback_assign. apply assign_written.
    rewrite fallbackWrites_indices. now apply in_map. }
  destruct needsAI as [|it rest] eqn:En; [exact Hf|]. rewrite <- En in *.
  destruct (keyConfigured OPENAI_API_KEY); [|exact Hf].
  rewrite batchLoop_assign.
  destruct (loopThrows chat (batches needsAI)) eqn:Et.
  - now apply fillMissing_written.
  - apply assign_written, loopWrites_all; [exact Et|].
    rewrite batches_concat. now apply in_map.
Qed.

Lemma secondPass_length (results : Results) needsAI n :
  Forall (fun item => index item < n) needsAI -> length results <= n ->
  length (secondPass results needsAI) <= n.
Proof.
  intros Hn Hlen. unfold secondPass.
  assert (Hw : forall ws : list (nat * CategorizationResult),
             (forall j, In j (map fst ws) -> In j (map index needsAI)) ->
             Forall (fun w => fst w < n) ws).
  { intros ws Hws. apply List.Forall_forall. intros w Hin.
    assert (H : In (fst w) (map index needsAI)) by (apply Hws; now apply in_map).
    apply in_map_iff in H as [item [<- Hitem]].
    rewrite List.Forall_forall in Hn. now apply Hn. }
  assert (Hf : length (fillFallback results needsAI) <= n).
  { rewrite fillFallback_assign. apply assign_length; [|exact Hlen].
    apply Hw. intros j. now rewrite fallbackWrites_indices. }
  destruct needsAI as [|it rest] eqn:En; [exact Hf|]. rewrite <- En in *.
  destruct (keyConfigured OPENAI_API_KEY); [|exact Hf].
  rewrite batchLoop_assign.
  assert (Hl : length (assign (loopWrites chat JSON_parse (batches needsAI)) results) <= n).
  { apply assign_length; [|exact Hlen]. apply Hw. intros j H.
    apply loopWrites_indices in H. now rewrite batches_concat in H. }
  destruct (loopThrows chat (batches needsAI)); [|exact Hl].
  rewrite fillMissing_assign. apply assign_length; [|exact Hl].
  apply Hw. intros j H. now apply missingWrites_indices in H.
Qed.

(** What the second pass leaves at the position of a pending item, given
    what the handling of the item's batch leaves there, when the key is
    configured and no call throws; the fallback result otherwise. *)
Lemma secondPass_value (results : Results) needsAI b item v :
  List.NoDup (map index needsAI) ->
  (forall it, In it needsAI -> array_get results (index it) = None) ->
  In b (batches needsAI) -> In item b ->
  (forall contents r0, chat (BatchItems (map normalized b)) = Choices contents ->
     array_get (assign (responseWrites JSON_parse contents b) r0) (index item) = Some v) ->
  (keyConfigured OPENAI_API_KEY = true /\
   array_get (secondPass results needsAI) (index item) = Some v) \/
  (array_get (secondPass results needsAI) (index item) =
     Some (fallbackResult (normalized item)) /\
   (keyConfigured OPENAI_API_KEY = false \/ loopThrows chat (batches needsAI) = true)).
Proof.
  intros Hnd Hnone Hb Hitem Hv.
  assert (Hin : In item needsAI).
  { rewrite <- (batches_concat needsAI). apply in_concat. eauto. }
  unfold secondPass.
  assert (Hf : array_get (fillFallback results needsAI) (index item) =
               Some (fallbackResult (normalized item))).
  { rewrite fillFallback_assign. now apply fallback_value. }
  destruct needsAI as [|it rest] eqn:En; [destruct Hin|]. rewrite <- En in *.
  destruct (keyConfigured OPENAI_API_KEY); [|right; split; [exact Hf | now left]].
  rewrite batchLoop_assign.
  destruct (loop_item (batches needsAI) results b item v) as [H|[H1 H2]];
    [now rewrite batches_concat | exact Hb | exact Hitem | exact Hv | |].
  - left. split; [reflexivity|].
    destruct (loopThrows chat (batches needsAI)); [|exact H].
    rewrite fillMissing_kept; [exact H | rewrite H; eauto].
  - right. rewrite H1. split; [|now right].
    apply fillMissing_value; [exact Hnd | exact Hin|].
    rewrite H2. now apply Hnone.
Qed.

(** When a call to the hosted model throws, the items of its batch and
    of the batches after it get the fallback result. *)
Lemma secondPass_after_throw (results : Results) needsAI pre b post item :
  List.NoDup (map index needsAI) ->
  (forall it, In it needsAI -> array_get results (index it) = None) ->
  batches needsAI = pre ++ b :: post ->
  chat (BatchItems (map normalized b)) = Throws ->
  In item (concat (b :: post)) ->
  array_get (secondPass results needsAI) (index item) =
    Some (fallbackResult (normalized item)).
Proof.
  intros Hnd Hnone Hbs Hb Hitem.
  assert (Hc : concat pre ++ concat (b :: post) = needsAI).
  { rewrite <- (batches_concat needsAI), Hbs, concat_app. reflexivity. }
  assert (Hin : In item needsAI).
  { rewrite <- Hc. apply in_or_app. now right. }
  unfold secondPass.
  assert (Hf : array_get (fillFallback results needsAI) (index item) =
               Some (fallbackResult (normalized item))).
  { rewrite fillFallback_assign. now apply fallback_value. }
  destruct needsAI as [|it rest] eqn:En; [destruct Hin|]. rewrite <- En in *.
  destruct (keyConfigured OPENAI_API_KEY); [|exact Hf].
  rewrite batchLoop_assign, Hbs, loopThrows_throw by exact Hb.
  apply fillMissing_value; [exact Hnd | exact Hin|].
  rewrite assign_untouched; [now apply Hnone|].
  intros H. apply loopWrites_throw in H; [|exact Hb].
  rewrite <- Hc, map_app in Hnd.
  apply (NoDup_app_disjoint _ _ (index item) Hnd H). now apply in_map.
Qed.

(** ** Replies that parse to an array *)

Lemma categoryWrites_JArray l b j :
  categoryThrows (JArray l) b j = false /\
  forall k item, b !! k = Some item ->
    In (index item,
        aiResult (checkedCategory (property (JArray l) (j + k))) (normalized item))
       (categoryWrites (JArray l) b j).
Proof.
  revert j. induction b as [|it b IH]; intros j; [split; [reflexivity | discriminate]|].
  destruct (IH (S j)) as [IH1 IH2].
  cbn [categoryThrows categoryWrites].
  assert (Hp : property (JArray l) j <> TypeError).
  { simpl. destruct (l !! j); discriminate. }
  destruct (property (JArray l) j) eqn:E; [congruence | |].
  - split; [exact IH1|]. intros [|k] item Hk.
    + injection Hk as ->. rewrite Nat.add_0_r, E. now left.
    + right. replace (j + S k) with (S j + k) by lia. now apply IH2.
  - split; [exact IH1|]. intros [|k] item Hk.
    + injection Hk as ->. rewrite Nat.add_0_r, E. now left.
    + right. replace (j + S k) with (S j + k) by lia. now apply IH2.
Qed.

Lemma response_array_value content others l b k item (r0 : Results) :
  List.NoDup (map index b) -> b !! k = Some item ->
  JSON_parse (contentOrEmptyArray content) = Some (JArray l) ->
  array_get (assign (responseWrites JSON_parse (content :: others) b) r0) (index item) =
    Some (aiResult (checkedCategory (property (JArray l) k)) (normalized item)).
Proof.
  intros Hnd Hk Hparse. unfold responseWrites. rewrite Hparse.
  destruct (categoryWrites_JArray l b 0) as [Ht Hw]. rewrite Ht, app_nil_r.
  apply assign_value.
  - now rewrite (categoryWrites_all _ _ _ Ht).
  - exact (Hw k item Hk).
Qed.

Lemma response_failure_value content others b item (r0 : Results) :
  List.NoDup (map index b) -> In item b ->
  JSON_parse (contentOrEmptyArray content) = None ->
  array_get (assign (responseWrites JSON_parse (content :: others) b) r0) (index item) =
    Some (fallbackResult (normalized item)).
Proof.
  intros Hnd Hin Hparse. unfold responseWrites. rewrite Hparse.
  now apply fallback_value.
Qed.

End SecondPass.

End BatchFacts.

Import BatchFacts.

Lemma needsAI_pending rules descriptions :
  needsAI rules descriptions = pending rules 0 descriptions.
Proof. unfold needsAI. now rewrite firstPass_eq. Qed.

Lemma first_results_length rules descriptions :
  length (assign (patternWrites rules 0 descriptions)
                 ([] : list (option CategorizationResult))) <= length descriptions.
Proof. apply assign_length; [apply (patternWrites_bound rules 0) | simpl; lia]. Qed.

Lemma first_results_pending rules descriptions item :
  In item (pending rules 0 descriptions) ->
  array_get (assign (patternWrites rules 0 descriptions)
                    ([] : list (option CategorizationResult))) (index item) = None.
Proof.
  intros H. rewrite assign_untouched by now apply pending_not_written.
  unfold array_get. now rewrite lookup_nil.
Qed.

Lemma batch_NoDup rules descriptions b :
  In b (batches (pending rules 0 descriptions)) -> List.NoDup (map index b).
Proof.
  apply NoDup_concat_In. rewrite batches_concat. apply pending_NoDup.
Qed.

Lemma checkedCategory_missing l k :
  (forall s, l !! k = Some (JString s) -> isCategory s = false) ->
  checkedCategory (property (JArray l) k) = js "Other".
Proof.
  intros H. simpl. destruct (l !! k) as [v|]; [|reflexivity].
  destruct v; try reflexivity. simpl. now rewrite H.
Qed.

(** Given the rules, the array [batchCategorize] builds has the length of
    the input and a result at every index, whatever the hosted model and
    [JSON.parse] do. *)
Lemma batch_results_total (OPENAI_API_KEY : option jsstring)
    (chat : ChatRequest -> ChatResponse) (JSON_parse : jsstring -> option JSON)
    (rules : list CategoryRule) (descriptions : list jsstring) :
  let results := batchCategorize OPENAI_API_KEY chat JSON_parse rules descriptions in
  length results = length descriptions /\
  (forall i, i < length descriptions -> exists r, results !! i = Some (Some r)) /\
  (forall b k item content others l,
     In b (batches (needsAI rules descriptions)) -> b !! k = Some item ->
     chat (BatchItems (map normalized b)) = Choices (content :: others) ->
     JSON_parse (contentOrEmptyArray content) = Some (JArray l) ->
     (forall s, l !! k = Some (JString s) -> isCategory s = false) ->
     exists r, results !! index item = Some (Some r) /\
               Categorization.category r = js "Other") /\
  (forall pre b post item,
     batches (needsAI rules descriptions) = pre ++ b :: post ->
     chat (BatchItems (map normalized b)) = Throws ->
     In item (concat (b :: post)) ->
     results !! index item = Some (Some (fallbackResult (normalized item)))).
Proof.
  cbv zeta. rewrite batchCategorize_passes, needsAI_pending.
  set (results0 := assign (patternWrites rules 0 descriptions) []).
  set (items := pending rules 0 descriptions).
  assert (Hdef : forall i, i < length descriptions ->
            is_Some (array_get (secondPass OPENAI_API_KEY chat JSON_parse results0 items) i)).
  { intros i Hi. destruct (lookup_lt_is_Some_2 descriptions i Hi) as [d Hd].
    destruct (firstPass_cover rules 0 descriptions i d Hd) as [[r [_ Hr]]|[_ Hitem]].
    - apply secondPass_defined. unfold results0.
      rewrite (assign_value _ _ (0 + i) r); [eauto | apply patternWrites_NoDup | exact Hr].
    - exact (secondPass_written OPENAI_API_KEY chat JSON_parse results0 items _ Hitem). }
  assert (Hlen : length (secondPass OPENAI_API_KEY chat JSON_parse results0 items)
                 <= length descriptions).
  { apply secondPass_length; [|apply first_results_length].
    apply List.Forall_forall. intros item Hitem.
    now apply pending_bound in Hitem. }
  split; [|split; [|split]].
  - destruct (length descriptions) as [|n] eqn:En; [lia|].
    destruct (Hdef n) as [r Hr]; [lia|]. apply array_get_length in Hr. lia.
  - intros i Hi. destruct (Hdef i Hi) as [r Hr]. exists r. now apply array_get_lookup.
  - intros b k item content others l Hb Hk Hchat Hparse Hmissing.
    assert (Hitem : In item b).
    { apply list_elem_of_In, list_elem_of_lookup. eauto. }
    destruct (secondPass_value OPENAI_API_KEY chat JSON_parse results0 items b item
                (aiResult (checkedCategory (property (JArray l) k)) (normalized item)))
      as [[_ H]|[H _]].
    + apply pending_NoDup.
    + apply first_results_pending.
    + exact Hb.
    + exact Hitem.
    + intros contents r0 Hc. rewrite Hchat in Hc. injection Hc as <-.
      apply response_array_value; [now apply (batch_NoDup rules descriptions) | exact Hk|].
      exact Hparse.
    + eexists. split; [apply array_get_lookup, H|].
      cbn [aiResult Categorization.category]. now apply checkedCategory_missing.
    + eexists. split; [apply array_get_lookup, H | reflexivity].
  - intros pre b post item Hbs Hthrows Hitem. apply array_get_lookup.
    apply (secondPass_after_throw OPENAI_API_KEY chat JSON_parse results0 items
             pre b post item); try assumption.
    + apply pending_NoDup.
    + apply first_results_pending.
Qed.

(** ** The reads of the rule store *)

Lemma firstPass_given_rules pattern_le db rules ds i results items :
  RuleStore.getCategoryRules pattern_le db = inr rules ->
  SmartCategorization.firstPass pattern_le db ds i results items =
    inr (firstPass rules ds i results items).
Proof.
  intros Hr. revert i results items.
  induction ds as [|d ds IH]; intros i results items; [reflexivity|].
  cbn [SmartCategorization.firstPass firstPass].
  unfold SmartCategorization.categorizeByPattern. rewrite Hr.
  destruct (categorizeByPattern rules d); apply IH.
Qed.

Lemma smartCategorize_given_rules pattern_le OPENAI_API_KEY chat db rules d :
  RuleStore.getCategoryRules pattern_le db = inr rules ->
  SmartCategorization.smartCategorize pattern_le OPENAI_API_KEY chat db d =
    inr (smartCategorize OPENAI_API_KEY chat rules d).
Proof.
  intros Hr. unfold SmartCategorization.smartCategorize, smartCategorize,
    SmartCategorization.categorizeByPattern. rewrite Hr.
  now destruct (categorizeByPattern rules d).
Qed.

Lemma smartCategorize_unreachable pattern_le OPENAI_API_KEY chat db d :
  reachable db = false ->
  SmartCategorization.smartCategorize pattern_le OPENAI_API_KEY chat db d =
    inl connection_error.
Proof.
  intros Hr. unfold SmartCategorization.smartCategorize,
    SmartCategorization.categorizeByPattern, RuleStore.getCategoryRules.
  now rewrite Hr.
Qed.

Lemma batchCategorize_given_rules pattern_le OPENAI_API_KEY chat JSON_parse db rules ds :
  RuleStore.getCategoryRules pattern_le db = inr rules ->
  SmartCategorization.batchCategorize pattern_le OPENAI_API_KEY chat JSON_parse db ds =
    inr (batchCategorize OPENAI_API_KEY chat JSON_parse rules ds).
Proof.
  intros Hr. unfold SmartCategorization.batchCategorize, batchCategorize.
  rewrite (firstPass_given_rules pattern_le db rules ds 0 [] [] Hr).
  destruct (firstPass rules ds 0 [] []) as [results items]. reflexivity.
Qed.

Lemma batchCategorize_unreachable pattern_le OPENAI_API_KEY chat JSON_parse db d ds :
  reachable db = false ->
  SmartCategorization.batchCategorize pattern_le OPENAI_API_KEY chat JSON_parse db
                                      (d :: ds) = inl connection_error.
Proof.
  intros Hr. unfold SmartCategorization.batchCategorize.
  cbn [SmartCategorization.firstPass].
  unfold SmartCategorization.categorizeByPattern, RuleStore.getCategoryRules.
  rewrite Hr. reflexivity.
Qed.

(** C10 as stated fails: the first pass reads the rule store for every
    description, outside any [try]; when the store cannot be reached the
    call throws the error of the store and returns no array. *)
Lemma unreachable_store_ends_batch :
  SmartCategorization.batchCategorize (fun _ _ => true) (Some (js "sk-test"))
                                      shortReplyChat shortReplyParse
                                      (mkDb [] 0 false) [js "STARBUCKS"] =
    inl connection_error.
Proof. reflexivity. Qed.

(** C10 (amended).  When the rule store can be read, [batchCategorize]
    returns, whatever the hosted model and [JSON.parse] do (replies of any
    shape, calls that throw at any batch), an array of exactly the length of
    the input with a result at every index.  In particular, where the array
    parsed from the reply for a batch has no valid category name at the
    position of an item (the array is too short, or the entry is not a
    string or not a category), the item still gets a result, with category
    Other; and when the call for a batch throws, the items of that batch
    and of all the batches after it get the fallback result.  The empty
    list is answered with the empty array without a read of the store; for
    any other list an unreachable store ends the call with its error. *)
Theorem batchCategorize_total (pattern_le : jsstring -> jsstring -> bool)
    (OPENAI_API_KEY : option jsstring)
    (chat : ChatRequest -> ChatResponse) (JSON_parse : jsstring -> option JSON)
    (db : Database) (descriptions : list jsstring) :
  (reachable db = true ->
   exists rules results,
     RuleStore.getCategoryRules pattern_le db = inr rules /\
     SmartCategorization.batchCategorize pattern_le OPENAI_API_KEY chat JSON_parse
                                         db descriptions = inr results /\
     length results = length descriptions /\
     (forall i, i < length descriptions -> exists r, results !! i = Some (Some r)) /\
     (forall b k item content others l,
        In b (batches (needsAI rules descriptions)) -> b !! k = Some item ->
        chat (BatchItems (map normalized b)) = Choices (content :: others) ->
        JSON_parse (contentOrEmptyArray content) = Some (JArray l) ->
        (forall s, l !! k = Some (JString s) -> isCategory s = false) ->
        exists r, results !! index item = Some (Some r) /\
                  Categorization.category r = js "Other") /\
     (forall pre b post item,
        batches (needsAI rules descriptions) = pre ++ b :: post ->
        chat (BatchItems (map normalized b)) = Throws ->
        In item (concat (b :: post)) ->
        results !! index item = Some (Some (fallbackResult (normalized item))))) /\
  SmartCategorization.batchCategorize pattern_le OPENAI_API_KEY chat JSON_parse db [] =
    inr [] /\
  (reachable db = false -> descriptions <> [] ->
   SmartCategorization.batchCategorize pattern_le OPENAI_API_KEY chat JSON_parse
                                       db descriptions = inl connection_error).
Proof.
  split; [|split].
  - intros Hr.
    assert (Hrules : exists rules, RuleStore.getCategoryRules pattern_le db = inr rules).
    { unfold RuleStore.getCategoryRules. rewrite Hr. eauto. }
    destruct Hrules as [rules Hrules].
    exists rules, (batchCategorize OPENAI_API_KEY chat JSON_parse rules descriptions).
    split; [exact Hrules|].
    split; [now apply batchCategorize_given_rules|].
    exact (batch_results_total OPENAI_API_KEY chat JSON_parse rules descriptions).
  - reflexivity.
  - intros Hr Hne. destruct descriptions as [|d ds]; [contradiction|].
    now apply batchCategorize_unreachable.
Qed.

Lemma batchCategorize_total_witness :
  exists results r,
    SmartCategorization.batchCategorize (fun _ _ => true) (Some (js "sk-test"))
                                        shortReplyChat shortReplyParse
                                        (mkDb [] 0 true) [js "ZZZ QQQ"; js "XYZ"] =
      inr results /\
    length results = 2 /\
    results !! 1 = Some (Some r) /\ Categorization.category r = js "Other".
Proof.
  destruct (proj1 (batchCategorize_total (fun _ _ => true) (Some (js "sk-test"))
                     shortReplyChat shortReplyParse (mkDb [] 0 true)
                     [js "ZZZ QQQ"; js "XYZ"]) eq_refl)
    as [rules [results [Hrules [Hcall [Hlen [_ [Hshort _]]]]]]].
  injection Hrules as <-.
  destruct (Hshort [mkItem 0 (js "ZZZ QQQ") (js "ZZZ QQQ"); mkItem 1 (js "XYZ") (js "XYZ")]
                   1 (mkItem 1 (js "XYZ") (js "XYZ")) (Some (js "one")) []
                   [JString (js "Coffee")]
                   ltac:(vm_compute; left; reflexivity) ltac:(reflexivity)
                   ltac:(reflexivity) ltac:(reflexivity)
                   ltac:(intros s H; discriminate H))
    as [r [Hr Hcat]].
  exists results, r. repeat split; assumption.
Defined.

(** C6.  The AI fallback never surfaces an error.  [categorizeByAI] returns
    the result Other, low, fallback, with the suggestion to create a rule,
    whenever the credentials are missing, the call to the hosted model
    throws, or its response carries no choice.  In [batchCategorize], when
    the reply to a batch fails to parse, every item of that batch receives
    the result Other, low, fallback, whatever happens to the other batches;
    the call as a whole still returns. *)
Theorem ai_failure_degrades (OPENAI_API_KEY : option jsstring)
    (chat : ChatRequest -> ChatResponse) (JSON_parse : jsstring -> option JSON)
    (rules : list CategoryRule) (descriptions : list jsstring) :
  (forall description merchant,
     keyConfigured OPENAI_API_KEY = false \/
     chat (SingleItem description merchant) = Throws \/
     chat (SingleItem description merchant) = Choices [] ->
     categorizeByAI OPENAI_API_KEY chat description merchant =
       mkResult (js "Other") low fallback merchant (Some true)) /\
  (forall b content others item,
     In b (batches (needsAI rules descriptions)) ->
     chat (BatchItems (map normalized b)) = Choices (content :: others) ->
     JSON_parse (contentOrEmptyArray content) = None ->
     In item b ->
     batchCategorize OPENAI_API_KEY chat JSON_parse rules descriptions !! index item =
       Some (Some (mkResult (js "Other") low fallback (normalized item) (Some true)))).
Proof.
  split.
  - intros description merchant H. unfold categorizeByAI.
    destruct (keyConfigured OPENAI_API_KEY); [|reflexivity]. cbn [negb].
    destruct H as [H|[H|H]]; [discriminate | |]; now rewrite H.
  - intros b content others item Hb Hchat Hparse Hitem.
    rewrite batchCategorize_passes. rewrite needsAI_pending in Hb.
    apply array_get_lookup.
    destruct (secondPass_value OPENAI_API_KEY chat JSON_parse
                (assign (patternWrites rules 0 descriptions) [])
                (pending rules 0 descriptions) b item
                (fallbackResult (normalized item)))
      as [[_ H]|[H _]]; try exact H.
    + apply pending_NoDup.
    + apply first_results_pending.
    + exact Hb.
    + exact Hitem.
    + intros contents r0 Hc. rewrite Hchat in Hc. injection Hc as <-.
      apply response_failure_value; [now apply (batch_NoDup rules descriptions)| |];
        assumption.
Qed.

Lemma ai_failure_degrades_witness :
  batchCategorize (Some (js "sk-test")) garbledChat garbledParse []
                  [js "STARBUCKS"; js "XYZ"] !! 1 =
    Some (Some (mkResult (js "Other") low fallback (js "XYZ") (Some true))).
Proof.
  exact (proj2 (ai_failure_degrades (Some (js "sk-test")) garbledChat garbledParse []
                  [js "STARBUCKS"; js "XYZ"])
           [mkItem 1 (js "XYZ") (js "XYZ")]
           (Some (js "Sure! Here are the categories:")) []
           (mkItem 1 (js "XYZ") (js "XYZ"))
           ltac:(vm_compute; left; reflexivity) ltac:(reflexivity) ltac:(reflexivity)
           ltac:(left; reflexivity)).
Defined.

Lemma answersWith_never_throws chat JSON_parse decide bs :
  answersWith chat JSON_parse decide -> loopThrows chat bs = false.
Proof.
  intros [_ Hbatch]. induction bs as [|b bs IH]; simpl; [reflexivity|].
  destruct (Hbatch (map normalized b)) as [reply [others [-> _]]]. exact IH.
Qed.

(** The category both paths give to a merchant the stub answers with
    [name]. *)
Definition decided (name : jsstring) : jsstring :=
  if isCategory name then name else js "Other".

Lemma single_decided OPENAI_API_KEY chat JSON_parse decide description merchant :
  answersWith chat JSON_parse decide ->
  keyConfigured OPENAI_API_KEY = true ->
  Categorization.category (categorizeByAI OPENAI_API_KEY chat description merchant) =
    decided (decide merchant).
Proof.
  intros [Hsingle _] Hkey. unfold categorizeByAI. rewrite Hkey. cbn [negb].
  destruct (Hsingle description merchant) as [reply [others [-> <-]]].
  unfold decided. destruct (trim reply) as [|c t]; reflexivity.
Qed.

Lemma single_unconfigured OPENAI_API_KEY chat description merchant :
  keyConfigured OPENAI_API_KEY = false ->
  categorizeByAI OPENAI_API_KEY chat description merchant = fallbackResult merchant.
Proof. intros Hkey. unfold categorizeByAI. now rewrite Hkey. Qed.

(** C5 as stated fails: the stub answers every merchant with Coffee
    followed by a space, alone in the single-item reply and as the entry of
    the JSON array in the batch reply.  The description matches no rule and
    no Pattern Table entry.  [categorizeByAI] trims the reply and accepts
    it as Coffee; [batchCategorize] looks the entry up as it is and falls
    back to Other. *)
Lemma padded_answer_splits_paths :
  categorizeByPattern [] (js "XYZ") = None /\
  paddedChat (BatchItems [js "XYZ"]) =
    Choices [Some ("["%char :: "034"%char :: js "Coffee " ++ ["034"%char; "]"%char])] /\
  Categorization.category
    (smartCategorize (Some (js "sk-test")) paddedChat [] (js "XYZ")) = js "Coffee" /\
  exists r,
    batchCategorize (Some (js "sk-test")) paddedChat paddedParse [] [js "XYZ"] !! 0 =
      Some (Some r) /\
    Categorization.category r = js "Other".
Proof.
  split; [vm_compute; reflexivity|]. split; [reflexivity|].
  split; [vm_compute; reflexivity|].
  eexists. split; [vm_compute; reflexivity | reflexivity].
Qed.

(** C5 (amended).  Given a stubbed hosted model that answers every merchant
    with the name a fixed function [decide] gives it (alone and possibly
    surrounded by white space in the single-item reply; as the entries, as
    they are and in order, of the JSON array of the batch reply),
    [batchCategorize] assigns the description at every index the category
    [smartCategorize] assigns to that description on its own.  This holds
    for every list of descriptions, so in particular for those none of which
    matches a stored rule or a Pattern Table entry; method and confidence
    may differ, the category does not. *)
Theorem batch_single_equivalence (OPENAI_API_KEY : option jsstring)
    (chat : ChatRequest -> ChatResponse) (JSON_parse : jsstring -> option JSON)
    (decide : jsstring -> jsstring)
    (rules : list CategoryRule) (descriptions : list jsstring) :
  answersWith chat JSON_parse decide ->
  forall i d, descriptions !! i = Some d ->
  exists r,
    batchCategorize OPENAI_API_KEY chat JSON_parse rules descriptions !! i =
      Some (Some r) /\
    Categorization.category r =
      Categorization.category (smartCategorize OPENAI_API_KEY chat rules d).
Proof.
  intros Hstub i d Hd. rewrite batchCategorize_passes.
  set (results0 := assign (patternWrites rules 0 descriptions) []).
  set (items := pending rules 0 descriptions).
  unfold smartCategorize.
  destruct (firstPass_cover rules 0 descriptions i d Hd) as [[r [Hr Hw]]|[Hnone Hitem]].
  - rewrite Hr. exists r. split; [|reflexivity]. apply array_get_lookup.
    rewrite secondPass_untouched.
    + apply (assign_value _ _ (0 + i) r); [apply patternWrites_NoDup | exact Hw].
    + intros H. apply in_map_iff in H as [item [Hi Hin]].
      apply pending_In in Hin as [_ [H1 [_ H2]]].
      rewrite Hi, Nat.sub_0_r, Hd in H1. injection H1 as H1. congruence.
  - rewrite Hnone. fold items in Hitem.
    set (item := mkItem (0 + i) d (normalizeMerchant d)) in *.
    assert (Hin : In item (concat (batches items))) by now rewrite batches_concat.
    apply in_concat in Hin as [b [Hb Hinb]].
    assert (Hk : exists k, b !! k = Some item).
    { now apply list_elem_of_lookup, list_elem_of_In. }
    destruct Hk as [k Hk].
    destruct (secondPass_value OPENAI_API_KEY chat JSON_parse results0 items b item
                (aiResult (decided (decide (normalized item))) (normalized item)))
      as [[Hkey H]|[H [Hkey|Ht]]].
    + apply pending_NoDup.
    + apply first_results_pending.
    + exact Hb.
    + exact Hinb.
    + intros contents r0 Hc. destruct Hstub as [_ Hbatch].
      destruct (Hbatch (map normalized b)) as [reply [others [Hchat Hparse]]].
      rewrite Hchat in Hc. injection Hc as <-.
      rewrite (response_array_value JSON_parse (Some reply) others _ b k item r0
                 (batch_NoDup rules descriptions b Hb) Hk Hparse).
      do 2 f_equal. cbn [property].
      rewrite list_lookup_fmap, list_lookup_fmap, Hk. reflexivity.
    + eexists. split; [apply array_get_lookup, H|].
      rewrite (single_decided _ _ JSON_parse decide) by assumption. reflexivity.
    + eexists. split; [apply array_get_lookup, H|].
      now rewrite single_unconfigured.
    + rewrite (answersWith_never_throws _ _ _ _ Hstub) in Ht. discriminate.
Qed.

Lemma coffee_answersWith : answersWith coffeeChat coffeeParse (fun _ => js "Coffee").
Proof.
  split.
  - intros description merchant. exists (js " Coffee "), []. split; reflexivity.
  - intros merchants. eexists. exists []. split; [reflexivity|].
    cbn [contentOrEmptyArray]. unfold coffeeParse. cbn [tail]. do 2 f_equal.
    induction merchants as [|m ms IH]; cbn [length repeat map];
      [reflexivity | now f_equal].
Defined.

Lemma batch_single_equivalence_witness :
  exists r,
    batchCategorize (Some (js "sk-test")) coffeeChat coffeeParse []
                    [js "STARBUCKS"; js "XYZ"] !! 1 = Some (Some r) /\
    Categorization.category r =
      Categorization.category
        (smartCategorize (Some (js "sk-test")) coffeeChat [] (js "XYZ")).
Proof.
  exact (batch_single_equivalence (Some (js "sk-test")) coffeeChat coffeeParse
           (fun _ => js "Coffee") [] [js "STARBUCKS"; js "XYZ"]
           coffee_answersWith 1 (js "XYZ") ltac:(reflexivity)).
Defined.

(* ================================================================== *)
(** * Further properties of the categorization engine                   *)
(* ================================================================== *)

Import Properties.

Lemma single_spaced_spec s :
  single_spaced s = true ->
  (forall c, In c s -> is_space c = true -> c = " "%char) /\
  (forall pre a b post, s = pre ++ a :: b :: post -> is_space a = true -> is_space b = false).
Proof.
  induction s as [|c s IH]; intros H.
  - split; [intros c []|]. intros [|x pre] a b post E; discriminate E.
  - cbn [single_spaced] in H. apply andb_prop in H as [Hc Hs].
    destruct (IH Hs) as [IH1 IH2]. split.
    + intros x [<-|Hx] Hsp; [|now apply IH1].
      rewrite Hsp in Hc. apply andb_prop in Hc as [Hc _].
      now apply char_eqb_eq in Hc.
    + intros [|x pre] a b post E Ha.
      * injection E as -> ->. rewrite Ha in Hc. apply andb_prop in Hc as [_ Hc].
        apply negb_true_iff in Hc. exact Hc.
      * injection E as -> ->. now apply (IH2 pre a b post).
Qed.

(** X1.  Whatever the description, the merchant [normalizeMerchant]
    returns is in upper case, has no white space at either end, and its
    only white space is single spaces between words. *)
Theorem normalizeMerchant_output_shape (x : jsstring) :
  let m := normalizeMerchant x in
  toUpperCase m = m /\ trim m = m /\
  (forall c, In c m -> is_space c = true -> c = " "%char) /\
  (forall pre a b post, m = pre ++ a :: b :: post -> is_space a = true -> is_space b = false).
Proof.
  cbv zeta. destruct (normalizeMerchant_tidy x) as [H1 [H2 H3]].
  revert H1 H2 H3. generalize (normalizeMerchant x). intros m H1 H2 H3.
  split; [now apply toUpperCase_fixed|]. split; [exact H3|].
  now apply single_spaced_spec.
Qed.

Lemma normalizeMerchant_output_shape_witness :
  normalizeMerchant Samples.joes_coffee =
    js "JOE'S" ++ " "%char :: "C"%char :: js "OFFEE #4521 SAN" /\
  is_space " " = true /\ is_space "C" = false.
Proof.
  assert (E : normalizeMerchant Samples.joes_coffee =
              js "JOE'S" ++ " "%char :: "C"%char :: js "OFFEE #4521 SAN")
    by (vm_compute; reflexivity).
  split; [exact E|]. split; [reflexivity|].
  exact (proj2 (proj2 (proj2 (normalizeMerchant_output_shape Samples.joes_coffee)))
               _ _ _ _ E eq_refl).
Defined.

(** ** Results that agree with themselves *)

Lemma isCategory_In s : isCategory s = true -> In s CATEGORIES.
Proof.
  unfold isCategory. intros H. apply existsb_exists in H as [c [Hc Heq]].
  apply str_eqb_eq in Heq. now subst c.
Qed.

Lemma Other_In : In (js "Other") CATEGORIES.
Proof. apply isCategory_In. vm_compute. reflexivity. Qed.

Lemma scanPatterns_In upperDesc table cat :
  scanPatterns upperDesc table = Some cat -> In cat (map fst table).
Proof.
  induction table as [|[c patterns] table IH]; [discriminate|].
  cbn [scanPatterns map fst].
  destruct (existsb _ patterns); [|right; now apply IH].
  intros H. injection H as ->. now left.
Qed.

Lemma pattern_table_categories cat :
  In cat (map fst EXTENDED_PATTERNS) -> In cat CATEGORIES.
Proof.
  intros H. apply isCategory_In.
  assert (Hall : forallb isCategory (map fst EXTENDED_PATTERNS) = true)
    by (vm_compute; reflexivity).
  rewrite forallb_forall in Hall. now apply Hall.
Qed.

Lemma checkedCategory_isCategory a : isCategory (checkedCategory a) = true.
Proof.
  destruct a as [| |v]; try (vm_compute; reflexivity).
  destruct v; try (vm_compute; reflexivity).
  cbn [checkedCategory]. destruct (isCategory s) eqn:E; [exact E|].
  vm_compute. reflexivity.
Qed.

Lemma fallbackResult_wellFormed rules merchant :
  wellFormed rules merchant (fallbackResult merchant).
Proof. split; [reflexivity|]. cbn. repeat split. Qed.

Lemma aiResult_wellFormed rules cat merchant :
  isCategory cat = true -> wellFormed rules merchant (aiResult cat merchant).
Proof.
  intros H. split; [reflexivity|]. cbn [aiResult method suggestRule confidence
    Categorization.category].
  split; [reflexivity|]. split; [now apply isCategory_In | reflexivity].
Qed.

Lemma categorizeByPattern_wellFormed rules description r :
  categorizeByPattern rules description = Some r ->
  wellFormed rules (normalizeMerchant description) r.
Proof.
  unfold categorizeByPattern. cbv zeta.
  generalize (normalizeMerchant description). intros m.
  destruct (find (ruleMatches (toUpperCase m)) rules) as [stored|] eqn:Ef.
  { intros H. injection H as <-. split; [reflexivity|].
    cbn [method confidence suggestRule Categorization.category].
    split; [reflexivity|]. split; [reflexivity|].
    apply find_some in Ef as [Hin Hm]. exists stored.
    split; [exact Hin|]. split; [reflexivity|].
    rewrite containsIgnoringCase_ruleMatches. exact Hm. }
  destruct (scanPatterns (toUpperCase m) EXTENDED_PATTERNS) as [cat|] eqn:Es.
  { intros H. injection H as <-. split; [reflexivity|].
    cbn [method confidence suggestRule Categorization.category].
    split; [reflexivity|]. split; [|now left].
    now apply pattern_table_categories, (scanPatterns_In (toUpperCase m)). }
  destruct (startsWith _ _ || startsWith _ _); [discriminate|].
  destruct (startsWith _ _ || startsWith _ _); [|discriminate].
  intros H. injection H as <-. split; [reflexivity|].
  cbn [method confidence suggestRule Categorization.category].
  split; [reflexivity|]. split; [|right; split; reflexivity].
  apply isCategory_In. vm_compute. reflexivity.
Qed.

Lemma categorizeByAI_wellFormed OPENAI_API_KEY chat rules description merchant :
  wellFormed rules merchant (categorizeByAI OPENAI_API_KEY chat description merchant).
Proof.
  unfold categorizeByAI.
  destruct (negb (keyConfigured OPENAI_API_KEY)); [apply fallbackResult_wellFormed|].
  destruct (chat (SingleItem description merchant)) as [|[|content others]];
    try apply fallbackResult_wellFormed.
  apply aiResult_wellFormed.
  match goal with |- isCategory (if isCategory ?c then _ else _) = true =>
    destruct (isCategory c) eqn:E; [exact E | vm_compute; reflexivity] end.
Qed.

(** X2.  The result of [smartCategorize] always agrees with itself: it
    carries the normalized merchant of the description; a result by rule
    has confidence high and the category of a stored rule whose pattern
    occurs in the merchant; a result by pattern or by the hosted model has a
    category of [CATEGORIES]; a result of the hosted model has confidence
    low exactly when its category is Other; a fallback result is Other with
    confidence low; and the rule suggestion is present exactly on results of
    the hosted model and on fallbacks. *)
Theorem smartCategorize_wellFormed (OPENAI_API_KEY : option jsstring)
    (chat : ChatRequest -> ChatResponse) (rules : list CategoryRule)
    (description : jsstring) :
  wellFormed rules (normalizeMerchant description)
             (smartCategorize OPENAI_API_KEY chat rules description).
Proof.
  unfold smartCategorize.
  destruct (categorizeByPattern rules description) as [r|] eqn:E.
  - now apply categorizeByPattern_wellFormed.
  - apply categorizeByAI_wellFormed.
Qed.

(** ** Every entry of a batch *)

Lemma categoryWrites_entries categories b j :
  categoryThrows categories b j = false ->
  forall k item, b !! k = Some item ->
    In (index item,
        aiResult (checkedCategory (property categories (j + k))) (normalized item))
       (categoryWrites categories b j).
Proof.
  revert j. induction b as [|it b IH]; intros j Ht k item Hk; [discriminate|].
  cbn [categoryThrows categoryWrites] in *.
  destruct (property categories j) eqn:E; [discriminate| |];
    (destruct k as [|k];
     [injection Hk as ->; rewrite Nat.add_0_r, E; now left
     |right; replace (j + S k) with (S j + k) by lia; now apply IH]).
Qed.

(** The handling of one response leaves, at the position of an item of
    the batch, a result of the hosted model or the fallback result. *)
Lemma response_entry JSON_parse contents b item :
  List.NoDup (map index b) -> In item b ->
  exists v,
    (forall r0 : list (option CategorizationResult),
       array_get (assign (responseWrites JSON_parse contents b) r0) (index item) = Some v) /\
    (v = fallbackResult (normalized item) \/
     exists a, v = aiResult (checkedCategory a) (normalized item)).
Proof.
  intros Hnd Hin. unfold responseWrites.
  destruct contents as [|content others].
  { eexists. split; [intros r0; now apply fallback_value | now left]. }
  destruct (JSON_parse (contentOrEmptyArray content)) as [categories|].
  2:{ eexists. split; [intros r0; now apply fallback_value | now left]. }
  destruct (categoryThrows categories b 0) eqn:Et.
  - eexists. split; [|now left]. intros r0. rewrite assign_app.
    now apply fallback_value.
  - assert (Hk : exists k, b !! k = Some item).
    { now apply list_elem_of_lookup, list_elem_of_In. }
    destruct Hk as [k Hk]. eexists. split; [|right; eexists; reflexivity].
    intros r0. rewrite app_nil_r. apply assign_value.
    + now rewrite (categoryWrites_all _ _ _ Et).
    + exact (categoryWrites_entries categories b 0 Et k item Hk).
Qed.

(** X3.  Every entry of the array [batchCategorize] returns belongs to
    the description at its index and agrees with itself: the entry at
    index [i] carries the normalized merchant of the [i]-th description,
    and its category, confidence, method and rule suggestion are related as
    in a result of [smartCategorize]; whatever the hosted model and
    [JSON.parse] return. *)
Theorem batchCategorize_entries (OPENAI_API_KEY : option jsstring)
    (chat : ChatRequest -> ChatResponse) (JSON_parse : jsstring -> option JSON)
    (rules : list CategoryRule) (descriptions : list jsstring) (i : nat) (d : jsstring) :
  descriptions !! i = Some d ->
  exists r,
    batchCategorize OPENAI_API_KEY chat JSON_parse rules descriptions !! i =
      Some (Some r) /\
    wellFormed rules (normalizeMerchant d) r.
Proof.
  intros Hd. rewrite batchCategorize_passes.
  set (results0 := assign (patternWrites rules 0 descriptions) []).
  set (items := pending rules 0 descriptions).
  destruct (firstPass_cover rules 0 descriptions i d Hd) as [[r [Hr Hw]]|[Hnone Hitem]].
  - exists r. split; [|now apply categorizeByPattern_wellFormed].
    apply array_get_lookup. rewrite secondPass_untouched.
    + apply (assign_value _ _ (0 + i) r); [apply patternWrites_NoDup | exact Hw].
    + intros H. apply in_map_iff in H as [item [Hi Hin]].
      apply pending_In in Hin as [_ [H1 [_ H2]]].
      rewrite Hi, Nat.sub_0_r, Hd in H1. injection H1 as H1. congruence.
  - fold items in Hitem. clear Hnone. revert Hitem.
    generalize (normalizeMerchant d). intros m Hitem.
    set (item := mkItem (0 + i) d m) in *.
    assert (Hin : In item (concat (batches items))) by now rewrite batches_concat.
    apply in_concat in Hin as [b [Hb Hinb]].
    assert (Hv : exists v,
               (forall contents r0, chat (BatchItems (map normalized b)) = Choices contents ->
                  array_get (assign (responseWrites JSON_parse contents b) r0) (index item) =
                    Some v) /\
               wellFormed rules (normalized item) v).
    { destruct (chat (BatchItems (map normalized b))) as [|contents] eqn:Ec.
      - exists (fallbackResult (normalized item)).
        split; [intros contents r0 H; discriminate H | apply fallbackResult_wellFormed].
      - destruct (response_entry JSON_parse contents b item
                    (batch_NoDup rules descriptions b Hb) Hinb) as [v [Hv Hshape]].
        exists v. split.
        + intros contents' r0 H. injection H as <-. apply Hv.
        + destruct Hshape as [->|[a ->]]; [apply fallbackResult_wellFormed|].
          apply aiResult_wellFormed, checkedCategory_isCategory. }
    destruct Hv as [v [Hv Hwf]].
    destruct (secondPass_value OPENAI_API_KEY chat JSON_parse results0 items b item v)
      as [[_ H]|[H _]].
    + apply pending_NoDup.
    + apply first_results_pending.
    + exact Hb.
    + exact Hinb.
    + exact Hv.
    + exists v. split; [apply array_get_lookup, H | exact Hwf].
    + eexists. split; [apply array_get_lookup, H | apply fallbackResult_wellFormed].
Qed.

Lemma batchCategorize_entries_witness :
  exists r,
    batchCategorize (Some (js "sk-test")) coffeeChat coffeeParse []
                    [js "STARBUCKS"; js "sq *xyz  1234"] !! 1 = Some (Some r) /\
    wellFormed [] (normalizeMerchant (js "sq *xyz  1234")) r.
Proof.
  apply (batchCategorize_entries (Some (js "sk-test")) coffeeChat coffeeParse []
           [js "STARBUCKS"; js "sq *xyz  1234"] 1 (js "sq *xyz  1234")).
  reflexivity.
Defined.

(* ================================================================== *)
(** * Further properties of the rule store                              *)
(* ================================================================== *)

Import RuleStore.

Lemma startsWith_refl s : startsWith s s = true.
Proof. induction s as [|c s IH]; simpl; [reflexivity|]. now rewrite char_eqb_refl. Qed.

Lemma includes_refl s : includes s s = true.
Proof. destruct s; simpl; [reflexivity|]. now rewrite char_eqb_refl, startsWith_refl. Qed.

(** What [learnFromCorrection] does to the store: nothing, or one row
    appended whose pattern is the normalized merchant, of 3 to 50
    characters. *)
Lemma learnFromCorrection_store db description category createRule :
  let out := learnFromCorrection db description category createRule in
  (ruleCreated (fst out) = false /\ snd out = db) \/
  (ruleCreated (fst out) = true /\ createRule = true /\ reachable db = true /\
   3 <= length (normalizeMerchant description) <= 50 /\
   conflicts db (normalizeMerchant description) = false /\
   snd out = mkDb (category_rules db ++
                     [mkRule (next_id db) (normalizeMerchant description) category])
                  (S (next_id db)) (reachable db)).
Proof.
  cbv zeta. unfold learnFromCorrection, insertCategoryRule, conflicts.
  generalize (normalizeMerchant description). intros m.
  destruct createRule; [|left; split; reflexivity]. cbn [negb].
  destruct (Nat.ltb_spec (length m) 3) as [H3|H3]; [left; split; reflexivity|].
  destruct (Nat.ltb_spec 50 (length m)) as [H50|H50]; [left; split; reflexivity|].
  cbn [orb new_pattern new_category].
  destruct (reachable db) eqn:Er; [|left; split; reflexivity]. cbn [negb].
  destruct (existsb _ (category_rules db)) eqn:Ee; [left; split; reflexivity|].
  right. cbn [fst snd ruleCreated]. repeat split; try reflexivity; lia.
Qed.

(** X4.  A learned correction takes effect on the description it was
    learned from: once [learnFromCorrection] has created a rule, the rules
    the store returns (in the order of any collation) categorize that
    description by rule with confidence high, and with the corrected
    category when no older rule has a pattern that occurs in the merchant. *)
Theorem learned_rule_applies (pattern_le : jsstring -> jsstring -> bool)
    (db : Database) (description category : jsstring) :
  let out := learnFromCorrection db description category true in
  ruleCreated (fst out) = true ->
  exists rules r,
    getCategoryRules pattern_le (snd out) = inr rules /\
    categorizeByPattern rules description = Some r /\
    method r = rule /\ confidence r = high /\
    ((forall stored, In stored (category_rules db) ->
        containsIgnoringCase (normalizeMerchant description) (Schema.pattern stored) = false) ->
     Categorization.category r = category).
Proof.
  cbv zeta. intros Hcreated.
  destruct (learnFromCorrection_store db description category true)
    as [[H _]|[_ [_ [Hr [_ [_ Hdb]]]]]]; [congruence|].
  rewrite Hdb. unfold getCategoryRules. cbn [reachable category_rules]. rewrite Hr.
  cbn [negb].
  set (new := mkRule (next_id db) (normalizeMerchant description) category).
  set (rules := Number.sortBy (fun a b => pattern_le (Schema.pattern a) (Schema.pattern b))
                              (category_rules db ++ [new])).
  exists rules.
  assert (Hnew : In new rules).
  { unfold rules. apply sortBy_In, in_or_app. right. now left. }
  assert (Hm : ruleMatches (toUpperCase (normalizeMerchant description)) new = true).
  { unfold ruleMatches, new. cbn [Schema.pattern]. apply includes_refl. }
  destruct (find_ruleMatches_Some _ rules new Hnew Hm) as [r' [Hf [Hin' Hm']]].
  exists (mkResult (Schema.category r') high rule (normalizeMerchant description) None).
  split; [reflexivity|]. split.
  - unfold categorizeByPattern. cbv zeta. now rewrite Hf.
  - split; [reflexivity|]. split; [reflexivity|]. intros Hold.
    cbn [Categorization.category].
    unfold rules in Hin'. apply sortBy_In, in_app_or in Hin' as [Hin'|[<-|[]]];
      [|reflexivity].
    specialize (Hold r' Hin'). rewrite containsIgnoringCase_ruleMatches in Hold.
    congruence.
Qed.

Lemma learned_rule_applies_witness :
  exists rules r,
    getCategoryRules (fun _ _ => true)
      (snd (learnFromCorrection sampleDb (js "sq *blue bottle") (js "Coffee") true)) =
      inr rules /\
    categorizeByPattern rules (js "sq *blue bottle") = Some r /\
    method r = rule /\ confidence r = high /\
    ((forall stored, In stored (category_rules sampleDb) ->
        containsIgnoringCase (normalizeMerchant (js "sq *blue bottle"))
                             (Schema.pattern stored) = false) ->
     Categorization.category r = js "Coffee").
Proof.
  apply (learned_rule_applies (fun _ _ => true) sampleDb (js "sq *blue bottle")
                              (js "Coffee")).
  vm_compute. reflexivity.
Defined.

(** ** Seeding the default rules *)

Lemma conflicts_app db p extra n b :
  conflicts db p = true ->
  conflicts (mkDb (category_rules db ++ extra) n b) p = true.
Proof.
  unfold conflicts. cbn [category_rules]. rewrite existsb_app. now intros ->.
Qed.

Lemma insertOrIgnore_reachable db rule :
  reachable db = true ->
  exists db', insertOrIgnore db rule = inr db' /\ reachable db' = true /\
    (exists added, category_rules db' = category_rules db ++ added) /\
    (forall p, conflicts db p = true -> conflicts db' p = true) /\
    conflicts db' (new_pattern rule) = true /\
    (conflicts db (new_pattern rule) = true -> category_rules db' = category_rules db).
Proof.
  intros Hr. unfold insertOrIgnore. rewrite Hr. cbn [negb].
  fold (conflicts db (new_pattern rule)).
  destruct (conflicts db (new_pattern rule)) eqn:Ec.
  - eexists. split; [reflexivity|]. cbn [reachable category_rules].
    split; [reflexivity|]. split; [exists []; now rewrite app_nil_r|].
    split; [intros p Hp; exact Hp|]. split; [exact Ec | reflexivity].
  - eexists. split; [reflexivity|]. cbn [reachable category_rules].
    split; [reflexivity|]. split; [eexists; reflexivity|].
    split; [intros p Hp; now apply conflicts_app|].
    split; [|discriminate].
    unfold conflicts. cbn [category_rules]. rewrite existsb_app. cbn.
    now rewrite str_eqb_refl, orb_true_r.
Qed.

Lemma seedOne_inserted n db rule db' :
  insertOrIgnore db rule = inr db' -> seedOne (n, db) rule = (S n, db').
Proof. intros E. unfold seedOne. cbn [fst snd]. now rewrite E. Qed.

Lemma seedRules_reachable l n db :
  reachable db = true ->
  let out := fold_left seedOne l (n, db) in
  fst out = n + length l /\ reachable (snd out) = true /\
  (exists added, category_rules (snd out) = category_rules db ++ added) /\
  (forall p, conflicts db p = true -> conflicts (snd out) p = true) /\
  (forall rule, In rule l -> conflicts (snd out) (new_pattern rule) = true).
Proof.
  cbv zeta. revert n db. induction l as [|rule l IH]; intros n db Hr.
  - cbn. split; [lia|]. split; [exact Hr|]. split; [exists []; now rewrite app_nil_r|].
    split; [tauto | intros rule []].
  - cbn [fold_left].
    destruct (insertOrIgnore_reachable db rule Hr)
      as [db' [E [Hr' [[added Ha] [Hkeep [Hnew _]]]]]].
    rewrite (seedOne_inserted n db rule db' E).
    destruct (IH (S n) db' Hr') as [H1 [H2 [[added' H3] [H4 H5]]]].
    split; [rewrite H1; cbn [length]; lia|]. split; [exact H2|].
    split; [exists (added ++ added'); now rewrite H3, Ha, app_assoc|].
    split; [intros p Hp; now apply H4, Hkeep|].
    intros r [<-|Hin]; [now apply H4 | now apply H5].
Qed.

Lemma seedRules_present l n db :
  reachable db = true ->
  (forall rule, In rule l -> conflicts db (new_pattern rule) = true) ->
  category_rules (snd (fold_left seedOne l (n, db))) = category_rules db.
Proof.
  revert n db. induction l as [|rule l IH]; intros n db Hr Hall; [reflexivity|].
  cbn [fold_left].
  destruct (insertOrIgnore_reachable db rule Hr)
    as [db' [E [Hr' [_ [Hkeep [_ Hsame]]]]]].
  rewrite (seedOne_inserted n db rule db' E).
  rewrite IH; [apply Hsame, Hall; now left | exact Hr'|].
  intros r Hin. apply Hkeep, Hall. now right.
Qed.

Lemma seedRules_unreachable l n db :
  reachable db = false -> fold_left seedOne l (n, db) = (n, db).
Proof.
  intros Hr. induction l as [|rule l IH]; [reflexivity|].
  cbn [fold_left].
  replace (seedOne (n, db) rule) with (n, db); [exact IH|].
  unfold seedOne, insertOrIgnore. cbn [fst snd]. now rewrite Hr.
Qed.

(** X5.  Seeding the default rules is safe to repeat.  On a reachable
    store [seedCategoryRules] leaves every rule that was there as it is
    (a default pattern that is already taken keeps its category), adds
    rules at the end only, ends with a rule for each of the 35 default
    patterns, and a second run changes no rule; yet it returns 35 both
    times, since it counts the statements that did not throw and not the
    rows inserted.  On an unreachable store it returns 0 and changes
    nothing. *)
Theorem seedCategoryRules_repeatable (db : Database) :
  (reachable db = true ->
   let first := seedCategoryRules db in
   let second := seedCategoryRules (snd first) in
   fst first = 35 /\ fst second = 35 /\
   (exists added, category_rules (snd first) = category_rules db ++ added) /\
   (forall rule, In rule defaultRules ->
      exists r, In r (category_rules (snd first)) /\
                Schema.pattern r = new_pattern rule) /\
   category_rules (snd second) = category_rules (snd first)) /\
  (reachable db = false -> seedCategoryRules db = (0, db)).
Proof.
  split.
  - intros Hr. cbv zeta. unfold seedCategoryRules, seedRules.
    pose proof (seedRules_reachable defaultRules 0 db Hr) as H. cbv zeta in H.
    destruct (fold_left seedOne defaultRules (0, db)) as [n1 db1] eqn:E1.
    clear E1. cbn [fst snd] in *. destruct H as [H1 [H2 [H3 [_ H5]]]].
    pose proof (seedRules_reachable defaultRules 0 db1 H2) as H'. cbv zeta in H'.
    pose proof (seedRules_present defaultRules 0 db1 H2 H5) as Hp.
    destruct (fold_left seedOne defaultRules (0, db1)) as [n2 db2] eqn:E2.
    clear E2. cbn [fst snd] in *. destruct H' as [H1' _].
    split; [rewrite H1; reflexivity|]. split; [rewrite H1'; reflexivity|].
    split; [exact H3|]. split; [|exact Hp].
    intros rule Hin. specialize (H5 rule Hin). unfold conflicts in H5.
    apply existsb_exists in H5 as [r [Hr1 Hr2]]. apply str_eqb_eq in Hr2.
    exists r. split; assumption.
  - intros Hr. unfold seedCategoryRules, seedRules. now apply seedRules_unreachable.
Qed.

Lemma seedCategoryRules_repeatable_witness :
  let first := seedCategoryRules sampleDb in
  let second := seedCategoryRules (snd first) in
  fst first = 35 /\ fst second = 35 /\
  (exists added, category_rules (snd first) = category_rules sampleDb ++ added) /\
  (forall rule, In rule defaultRules ->
     exists r, In r (category_rules (snd first)) /\
               Schema.pattern r = new_pattern rule) /\
  category_rules (snd second) = category_rules (snd first).
Proof.
  apply (proj1 (seedCategoryRules_repeatable sampleDb)). reflexivity.
Defined.

(** ** The constraints of the rule table *)

Lemma conflicts_false_NoDup db p :
  conflicts db p = false -> ~ In p (map Schema.pattern (category_rules db)).
Proof.
  unfold conflicts. intros H Hin. apply in_map_iff in Hin as [r [<- Hr]].
  assert (existsb (fun r0 => str_eqb (Schema.pattern r0) (Schema.pattern r))
                  (category_rules db) = true).
  { apply existsb_exists. exists r. split; [exact Hr | apply str_eqb_refl]. }
  congruence.
Qed.

Lemma NoDup_snoc {A : Type} (l : list A) x :
  List.NoDup l -> ~ In x l -> List.NoDup (l ++ [x]).
Proof.
  induction l as [|a l IH]; intros Hnd Hx; simpl.
  - constructor; [intros [] | constructor].
  - apply List.NoDup_cons_iff in Hnd as [Ha Hnd]. constructor.
    + rewrite in_app_iff. simpl. intros [H|[H|[]]]; [tauto|]. subst. apply Hx. now left.
    + apply IH; [exact Hnd|]. intros H. apply Hx. now right.
Qed.

Lemma consistent_append db p c :
  consistent db -> conflicts db p = false ->
  consistent (mkDb (category_rules db ++ [mkRule (next_id db) p c])
                   (S (next_id db)) (reachable db)).
Proof.
  intros [Hid Hnd] Hc. split; cbn [category_rules next_id].
  - apply Forall_app. split.
    + eapply List.Forall_impl; [|exact Hid]. cbn. intros r Hr. lia.
    + constructor; [cbn; lia | constructor].
  - rewrite map_app. cbn [map Schema.pattern]. apply NoDup_snoc; [exact Hnd|].
    now apply conflicts_false_NoDup.
Qed.

Lemma consistent_skip db :
  consistent db -> consistent (mkDb (category_rules db) (S (next_id db)) (reachable db)).
Proof.
  intros [Hid Hnd]. split; cbn [category_rules next_id]; [|exact Hnd].
  eapply List.Forall_impl; [|exact Hid]. cbn. intros r Hr. lia.
Qed.

Lemma NoDup_map_filter {A B : Type} (f : A -> B) (p : A -> bool) l :
  List.NoDup (map f l) -> List.NoDup (map f (List.filter p l)).
Proof.
  induction l as [|a l IH]; simpl; [tauto|]. intros H.
  apply List.NoDup_cons_iff in H as [Ha Hnd]. destruct (p a); simpl; [|now apply IH].
  constructor; [|now apply IH]. intros Hin. apply Ha.
  apply in_map_iff in Hin as [x [Hx Hin]]. apply List.filter_In in Hin as [Hin _].
  apply in_map_iff. now exists x.
Qed.

Lemma insertOrIgnore_consistent db rule db' :
  consistent db -> insertOrIgnore db rule = inr db' -> consistent db'.
Proof.
  intros Hc. unfold insertOrIgnore. destruct (negb (reachable db)); [discriminate|].
  fold (conflicts db (new_pattern rule)).
  destruct (conflicts db (new_pattern rule)) eqn:E; intros H; injection H as <-.
  - now apply consistent_skip.
  - now apply consistent_append.
Qed.

Lemma seedRules_consistent l n db :
  consistent db -> consistent (snd (fold_left seedOne l (n, db))).
Proof.
  revert n db. induction l as [|rule l IH]; intros n db Hc; [exact Hc|].
  cbn [fold_left].
  destruct (insertOrIgnore db rule) as [e|db'] eqn:E.
  - replace (seedOne (n, db) rule) with (n, db); [now apply IH|].
    unfold seedOne. cbn [fst snd]. now rewrite E.
  - rewrite (seedOne_inserted n db rule db' E).
    apply IH. now apply (insertOrIgnore_consistent db rule).
Qed.

(** X6.  The writers of the rule table keep its constraints: when the ids
    come from the serial column and no pattern occurs twice, the same holds
    after [insertCategoryRule], [learnFromCorrection], [seedCategoryRules]
    and [deleteCategoryRule], whether they succeed or fail. *)
Theorem rule_writers_keep_constraints (db : Database) :
  consistent db ->
  (forall rule row db', insertCategoryRule db rule = inr (row, db') -> consistent db') /\
  (forall description category createRule,
     consistent (snd (learnFromCorrection db description category createRule))) /\
  consistent (snd (seedCategoryRules db)) /\
  (forall ruleId deleted db', deleteCategoryRule db ruleId = inr (deleted, db') ->
     consistent db').
Proof.
  intros Hc. split; [|split; [|split]].
  - intros rule row db'. unfold insertCategoryRule.
    destruct (negb (reachable db)); [discriminate|].
    fold (conflicts db (new_pattern rule)).
    destruct (conflicts db (new_pattern rule)) eqn:E; [discriminate|].
    intros H. injection H as _ <-. now apply consistent_append.
  - intros description category createRule.
    destruct (learnFromCorrection_store db description category createRule)
      as [[_ ->]|[_ [_ [_ [_ [Hn ->]]]]]]; [exact Hc | now apply consistent_append].
  - unfold seedCategoryRules, seedRules. now apply seedRules_consistent.
  - intros ruleId deleted db'. unfold deleteCategoryRule.
    destruct (negb (reachable db)); [discriminate|].
    intros H. injection H as _ <-. destruct Hc as [Hid Hnd].
    split; cbn [category_rules next_id].
    + rewrite List.Forall_forall in Hid |- *. intros r Hr.
      apply List.filter_In in Hr as [Hr _]. now apply Hid.
    + now apply NoDup_map_filter.
Qed.

Lemma rule_writers_keep_constraints_witness :
  consistent (snd (seedCategoryRules sampleDb)).
Proof.
  apply (proj1 (proj2 (proj2 (rule_writers_keep_constraints sampleDb
    ltac:(split; [repeat constructor | repeat constructor; intros []]))))).
Defined.

Lemma filter_id_absent (l : list CategoryRule) ruleId :
  (forall r, In r l -> Schema.id r <> ruleId) ->
  List.filter (fun r => negb (Schema.id r =? ruleId)) l = l /\
  List.filter (fun r => Schema.id r =? ruleId) l = [].
Proof.
  induction l as [|r l IH]; intros Hne; [split; reflexivity|].
  cbn [List.filter].
  assert (E : (Schema.id r =? ruleId) = false).
  { apply Nat.eqb_neq, Hne. now left. }
  rewrite E. cbn [negb].
  destruct IH as [IH1 IH2]; [intros x Hx; apply Hne; now right|].
  now rewrite IH1, IH2.
Qed.

(** X7.  Deleting undoes inserting: on a rule table whose ids come from
    the serial column, [deleteCategoryRule] applied to the id of the row
    [insertCategoryRule] returned reports a deletion and leaves the rules as
    they were before the insert; and deleting an id no rule has reports
    nothing deleted and leaves the rules as they are. *)
Theorem delete_undoes_insert (db : Database) :
  consistent db ->
  (forall rule row db', insertCategoryRule db rule = inr (row, db') ->
     exists db'', deleteCategoryRule db' (Schema.id row) = inr (true, db'') /\
                  category_rules db'' = category_rules db) /\
  (forall ruleId, reachable db = true ->
     (forall r, In r (category_rules db) -> Schema.id r <> ruleId) ->
     exists db', deleteCategoryRule db ruleId = inr (false, db') /\
                 category_rules db' = category_rules db).
Proof.
  intros [Hid _].
  pose proof (filter_id_absent (category_rules db)) as Hkeep.
  split.
  - intros rule row db'. unfold insertCategoryRule.
    destruct (reachable db) eqn:Er; [|discriminate]. cbn [negb].
    destruct (existsb _ (category_rules db)); [discriminate|].
    intros H. injection H as <- <-.
    unfold deleteCategoryRule. cbn [reachable category_rules next_id Schema.id negb].
    eexists. split.
    + f_equal. f_equal. rewrite List.filter_app. cbn [List.filter].
      rewrite Nat.eqb_refl.
      destruct (Hkeep (next_id db)) as [_ ->]; [|reflexivity].
      rewrite List.Forall_forall in Hid. intros r Hr. specialize (Hid r Hr). lia.
    + cbn [category_rules]. rewrite List.filter_app. cbn [List.filter].
      rewrite Nat.eqb_refl. cbn [negb]. rewrite app_nil_r.
      apply Hkeep. rewrite List.Forall_forall in Hid.
      intros r Hr. specialize (Hid r Hr). lia.
  - intros ruleId Hr Hne. unfold deleteCategoryRule. rewrite Hr. cbn [negb].
    destruct (Hkeep ruleId Hne) as [H1 H2]. rewrite H1, H2. eexists.
    split; reflexivity.
Qed.

Lemma delete_undoes_insert_witness :
  exists db'',
    deleteCategoryRule
      (mkDb [mkRule 0 (js "STARBUCKS") (js "Coffee"); mkRule 1 (js "PEET") (js "Coffee")]
            2 true) 1 = inr (true, db'') /\
    category_rules db'' = category_rules sampleDb.
Proof.
  apply (proj1 (delete_undoes_insert sampleDb
                  ltac:(split; [repeat constructor | repeat constructor; intros []]))
           (mkNewRule (js "PEET") (js "Coffee"))
           (mkRule 1 (js "PEET") (js "Coffee"))).
  reflexivity.
Defined.

(** ** The learn_category tool *)

Import Text LearnTool.

(** X8.  The [learn_category] tool never stores a rule for a category
    outside [CATEGORIES].  A category that matches none of them, ignoring
    case, is refused and the store is left as it is.  Otherwise the payload
    names the category in the spelling of [CATEGORIES], and the store is
    either unchanged or has one more rule, which maps the normalized
    merchant of the description (3 to 50 characters) to that category. *)
Theorem learn_category_tool_guard (db : Database) (description category : jsstring) :
  let out := createLearnCategoryTool db description category in
  ((forall c, In c CATEGORIES -> toLowerCase c <> toLowerCase category) ->
   learn_success (fst out) = false /\ snd out = db) /\
  ((exists c, In c CATEGORIES /\ toLowerCase c = toLowerCase category) ->
   learn_success (fst out) = true /\
   exists c, In c CATEGORIES /\ toLowerCase c = toLowerCase category /\
             learn_category (fst out) = Some c) /\
  (category_rules (snd out) = category_rules db \/
   exists c, In c CATEGORIES /\ toLowerCase c = toLowerCase category /\
             3 <= length (normalizeMerchant description) <= 50 /\
             learn_category (fst out) = Some c /\
             category_rules (snd out) =
               category_rules db ++
               [mkRule (next_id db) (normalizeMerchant description) c]).
Proof.
  cbv zeta. unfold createLearnCategoryTool, findCategory.
  destruct (find _ CATEGORIES) as [c|] eqn:Ef.
  - apply find_some in Ef as [Hin Heq]. apply str_eqb_eq in Heq.
    pose proof (learnFromCorrection_store db description c true) as Hs.
    cbv zeta in Hs.
    destruct (learnFromCorrection db description c true) as [result db'].
    cbn [fst snd learn_success learn_category] in *.
    split; [intros Hno; now destruct (Hno c Hin)|].
    split; [intros _; split; [reflexivity | now exists c]|].
    destruct Hs as [[_ ->]|[_ [_ [_ [Hlen [_ ->]]]]]]; [now left|].
    right. exists c. cbn [category_rules]. repeat split; try assumption; apply Hlen.
  - cbn [fst snd learn_success learn_category].
    split; [intros _; split; reflexivity|]. split; [|now left].
    intros [c [Hin Heq]].
    pose proof (find_none _ _ Ef c Hin) as Hc. cbn beta in Hc.
    rewrite Heq, str_eqb_refl in Hc. discriminate.
Qed.

Lemma learn_category_tool_guard_witness :
  let out := createLearnCategoryTool sampleDb (js "sq *blue bottle") (js "COFFEE") in
  learn_success (fst out) = true /\
  exists c, In c CATEGORIES /\ toLowerCase c = toLowerCase (js "COFFEE") /\
            learn_category (fst out) = Some c.
Proof.
  apply (proj1 (proj2 (learn_category_tool_guard sampleDb (js "sq *blue bottle")
                         (js "COFFEE")))).
  exists (js "Coffee"). split; [vm_compute; tauto | reflexivity].
Defined.

(* ================================================================== *)
(** * Further properties of the retrieval layer                         *)
(* ================================================================== *)

Import Retrieval.

Lemma contextDocTypes_no_schema options t :
  In t (contextDocTypes options) -> t <> schema.
Proof.
  unfold contextDocTypes.
  destruct (default true (includeTransactions options)),
           (default true (includeCategoryRules options)),
           (default true (includeExamples options)); cbn;
    intuition (subst; discriminate).
Qed.

Lemma join_cons_nonempty sep (x : jsstring) l : x <> [] -> join sep (x :: l) <> [].
Proof.
  intros Hx. destruct l as [|y l]; cbn [join]; [exact Hx|].
  destruct x as [|c x]; [congruence | discriminate].
Qed.

Lemma context_nonempty r0 rest : join newline (imap contextPart (r0 :: rest)) <> [].
Proof.
  change (imap contextPart (r0 :: rest))
    with (contextPart 0 r0 :: imap (compose contextPart S) rest).
  apply join_cons_nonempty. discriminate.
Qed.

(** What [retrieveContext] returns over a search whose results are
    selected as [searchSimilar] promises. *)
Lemma retrieveContext_selects
    (search : jsstring -> jsstring -> SearchOptions -> option (list SearchResult))
    user query options context sources :
  (forall o results, search user query o = Some results -> selects user o results) ->
  retrieveContext search user query options = Some (context, sources) ->
  (forall r, In r sources ->
     userId (document r) = user /\ geq (score r) contextMinScore = true) /\
  descending sources /\
  (contextDocTypes options <> [] ->
   forall r, In r sources ->
     In (docType (document r)) (contextDocTypes options) /\
     docType (document r) <> schema) /\
  (context = [] <-> sources = []).
Proof.
  intros Hsel. unfold retrieveContext. cbv zeta.
  destruct (search user query _) as [results|] eqn:Es; [|discriminate].
  apply Hsel in Es. destruct Es as [Hu [Ht [Hs Hd]]].
  cbn [topK minScore docTypes default] in Hu, Ht, Hs, Hd.
  assert (Hall : (forall r, In r results ->
                    userId (document r) = user /\ geq (score r) contextMinScore = true) /\
                 descending results /\
                 (contextDocTypes options <> [] ->
                  forall r, In r results ->
                    In (docType (document r)) (contextDocTypes options) /\
                    docType (document r) <> schema)).
  { split; [intros r Hr; split; [now apply Hu | now apply Hs]|].
    split; [exact Hd|]. intros Hne r Hr.
    destruct (contextDocTypes options) as [|t ts] eqn:Ec; [congruence|].
    assert (Hin : In (docType (document r)) (t :: ts)) by now apply (Ht t ts).
    split; [exact Hin|]. apply (contextDocTypes_no_schema options). now rewrite Ec. }
  destruct results as [|r0 rest].
  - cbn [length Nat.eqb]. intros H. injection H as <- <-.
    destruct Hall as [H2 [H3 H4]].
    split; [exact H2|]. split; [exact H3|]. split; [exact H4|].
    split; reflexivity.
  - change (length (r0 :: rest) =? 0) with false. cbv iota.
    intros H. injection H as <- <-.
    destruct Hall as [H2 [H3 H4]].
    split; [exact H2|]. split; [exact H3|]. split; [exact H4|].
    split; [|discriminate]. intros Hc. exfalso. exact (context_nonempty r0 rest Hc).
Qed.

(** The sources are the results of the search. *)
Lemma retrieveContext_sources
    (search : jsstring -> jsstring -> SearchOptions -> option (list SearchResult))
    user query options :
  option_map snd (retrieveContext search user query options) =
  search user query (mkOptions (Some (default (Num 5) (context_topK options)))
                               (Some (contextDocTypes options)) (Some contextMinScore)).
Proof.
  unfold retrieveContext. cbv zeta.
  destruct (search user query _) as [[|r rest]|]; reflexivity.
Qed.

(** X9.  [retrieveContext] over the SQLite store returns sources that are
    all of the given user, all with a score of at least 0.4, in descending
    order of score, and at most [topK] of them when [topK] is absent (then
    it is 5) or not negative; when some include flag is on, every source has
    one of the types the flags select and none is a schema document; the
    context text is empty exactly when there are no sources.  When the
    three flags are off, the sources are those of a search without any
    type filter, so documents of every type can come back. *)
Theorem retrieveContext_contract
    (embedText : jsstring -> option (list number))
    (cosine : list number -> list number -> number)
    (table : list Row) (user query : jsstring) (options : ContextOptions) :
  let sqlite := VectorStore.searchSimilar embedText cosine table in
  let limit := default (Num 5) (context_topK options) in
  (forall context sources,
     retrieveContext sqlite user query options = Some (context, sources) ->
     (geq limit (Num 0) = true -> atMost (length sources) limit) /\
     (forall r, In r sources ->
        userId (document r) = user /\ geq (score r) contextMinScore = true) /\
     descending sources /\
     (contextDocTypes options <> [] ->
      forall r, In r sources ->
        In (docType (document r)) (contextDocTypes options) /\
        docType (document r) <> schema) /\
     (context = [] <-> sources = [])) /\
  (contextDocTypes options = [] ->
   option_map snd (retrieveContext sqlite user query options) =
     sqlite user query (mkOptions (Some limit) None (Some contextMinScore))).
Proof.
  cbv zeta. split.
  - intros context sources H. split.
    + intros Hk.
      pose proof (retrieveContext_sources (VectorStore.searchSimilar embedText cosine table)
                    user query options) as Hs.
      rewrite H in Hs. cbn [option_map snd] in Hs. symmetry in Hs.
      exact (sqlite_search_atMost _ _ _ _ _ _ _ Hs Hk).
    + apply (retrieveContext_selects (VectorStore.searchSimilar embedText cosine table)
               user query options context sources); [|exact H].
      intros o results. apply sqlite_search_selects.
  - intros Hnone. rewrite retrieveContext_sources, Hnone. reflexivity.
Qed.

Lemma retrieveContext_contract_witness :
  option_map snd
    (retrieveContext (VectorStore.searchSimilar sampleEmbed sampleCosine sampleTable)
                     (js "user_42") (js "coffee")
                     (mkContextOptions None (Some false) (Some false) (Some false))) =
    VectorStore.searchSimilar sampleEmbed sampleCosine sampleTable (js "user_42")
      (js "coffee") (mkOptions (Some (Num 5)) None (Some contextMinScore)).
Proof.
  apply (proj2 (retrieveContext_contract sampleEmbed sampleCosine
                  sampleTable (js "user_42") (js "coffee")
                  (mkContextOptions None (Some false) (Some false) (Some false)))).
  reflexivity.
Defined.

(* ================================================================== *)
(** * Further properties of the vector store                            *)
(* ================================================================== *)

Import PgVectorDocuments.

Lemma sameKey_spec u t k r : sameKey u t k r = true <-> rowKey r = (u, t, k).
Proof.
  unfold sameKey, rowKey. rewrite !andb_true_iff, !str_eqb_eq. split.
  - intros [[-> Ht] ->]. apply DocumentType_eqb_eq in Ht. now subst t.
  - intros H. injection H as <- <- <-.
    split; [split; [reflexivity | now destruct (doc_type r)] | reflexivity].
Qed.

Lemma find_head_filter {A : Type} (p : A -> bool) l : find p l = head (List.filter p l).
Proof.
  induction l as [|a l IH]; [reflexivity|]. cbn [find List.filter].
  destruct (p a); [reflexivity | exact IH].
Qed.

Lemma filter_none {A : Type} (p : A -> bool) l : find p l = None -> List.filter p l = [].
Proof.
  rewrite find_head_filter. now destruct (List.filter p l).
Qed.

Lemma filter_unique_key u t k rows old :
  keysUnique rows -> find (sameKey u t k) rows = Some old ->
  List.filter (sameKey u t k) rows = [old].
Proof.
  unfold keysUnique. induction rows as [|r rows IH]; [discriminate|].
  cbn [map find List.filter]. intros Hnd.
  apply List.NoDup_cons_iff in Hnd as [Hr Hnd].
  destruct (sameKey u t k r) eqn:E.
  - intros H. injection H as ->. f_equal.
    destruct (List.filter (sameKey u t k) rows) as [|r' l] eqn:Ef; [reflexivity|].
    exfalso. apply Hr.
    assert (Hin : In r' (List.filter (sameKey u t k) rows)) by (rewrite Ef; now left).
    apply List.filter_In in Hin as [Hin Hk].
    apply sameKey_spec in E, Hk. rewrite E, <- Hk. now apply in_map.
  - now apply IH.
Qed.

Lemma filter_replaced {A : Type} (p : A -> bool) (x : A) l :
  p x = true ->
  List.filter p (map (fun r => if p r then x else r) l) =
  map (fun _ => x) (List.filter p l).
Proof.
  intros Hx. induction l as [|a l IH]; [reflexivity|]. cbn [map List.filter].
  destruct (p a) eqn:Ea.
  - rewrite Hx. cbn [map]. now rewrite IH.
  - rewrite Ea. exact IH.
Qed.

Lemma filter_not_replaced {A : Type} (p q : A -> bool) (x : A) l :
  q x = false -> (forall r, p r = true -> q r = false) ->
  List.filter q (map (fun r => if p r then x else r) l) = List.filter q l.
Proof.
  intros Hx Hpq. induction l as [|a l IH]; [reflexivity|]. cbn [map List.filter].
  destruct (p a) eqn:Ea.
  - rewrite Hx, (Hpq a Ea). exact IH.
  - destruct (q a); now rewrite IH.
Qed.

Lemma map_replace_same {A : Type} (p : A -> bool) (x : A) l :
  (forall r, In r l -> p r = true -> r = x) ->
  map (fun r => if p r then x else r) l = l.
Proof.
  induction l as [|a l IH]; intros H; [reflexivity|]. cbn [map].
  rewrite IH by (intros r Hr; apply H; now right).
  destruct (p a) eqn:Ea; [|reflexivity]. now rewrite (H a (or_introl eq_refl) Ea).
Qed.

Lemma keys_replaced u t k (row : Row) l :
  rowKey row = (u, t, k) ->
  map rowKey (map (fun r => if sameKey u t k r then row else r) l) = map rowKey l.
Proof.
  intros Hrow. induction l as [|a l IH]; [reflexivity|]. cbn [map]. rewrite IH.
  destruct (sameKey u t k a) eqn:Ea; [|reflexivity].
  apply sameKey_spec in Ea. now rewrite Hrow, Ea.
Qed.

Section Upserts.

Variable embedText : jsstring -> option (list number).
Variable toVector : list number -> option (list number).
Variable JSON_stringify : JSON -> jsstring.

(** An upsert changes rows of its own key only. *)
Lemma upsertDocument_other store u t s text metadata rowId store' (p : Row -> bool) :
  upsertDocument embedText toVector JSON_stringify store u t s text metadata =
    Some (rowId, store') ->
  (forall r, sameKey u t (sourceKey s) r = true -> p r = false) ->
  List.filter p (rows store') = List.filter p (rows store).
Proof.
  unfold upsertDocument.
  destruct (embedText text) as [e|]; [|discriminate].
  destruct (negb (available store)); [discriminate|].
  destruct (toVector e) as [v|]; [|discriminate]. cbv zeta.
  destruct (find (sameKey u t (sourceKey s)) (rows store)) as [old|] eqn:Ef;
    intros H Hp; injection H as <- <-; cbn [rows].
  - apply filter_not_replaced; [|exact Hp]. apply Hp. now apply sameKey_spec.
  - rewrite List.filter_app. cbn [List.filter].
    rewrite Hp by now apply sameKey_spec. apply app_nil_r.
Qed.

(** What a successful upsert leaves in the table. *)
Lemma upsertDocument_rows store u t s text metadata rowId store' :
  keysUnique (rows store) ->
  upsertDocument embedText toVector JSON_stringify store u t s text metadata =
    Some (rowId, store') ->
  exists e v,
    embedText text = Some e /\ toVector e = Some v /\ available store = true /\
    let row := mkRow rowId u t (sourceKey s) text v (JSON_stringify metadata) in
    List.filter (sameKey u t (sourceKey s)) (rows store') = [row] /\
    keysUnique (rows store') /\ available store' = true /\
    (forall p : Row -> bool,
       (forall r, sameKey u t (sourceKey s) r = true -> p r = false) ->
       List.filter p (rows store') = List.filter p (rows store)) /\
    length (rows store') =
      length (rows store) +
      (if existsb (sameKey u t (sourceKey s)) (rows store) then 0 else 1).
Proof.
  intros Hnd. unfold upsertDocument.
  destruct (embedText text) as [e|] eqn:Ee; [|discriminate].
  destruct (available store) eqn:Ea; [|discriminate]. cbn [negb].
  destruct (toVector e) as [v|] eqn:Ev; [|discriminate]. cbv zeta.
  set (k := sourceKey s).
  destruct (find (sameKey u t k) (rows store)) as [old|] eqn:Ef.
  - intros H. injection H as <- <-. exists e, v.
    split; [reflexivity|]. split; [exact Ev|]. split; [reflexivity|].
    cbv zeta. cbn [rows available].
    set (row := mkRow (row_id old) u t k text v (JSON_stringify metadata)).
    assert (Hrow : sameKey u t k row = true) by (apply sameKey_spec; reflexivity).
    split.
    { rewrite (filter_replaced (sameKey u t k) row _ Hrow).
      now rewrite (filter_unique_key u t k (rows store) old Hnd Ef). }
    split.
    { unfold keysUnique. rewrite keys_replaced; [exact Hnd | reflexivity]. }
    split; [reflexivity|]. split.
    { intros p Hp. apply filter_not_replaced; [now apply Hp | exact Hp]. }
    rewrite length_map.
    assert (He : existsb (sameKey u t k) (rows store) = true).
    { apply existsb_exists. apply find_some in Ef. now exists old. }
    rewrite He. lia.
  - intros H. injection H as <- <-. exists e, v.
    split; [reflexivity|]. split; [exact Ev|]. split; [reflexivity|].
    cbv zeta. cbn [rows available].
    set (row := mkRow (next_row_id store) u t k text v (JSON_stringify metadata)).
    assert (Hrow : sameKey u t k row = true) by (apply sameKey_spec; reflexivity).
    split.
    { rewrite List.filter_app, (filter_none _ _ Ef). cbn [List.filter app].
      now rewrite Hrow. }
    split.
    { unfold keysUnique. rewrite map_app. cbn [map]. apply NoDup_snoc; [exact Hnd|].
      intros Hin. apply in_map_iff in Hin as [r [Hk Hr]].
      pose proof (find_none _ _ Ef r Hr) as Hno. cbn beta in Hno.
      assert (sameKey u t k r = true) by (apply sameKey_spec; exact Hk). congruence. }
    split; [reflexivity|]. split.
    { intros p Hp. rewrite List.filter_app. cbn [List.filter].
      rewrite (Hp row Hrow). apply app_nil_r. }
    rewrite length_app. cbn [length].
    assert (He : existsb (sameKey u t k) (rows store) = false).
    { destruct (existsb _ (rows store)) eqn:E; [|reflexivity].
      apply existsb_exists in E as [r [Hr Hk]].
      pose proof (find_none _ _ Ef r Hr) as Hno. cbn beta in Hno. congruence. }
    now rewrite He.
Qed.

(** An upsert on a key that is taken keeps the id of its row and adds no
    row. *)
Lemma upsertDocument_conflict store u t s text metadata rowId store' old :
  find (sameKey u t (sourceKey s)) (rows store) = Some old ->
  upsertDocument embedText toVector JSON_stringify store u t s text metadata =
    Some (rowId, store') ->
  rowId = row_id old /\ length (rows store') = length (rows store).
Proof.
  intros Hf. unfold upsertDocument.
  destruct (embedText text) as [e|]; [|discriminate].
  destruct (negb (available store)); [discriminate|].
  destruct (toVector e) as [v|]; [|discriminate]. cbv zeta. rewrite Hf.
  intros H. injection H as <- <-. cbn [rows]. now rewrite length_map.
Qed.

End Upserts.

(** X11.  A successful [upsertDocument] leaves exactly one document
    with the key (user, type, [String(sourceId)]): it carries the text, the
    metadata and the stored embedding of the text, and its id is the one
    returned.  No other document changes, the unique index still holds
    and the table grows by one row only when the key was new.  Every later
    upsert on the same key that succeeds, with whatever text, metadata and
    embedding, returns the same id and adds no row. *)
Theorem upsertDocument_stores
    (embedText : jsstring -> option (list number))
    (toVector : list number -> option (list number))
    (JSON_stringify : JSON -> jsstring)
    (store : Store) (u : jsstring) (t : DocumentType)
    (s : SourceId) (text : jsstring) (metadata : JSON) (rowId : nat) (store' : Store) :
  keysUnique (rows store) ->
  upsertDocument embedText toVector JSON_stringify store u t s text metadata =
    Some (rowId, store') ->
  (exists e v,
     embedText text = Some e /\ toVector e = Some v /\
     List.filter (sameKey u t (sourceKey s)) (rows store') =
       [mkRow rowId u t (sourceKey s) text v (JSON_stringify metadata)]) /\
  List.filter (fun r => negb (sameKey u t (sourceKey s) r)) (rows store') =
    List.filter (fun r => negb (sameKey u t (sourceKey s) r)) (rows store) /\
  keysUnique (rows store') /\
  length (rows store') =
    length (rows store) +
    (if existsb (sameKey u t (sourceKey s)) (rows store) then 0 else 1) /\
  (forall embedText' toVector' JSON_stringify' text' metadata' rowId' store'',
     upsertDocument embedText' toVector' JSON_stringify' store' u t s text' metadata' =
       Some (rowId', store'') ->
     rowId' = rowId /\ length (rows store'') = length (rows store')).
Proof.
  intros Hnd Hup.
  destruct (upsertDocument_rows embedText toVector JSON_stringify
              store u t s text metadata rowId store' Hnd Hup)
    as [e [v [He [Hv [_ H]]]]].
  cbv zeta in H. destruct H as [Hrow [Hnd' [Ha' [Hother Hlen]]]].
  split; [exists e, v; repeat split; assumption|].
  split.
  { apply Hother. intros r Hr. now rewrite Hr. }
  split; [exact Hnd'|]. split; [exact Hlen|].
  intros embedText' toVector' JSON_stringify' text' metadata' rowId' store'' Hup'.
  assert (Hf : find (sameKey u t (sourceKey s)) (rows store') =
               Some (mkRow rowId u t (sourceKey s) text v (JSON_stringify metadata))).
  { rewrite find_head_filter, Hrow. reflexivity. }
  exact (upsertDocument_conflict embedText' toVector' JSON_stringify'
           store' u t s text' metadata' rowId' store'' _ Hf Hup').
Qed.

Import Examples.

Lemma sampleStore_unique : keysUnique (rows sampleStore).
Proof.
  unfold keysUnique. cbn [rows sampleStore sampleTable map rowKey user_id doc_type source_id].
  repeat (constructor; [cbn [In]; intuition discriminate|]). constructor.
Qed.

Lemma upsertDocument_stores_witness :
  keysUnique (rows afterUpdate) /\
  length (rows afterUpdate) =
    length (rows sampleStore) +
    (if existsb (sameKey (js "user_42") Schema.transaction (sourceKey (SourceNumber 17)))
                (rows sampleStore) then 0 else 1).
Proof.
  pose proof (upsertDocument_stores sampleEmbed sampleToVector sampleStringify sampleStore
                (js "user_42") Schema.transaction (SourceNumber 17) (js "coffee at PEETS")
                JNull 1 afterUpdate sampleStore_unique eq_refl) as H.
  split; [exact (proj1 (proj2 (proj2 H))) | exact (proj1 (proj2 (proj2 (proj2 H))))].
Defined.

Lemma filter_all {A : Type} (p : A -> bool) l :
  (forall r, In r l -> p r = true) -> List.filter p l = l.
Proof.
  induction l as [|a l IH]; intros H; [reflexivity|]. cbn [List.filter].
  rewrite (H a (or_introl eq_refl)), IH; [reflexivity|].
  intros r Hr. apply H. now right.
Qed.

Lemma filter_nothing {A : Type} (p : A -> bool) l :
  (forall r, In r l -> p r = false) -> List.filter p l = [].
Proof.
  induction l as [|a l IH]; intros H; [reflexivity|]. cbn [List.filter].
  rewrite (H a (or_introl eq_refl)). apply IH. intros r Hr. apply H. now right.
Qed.

Lemma filter_filter_disjoint {A : Type} (p q : A -> bool) l :
  (forall r, q r = true -> p r = false) ->
  List.filter q (List.filter (fun r => negb (p r)) l) = List.filter q l.
Proof.
  intros H. induction l as [|a l IH]; [reflexivity|]. cbn [List.filter].
  destruct (p a) eqn:Ea; cbn [negb List.filter].
  - destruct (q a) eqn:Eq; [|exact IH]. rewrite (H a Eq) in Ea. discriminate.
  - destruct (q a); now rewrite IH.
Qed.

(** X12.  Deleting undoes upserting: after a document with a new key
    has been upserted, [deleteDocument] with a source id of the same text
    (the number 17 and the text "17" are the same source id) reports a
    deletion and leaves the rows as they were before the upsert; and
    deleting a key no document has reports nothing deleted and changes no
    row. *)
Theorem delete_undoes_upsert
    (embedText : jsstring -> option (list number))
    (toVector : list number -> option (list number))
    (JSON_stringify : JSON -> jsstring)
    (store : Store) (u : jsstring) (t : DocumentType) (s s' : SourceId) :
  keysUnique (rows store) ->
  existsb (sameKey u t (sourceKey s)) (rows store) = false ->
  sourceKey s' = sourceKey s ->
  (forall text metadata rowId store',
     upsertDocument embedText toVector JSON_stringify store u t s text metadata =
       Some (rowId, store') ->
     exists store'', deleteDocument store' u t s' = Some (true, store'') /\
                     rows store'' = rows store) /\
  (available store = true ->
   exists store', deleteDocument store u t s' = Some (false, store') /\
                  rows store' = rows store).
Proof.
  intros Hnd Hnew Hs.
  assert (Hfalse : forall r, In r (rows store) -> sameKey u t (sourceKey s) r = false).
  { intros r Hr. destruct (sameKey u t (sourceKey s) r) eqn:E; [|reflexivity].
    assert (existsb (sameKey u t (sourceKey s)) (rows store) = true)
      by (apply existsb_exists; now exists r). congruence. }
  split.
  - intros text metadata rowId store' Hup.
    destruct (upsertDocument_rows embedText toVector JSON_stringify store u t s text
                metadata rowId store' Hnd Hup) as [e [v [_ [_ [_ H]]]]].
    cbv zeta in H. destruct H as [Hrow [_ [Ha [Hother _]]]].
    unfold deleteDocument. rewrite Ha, Hs, Hrow. cbn [negb length Nat.ltb Nat.leb].
    eexists. split; [reflexivity|]. cbn [rows].
    rewrite (Hother (fun r => negb (sameKey u t (sourceKey s) r)))
      by (intros r Hr; now rewrite Hr).
    apply filter_all. intros r Hr. now rewrite (Hfalse r Hr).
  - intros Ha. unfold deleteDocument. rewrite Ha, Hs. cbn [negb].
    rewrite (filter_nothing _ _ Hfalse). eexists. split; [reflexivity|]. cbn [rows].
    apply filter_all. intros r Hr. now rewrite (Hfalse r Hr).
Qed.

Lemma delete_undoes_upsert_witness :
  exists store'',
    deleteDocument afterInsert (js "user_42") Schema.transaction (SourceText (js "99")) =
      Some (true, store'') /\
    rows store'' = rows sampleStore.
Proof.
  apply (proj1 (delete_undoes_upsert sampleEmbed sampleToVector sampleStringify
                  sampleStore (js "user_42") Schema.transaction (SourceNumber 99)
                  (SourceText (js "99")) sampleStore_unique eq_refl eq_refl)
           (js "coffee at PEETS") JNull 5 afterInsert eq_refl).
Defined.

Lemma selected_user v types r : selected v types r = true -> user_id r = v.
Proof. intros H. now apply selected_sound in H. Qed.

(** X13.  [deleteUserDocuments] returns the number of documents the
    user had, which is what [getDocumentCount] reported; afterwards the
    user has no document left and the count of the user is 0 for every
    type, while the documents and the counts of every other user are the
    same as before. *)
Theorem deleteUserDocuments_empties (store : Store) (u : jsstring) (n : nat)
    (store' : Store) :
  deleteUserDocuments store u = Some (n, store') ->
  getDocumentCount store u None = Some n /\
  (forall docType, getDocumentCount store' u docType = Some 0) /\
  (forall types, visibleTo u types (rows store') = []) /\
  (forall v, v <> u ->
     (forall types, visibleTo v types (rows store') = visibleTo v types (rows store)) /\
     (forall docType,
        getDocumentCount store' v docType = getDocumentCount store v docType)).
Proof.
  unfold deleteUserDocuments, getDocumentCount.
  destruct (negb (available store)) eqn:Ea; [discriminate|].
  intros H. injection H as <- <-. cbn [rows available]. rewrite Ea.
  assert (Hgone : forall r,
            In r (List.filter (fun r => negb (str_eqb (user_id r) u)) (rows store)) ->
            str_eqb (user_id r) u = false).
  { intros r Hr. apply List.filter_In in Hr as [_ Hr]. now apply negb_true_iff in Hr. }
  split; [reflexivity|]. split.
  { intros [docType|]; f_equal; rewrite filter_nothing; try reflexivity;
      intros r Hr; now rewrite (Hgone r Hr). }
  split.
  { intros types. apply filter_nothing. intros r Hr. unfold selected.
    now rewrite (Hgone r Hr). }
  intros v Hv.
  assert (Hkept : forall p : Row -> bool,
            (forall r, p r = true -> user_id r = v) ->
            List.filter p (List.filter (fun r => negb (str_eqb (user_id r) u)) (rows store)) =
            List.filter p (rows store)).
  { intros p Hp. apply filter_filter_disjoint. intros r Hr. apply Hp in Hr.
    destruct (str_eqb (user_id r) u) eqn:E; [|reflexivity].
    apply str_eqb_eq in E. congruence. }
  split.
  - intros types. unfold visibleTo. apply Hkept. intros r. apply selected_user.
  - intros [docType|]; f_equal; f_equal; apply Hkept; intros r Hr.
    + apply andb_prop in Hr as [Hr _]. now apply str_eqb_eq.
    + now apply str_eqb_eq.
Qed.

Lemma deleteUserDocuments_empties_witness :
  getDocumentCount sampleStore (js "user_42") None = Some 3 /\
  getDocumentCount afterDeleteUser (js "user_7") (Some Schema.transaction) =
    getDocumentCount sampleStore (js "user_7") (Some Schema.transaction).
Proof.
  pose proof (deleteUserDocuments_empties sampleStore (js "user_42") 3 afterDeleteUser
                eq_refl) as H.
  split; [exact (proj1 H)|].
  exact (proj2 (proj2 (proj2 (proj2 H)) (js "user_7") ltac:(discriminate))
               (Some Schema.transaction)).
Defined.

Lemma upsertDocument_available embedText toVector JSON_stringify
    store u t s text metadata rowId store' :
  upsertDocument embedText toVector JSON_stringify store u t s text metadata =
    Some (rowId, store') ->
  available store' = available store.
Proof.
  unfold upsertDocument.
  destruct (embedText text) as [e|]; [|discriminate].
  destruct (negb (available store)); [discriminate|].
  destruct (toVector e) as [v|]; [|discriminate]. cbv zeta.
  destruct (find _ _); intros H; injection H as _ <-; reflexivity.
Qed.

(** X14.  Writes of one user never change the documents of another:
    after [upsertDocument], [deleteDocument] or [deleteUserDocuments] on
    behalf of [u], the rows of any other user (of any requested types) are
    the same as before, and so is every document count of that user. *)
Theorem writes_stay_with_their_user
    (embedText : jsstring -> option (list number))
    (toVector : list number -> option (list number))
    (JSON_stringify : JSON -> jsstring)
    (store store' : Store) (u v : jsstring) :
  v <> u ->
  (exists t s text metadata rowId,
     upsertDocument embedText toVector JSON_stringify store u t s text metadata =
       Some (rowId, store')) \/
  (exists t s deleted, deleteDocument store u t s = Some (deleted, store')) \/
  (exists n, deleteUserDocuments store u = Some (n, store')) ->
  (forall types, visibleTo v types (rows store') = visibleTo v types (rows store)) /\
  (forall docType, getDocumentCount store' v docType = getDocumentCount store v docType).
Proof.
  intros Hv Hwrite.
  assert (Hkept : forall p : Row -> bool,
            (forall r, p r = true -> user_id r = v) ->
            List.filter p (rows store') = List.filter p (rows store) /\
            available store' = available store).
  { intros p Hp.
    assert (Hother : forall k t r, sameKey u t k r = true -> p r = false).
    { intros k t r Hr. apply sameKey_spec in Hr. unfold rowKey in Hr.
      injection Hr as Hr _ _. destruct (p r) eqn:E; [|reflexivity].
      apply Hp in E. congruence. }
    destruct Hwrite as [[t [s [text [metadata [rowId Hup]]]]]
                       |[[t [s [deleted Hdel]]]|[n Hdel]]].
    - split.
      + apply (upsertDocument_other embedText toVector JSON_stringify store u t s text
                 metadata rowId store' _ Hup). apply Hother.
      + exact (upsertDocument_available _ _ _ _ _ _ _ _ _ _ _ Hup).
    - unfold deleteDocument in Hdel.
      destruct (negb (available store)); [discriminate|].
      injection Hdel as _ <-. cbn [rows available]. split; [|reflexivity].
      apply filter_filter_disjoint.
      intros r Hr. destruct (sameKey u t (sourceKey s) r) eqn:E; [|reflexivity].
      rewrite (Hother _ _ _ E) in Hr. discriminate.
    - unfold deleteUserDocuments in Hdel.
      destruct (negb (available store)); [discriminate|].
      injection Hdel as _ <-. cbn [rows available]. split; [|reflexivity].
      apply filter_filter_disjoint. intros r Hr. apply Hp in Hr.
      destruct (str_eqb (user_id r) u) eqn:E; [|reflexivity].
      apply str_eqb_eq in E. congruence. }
  split.
  - intros types. unfold visibleTo. apply Hkept. intros r. apply selected_user.
  - intros docType. unfold getDocumentCount.
    destruct docType as [docType|].
    + destruct (Hkept (fun r => str_eqb (user_id r) v &&
                                DocumentType_eqb (doc_type r) docType)) as [-> ->];
        [|reflexivity].
      intros r Hr. apply andb_prop in Hr as [Hr _]. now apply str_eqb_eq.
    + destruct (Hkept (fun r => str_eqb (user_id r) v)) as [-> ->]; [|reflexivity].
      intros r Hr. now apply str_eqb_eq.
Qed.

Lemma writes_stay_with_their_user_witness :
  visibleTo (js "user_7") None (rows afterDeleteUser) =
    visibleTo (js "user_7") None (rows sampleStore) /\
  getDocumentCount afterDeleteUser (js "user_7") None =
    getDocumentCount sampleStore (js "user_7") None.
Proof.
  pose proof (writes_stay_with_their_user sampleEmbed sampleToVector sampleStringify
                sampleStore afterDeleteUser (js "user_42")
                (js "user_7") ltac:(discriminate)
                ltac:(right; right; exists 3; reflexivity)) as H.
  split; [exact (proj1 H None) | exact (proj2 H None)].
Defined.

(* ================================================================== *)
(** * Further properties of the embeddings                              *)
(* ================================================================== *)

Import Embeddings.

Lemma embedBatches_all create (e : jsstring -> list number) bs acc :
  (forall batch, create (Many batch) = Some (map e batch)) ->
  embedBatches create bs acc = Some (acc ++ map e (concat bs)).
Proof.
  intros Hc. revert acc. induction bs as [|b bs IH]; intros acc; cbn [embedBatches concat].
  - now rewrite app_nil_r.
  - rewrite Hc, IH, map_app, app_assoc. reflexivity.
Qed.

Lemma filter_length_lt {A : Type} (p : A -> bool) l x :
  In x l -> p x = false -> length (List.filter p l) < length l.
Proof.
  induction l as [|a l IH]; [intros []|]. cbn [List.filter length].
  intros [->|Hin] Hx.
  - rewrite Hx. pose proof (List.filter_length_le p l). lia.
  - specialize (IH Hin Hx). destruct (p a); cbn [length]; lia.
Qed.

Lemma embedTexts_clean create (e : jsstring -> list number) (texts : list jsstring) :
  (forall batch, create (Many batch) = Some (map e batch)) ->
  embedTexts create texts =
    Some (map e (List.filter (fun t => 0 <? length t) (map trim texts))).
Proof.
  intros Hc. unfold embedTexts. destruct texts as [|t texts]; [reflexivity|].
  change (length (t :: texts) =? 0) with false. cbv iota zeta.
  destruct (List.filter (fun t0 => 0 <? length t0) (map trim (t :: texts)))
    as [|c clean]; [reflexivity|].
  change (length (c :: clean) =? 0) with false. cbv iota.
  rewrite (embedBatches_all create e) by exact Hc. rewrite app_nil_l.
  do 2 f_equal. apply slices_concat; [unfold embeddingBatchSize; lia | apply Nat.le_refl].
Qed.

Lemma embedTexts_no_blank create (e : jsstring -> list number) (texts : list jsstring) :
  (forall batch, create (Many batch) = Some (map e batch)) ->
  (forall t, In t texts -> trim t <> []) ->
  embedTexts create texts = Some (map (fun t => e (trim t)) texts).
Proof.
  intros Hc Hall. rewrite (embedTexts_clean create e texts Hc). f_equal.
  rewrite filter_all, map_map; [reflexivity|].
  intros t Ht. apply in_map_iff in Ht as [x [<- Hx]].
  specialize (Hall x Hx). destruct (trim x); [congruence | reflexivity].
Qed.

Lemma embedTexts_blank create (e : jsstring -> list number) (texts : list jsstring) blank :
  (forall batch, create (Many batch) = Some (map e batch)) ->
  In blank texts -> trim blank = [] ->
  exists embeddings,
    embedTexts create texts = Some embeddings /\ length embeddings < length texts.
Proof.
  intros Hc Hin Hb. eexists. split; [exact (embedTexts_clean create e texts Hc)|].
  rewrite length_map.
  apply Nat.lt_le_trans with (length (map trim texts)); [|now rewrite length_map].
  apply (filter_length_lt _ _ (trim blank)); [now apply in_map | now rewrite Hb].
Qed.

(** X15.  [embedTexts] over a service that answers every batch with one
    embedding per text, in order: the batches of 2048 are put back together
    in order, so the result is the list of the embeddings of the trimmed
    texts that are not empty.  When no text is blank this is one embedding
    per text, at the position of the text; when some text is blank the
    result is shorter than the input, so positions past the blank text no
    longer correspond. *)
Theorem embedTexts_alignment
    (create : EmbeddingInput -> option (list (list number)))
    (e : jsstring -> list number) (texts : list jsstring) :
  (forall batch, create (Many batch) = Some (map e batch)) ->
  embedTexts create texts =
    Some (map e (List.filter (fun t => 0 <? length t) (map trim texts))) /\
  ((forall t, In t texts -> trim t <> []) ->
   embedTexts create texts = Some (map (fun t => e (trim t)) texts)) /\
  (forall blank, In blank texts -> trim blank = [] ->
   exists embeddings,
     embedTexts create texts = Some embeddings /\ length embeddings < length texts).
Proof.
  intros Hc. split; [exact (embedTexts_clean create e texts Hc)|]. split.
  - exact (embedTexts_no_blank create e texts Hc).
  - intros blank. exact (embedTexts_blank create e texts blank Hc).
Qed.

Lemma embedTexts_alignment_witness :
  embedTexts (fun input => match input with
                           | One _ => None
                           | Many batch => Some (map (fun _ => [Num 1]) batch)
                           end)
             [js "coffee"; js "  "; js " tea "] =
    Some (map (fun _ : jsstring => [Num 1])
              (List.filter (fun t => 0 <? length t)
                           (map trim [js "coffee"; js "  "; js " tea "]))).
Proof.
  apply (embedTexts_alignment _ (fun _ => [Num 1]) [js "coffee"; js "  "; js " tea "]).
  intros batch. reflexivity.
Defined.

(* ================================================================== *)
(** * Further properties of the agent state                             *)
(* ================================================================== *)

Import Agent.

Lemma distinct_In seen items a :
  In a (distinct seen items) <-> In a items /\ ~ In a seen.
Proof.
  revert seen. induction items as [|b items IH]; intros seen; cbn [distinct].
  - cbn. tauto.
  - destruct (existsb (str_eqb b) seen) eqn:E.
    + apply existsb_exists in E as [x [Hx Hb]]. apply str_eqb_eq in Hb. subst x.
      rewrite IH. cbn [In]. split; [tauto|]. intros [[->|H] Hn]; tauto.
    + assert (Hb : ~ In b seen).
      { intros Hin.
        assert (existsb (str_eqb b) seen = true)
          by (apply existsb_exists; exists b; split; [exact Hin | apply str_eqb_refl]).
        congruence. }
      cbn [In]. rewrite IH. cbn [In].
      destruct (List.list_eq_dec Ascii.ascii_dec a b) as [->|Hne]; [tauto|].
      split; [intros [H|[H1 H2]]; [congruence | tauto]|].
      intros [[H|H] Hn]; [congruence|]. right. split; [exact H|].
      intros [H'|H']; [congruence | tauto].
Qed.

Lemma distinct_NoDup seen items : List.NoDup (distinct seen items).
Proof.
  revert seen. induction items as [|b items IH]; intros seen; cbn [distinct];
    [constructor|].
  destruct (existsb (str_eqb b) seen); [apply IH|].
  constructor; [|apply IH]. rewrite distinct_In. cbn [In]. tauto.
Qed.

Lemma distinct_fresh seen x rest :
  List.NoDup x -> (forall a, In a x -> ~ In a seen) ->
  distinct seen (x ++ rest) = x ++ distinct (rev x ++ seen) rest.
Proof.
  revert seen. induction x as [|a x IH]; intros seen Hnd Hfresh; [reflexivity|].
  apply List.NoDup_cons_iff in Hnd as [Ha Hnd]. cbn [app distinct].
  assert (E : existsb (str_eqb a) seen = false).
  { destruct (existsb (str_eqb a) seen) eqn:E; [|reflexivity].
    apply existsb_exists in E as [y [Hy Hay]]. apply str_eqb_eq in Hay. subst y.
    destruct (Hfresh a (or_introl eq_refl) Hy). }
  rewrite E, IH; [|exact Hnd|].
  - cbn [rev]. now rewrite <- app_assoc.
  - intros b Hb [<-|Hin]; [tauto|]. apply (Hfresh b); [now right | exact Hin].
Qed.

(** X16.  The reducer of [toolsUsed] never lists a tool twice and loses
    none: its result has no duplicate, contains exactly the names of either
    side, and, when the names recorded so far are distinct, starts with
    them in their order; and names that are already recorded change
    nothing. *)
Theorem toolsUsedReducer_union (x y : list jsstring) :
  List.NoDup (toolsUsedReducer x y) /\
  (forall a, In a (toolsUsedReducer x y) <-> In a x \/ In a y) /\
  (List.NoDup x -> exists added, toolsUsedReducer x y = x ++ added) /\
  (List.NoDup x -> (forall a, In a y -> In a x) -> toolsUsedReducer x y = x).
Proof.
  unfold toolsUsedReducer. split; [apply distinct_NoDup|]. split.
  - intros a. rewrite distinct_In, in_app_iff. cbn [In]. tauto.
  - split.
    + intros Hnd. rewrite distinct_fresh; [eexists; reflexivity | exact Hnd|].
      intros a _ [].
    + intros Hnd Hsub. rewrite distinct_fresh; [|exact Hnd | intros a _ []].
      rewrite app_nil_r.
      assert (Hnone : distinct (rev x) y = []).
      { destruct (distinct (rev x) y) as [|a l] eqn:E; [reflexivity|].
        assert (Hin : In a (distinct (rev x) y)) by (rewrite E; now left).
        apply distinct_In in Hin as [Hy Hn]. destruct Hn.
        apply in_rev. rewrite rev_involutive. now apply Hsub. }
      now rewrite Hnone, app_nil_r.
Qed.

Lemma toolsUsedReducer_union_witness :
  toolsUsedReducer [js "sql_query"; js "get_categories"] [js "sql_query"] =
    [js "sql_query"; js "get_categories"].
Proof.
  apply (proj2 (proj2 (proj2 (toolsUsedReducer_union [js "sql_query"; js "get_categories"]
                                [js "sql_query"])))).
  - repeat (constructor; [cbn [In]; intuition discriminate|]). constructor.
  - intros a [<-|[]]. now left.
Defined.

(* ================================================================== *)
(** * Further properties of the charts                                  *)
(* ================================================================== *)

Import Charts.

Lemma first_some {A : Type} (a b : option A) c :
  match a with Some x => Some x | None => b end = Some c ->
  a = Some c \/ (a = None /\ b = Some c).
Proof. destruct a; intros H; [left; exact H | right; split; [reflexivity | exact H]]. Qed.

Lemma orElse_In (p : jsstring -> bool) columns i x :
  orElse (find p columns) (columns !! i) = Some x -> In x columns.
Proof.
  unfold orElse. destruct (truthy (find p columns)); intros H.
  - now apply find_some in H.
  - apply list_elem_of_In, list_elem_of_lookup. eauto.
Qed.

Section ChartFacts.

Variable Row : Type.
Variable Object_keys : Row -> list jsstring.

Lemma chartOf_sound type (results : list Row) valueKey labelKey text chart :
  chartOf Row type results valueKey labelKey text = Some chart ->
  exists name value,
    labelKey = Some name /\ valueKey = Some value /\ name <> [] /\ value <> [] /\
    chart = mkChart type results value name (js text).
Proof.
  unfold chartOf. destruct labelKey as [name|]; [|discriminate].
  destruct valueKey as [value|]; [|discriminate].
  destruct name as [|c name]; [discriminate|].
  destruct value as [|d value]; [discriminate|]. cbn [nonEmpty andb].
  intros H. injection H as <-. exists (c :: name), (d :: value).
  repeat split; discriminate.
Qed.

(** X17.  [detectChartType] proposes no chart for an empty result, and
    whatever chart it proposes can be drawn from the rows: the chart holds
    all the rows, its name key and its data key are non-empty column names
    of the first row, a pie chart is proposed for at most 15 rows only and
    a bar chart for 2 to 20 rows only, and the title is that of the type. *)
Theorem detectChartType_sound (userQuery : jsstring) (results : list Row) :
  detectChartType Row Object_keys userQuery [] = None /\
  forall chart,
    detectChartType Row Object_keys userQuery results = Some chart ->
    exists first rest,
      results = first :: rest /\ chart_data chart = results /\
      In (nameKey chart) (Object_keys first) /\ nameKey chart <> [] /\
      In (dataKey chart) (Object_keys first) /\ dataKey chart <> [] /\
      match chart_type chart with
      | line => title chart = js "Trend Over Time"
      | pie => title chart = js "Breakdown by Category" /\ length results <= 15
      | bar => title chart = js "Comparison" /\ 2 <= length results <= 20
      end.
Proof.
  split; [reflexivity|]. intros chart H.
  destruct results as [|first rest]; [discriminate|].
  exists first, rest. split; [reflexivity|].
  unfold detectChartType in H. cbv zeta in H.
  apply first_some in H as [H|[_ H]].
  { destruct (_ && _) in H; [|discriminate].
    apply chartOf_sound in H as [name [value [Hn [Hv [Hn0 [Hv0 ->]]]]]].
    cbn [chart_data nameKey dataKey chart_type title].
    apply orElse_In in Hn, Hv. repeat split; assumption. }
  apply first_some in H as [H|[_ H]].
  { destruct (_ && _) in H; [|discriminate].
    destruct (length (first :: rest) <=? 15) eqn:El in H; [|discriminate].
    apply chartOf_sound in H as [name [value [Hn [Hv [Hn0 [Hv0 ->]]]]]].
    cbn [chart_data nameKey dataKey chart_type title].
    apply orElse_In in Hn, Hv. apply Nat.leb_le in El. repeat split; assumption. }
  destruct (_ && _) eqn:Ec in H; [|discriminate].
  apply andb_prop in Ec as [Ec E20]. apply andb_prop in Ec as [_ E1].
  apply chartOf_sound in H as [name [value [Hn [Hv [Hn0 [Hv0 ->]]]]]].
  cbn [chart_data nameKey dataKey chart_type title].
  apply orElse_In in Hn, Hv. apply Nat.leb_le in E20. apply Nat.ltb_lt in E1.
  repeat split; try assumption; lia.
Qed.

End ChartFacts.

Lemma detectChartType_sound_witness :
  exists first rest,
    [[js "category"; js "total"]; [js "category"; js "total"]] = first :: rest /\
    chart_data (mkChart pie [[js "category"; js "total"]; [js "category"; js "total"]]
                        (js "total") (js "category") (js "Breakdown by Category")) =
      [[js "category"; js "total"]; [js "category"; js "total"]] /\
    In (js "category") first /\ js "category" <> [] /\
    In (js "total") first /\ js "total" <> [] /\
    (js "Breakdown by Category" = js "Breakdown by Category" /\ 2 <= 15).
Proof.
  apply (proj2 (detectChartType_sound (list jsstring) (fun row => row)
                  (js "Spending by Category")
                  [[js "category"; js "total"]; [js "category"; js "total"]])
           (mkChart pie [[js "category"; js "total"]; [js "category"; js "total"]]
                    (js "total") (js "category") (js "Breakdown by Category"))).
  reflexivity.
Defined.

(* ================================================================== *)
(** * Further properties of the upload summary                          *)
(* ================================================================== *)

Import Upload.

Lemma find_key_app (acc : Counts) key v key' :
  existsb (fun kv => str_eqb (fst kv) key) acc = false ->
  find (fun kv => str_eqb (fst kv) key') (acc ++ [(key, v)]) =
    if str_eqb key key' then Some (key, v)
    else find (fun kv => str_eqb (fst kv) key') acc.
Proof.
  induction acc as [|[k n] acc IH]; cbn [existsb find app fst]; intros H.
  - destruct (str_eqb key key'); reflexivity.
  - apply orb_false_iff in H as [Hk H]. rewrite (IH H).
    destruct (str_eqb k key') eqn:E; [|reflexivity].
    apply str_eqb_eq in E. subst key'.
    destruct (str_eqb key k) eqn:E'; [|reflexivity].
    apply str_eqb_eq in E'. subst key. rewrite str_eqb_refl in Hk. discriminate.
Qed.

Lemma find_key_map (acc : Counts) key v key' :
  existsb (fun kv => str_eqb (fst kv) key) acc = true ->
  option_map snd
    (find (fun kv => str_eqb (fst kv) key')
          (map (fun kv => if str_eqb (fst kv) key then (key, v) else kv) acc)) =
    if str_eqb key key' then Some v
    else option_map snd (find (fun kv => str_eqb (fst kv) key') acc).
Proof.
  assert (Hmap : forall acc : Counts,
    str_eqb key key' = false ->
    find (fun kv => str_eqb (fst kv) key')
         (map (fun kv => if str_eqb (fst kv) key then (key, v) else kv) acc) =
    find (fun kv => str_eqb (fst kv) key') acc).
  { clear acc. intros acc Hne. induction acc as [|[k n] acc IH]; [reflexivity|].
    cbn [map find fst]. destruct (str_eqb k key) eqn:E.
    - apply str_eqb_eq in E. subst k. cbn [fst]. rewrite Hne. exact IH.
    - cbn [fst]. destruct (str_eqb k key'); [reflexivity | exact IH]. }
  destruct (str_eqb key key') eqn:E.
  - apply str_eqb_eq in E. subst key'. clear Hmap.
    induction acc as [|[k n] acc IH]; cbn [existsb map find fst]; [discriminate|].
    intros H. destruct (str_eqb k key) eqn:Ek.
    + cbn [fst]. rewrite str_eqb_refl. reflexivity.
    + cbn [fst orb] in *. rewrite Ek. apply IH. exact H.
  - intros _. rewrite (Hmap acc eq_refl). reflexivity.
Qed.

(** Reading a property after an assignment. *)
Lemma getCount_setCount (acc : Counts) key v key' :
  getCount (setCount acc key v) key' =
    if str_eqb key key' then Some v else getCount acc key'.
Proof.
  unfold getCount, setCount.
  destruct (existsb (fun kv => str_eqb (fst kv) key) acc) eqn:E.
  - apply find_key_map. exact E.
  - rewrite (find_key_app acc key v key' E).
    destruct (str_eqb key key'); reflexivity.
Qed.

Lemma methodName_eqb (m m' : Method) :
  str_eqb (methodName m) (methodName m') = Method_eqb m m'.
Proof. destruct m, m'; reflexivity. Qed.

Lemma methodName_not_default (m : Method) :
  str_eqb (methodName m) (js "default") = false.
Proof. destruct m; reflexivity. Qed.

Lemma Method_eqb_sym (m m' : Method) : Method_eqb m m' = Method_eqb m' m.
Proof. destruct m, m'; reflexivity. Qed.

Lemma methodCounts_fold (categorizations : list (option CategorizationResult))
    (acc : Counts) :
  let counts :=
    fold_left (fun acc r => match r with Some r => countMethod acc r | None => acc end)
              categorizations acc in
  (forall m, orZero (getCount counts (methodName m)) =
             orZero (getCount acc (methodName m)) + countOf m categorizations) /\
  getCount counts (js "default") = getCount acc (js "default").
Proof.
  revert acc. induction categorizations as [|r cs IH]; intros acc; cbn zeta.
  - split; [intros m; unfold countOf; cbn; lia | reflexivity].
  - cbn [fold_left]. destruct (IH (match r with Some r => countMethod acc r | None => acc end))
      as [Hm Hd]. cbn zeta in Hm, Hd. split.
    + intros m. rewrite Hm. unfold countOf. cbn [List.filter].
      destruct r as [r|]; [|reflexivity].
      unfold countMethod. rewrite getCount_setCount, methodName_eqb.
      destruct (method r), m; cbn [Method_eqb methodName length];
        unfold orZero, from_option; destruct (getCount acc _); unfold Datatypes.id; lia.
    + rewrite Hd. destruct r as [r|]; [|reflexivity].
      unfold countMethod. rewrite getCount_setCount, methodName_not_default. reflexivity.
Qed.

Lemma countOf_total (categorizations : list (option CategorizationResult)) :
  countOf rule categorizations + countOf pattern categorizations +
  countOf ai categorizations + countOf fallback categorizations =
  length (List.filter (fun r => match r with Some _ => true | None => false end)
                      categorizations).
Proof.
  unfold countOf. induction categorizations as [|[r|] cs IH]; [reflexivity| |exact IH].
  cbn [List.filter]. destruct (method r); cbn [Method_eqb length]; lia.
Qed.

(** X18.  The summary of an upload counts the results by method: [byRule],
    [byPattern] and [byAI] are the numbers of results of these methods.
    [uncategorized] is read from a key that no method has and is always 0:
    the results of the fallback are reported in no field, so the three
    fields and the fallback results together make up the results. *)
Theorem categorizationSummary_counts
    (categorizations : list (option CategorizationResult)) :
  let summary := categorizationSummary categorizations in
  byRule summary = countOf rule categorizations /\
  byPattern summary = countOf pattern categorizations /\
  byAI summary = countOf ai categorizations /\
  uncategorized summary = 0 /\
  byRule summary + byPattern summary + byAI summary +
    countOf fallback categorizations =
  length (List.filter (fun r => match r with Some _ => true | None => false end)
                      categorizations).
Proof.
  cbn zeta. unfold categorizationSummary. cbn zeta.
  cbn [byRule byPattern byAI uncategorized].
  destruct (methodCounts_fold categorizations []) as [Hm Hd]. cbn zeta in Hm, Hd.
  fold (methodCounts categorizations) in Hm, Hd.
  pose proof (Hm rule) as Hr. pose proof (Hm pattern) as Hp. pose proof (Hm ai) as Ha.
  cbn [methodName] in Hr, Hp, Ha.
  change (getCount [] (js "rule")) with (@None nat) in Hr.
  change (getCount [] (js "pattern")) with (@None nat) in Hp.
  change (getCount [] (js "ai")) with (@None nat) in Ha.
  change (getCount [] (js "default")) with (@None nat) in Hd.
  cbn [orZero default] in Hr, Hp, Ha.
  rewrite Hr, Hp, Ha, Hd. cbn [orZero default plus].
  repeat split. apply countOf_total.
Qed.

(* ================================================================== *)
(** * Further properties of the vector column                           *)
(* ================================================================== *)

Import VectorColumn.

Lemma split_plain (sep : ascii) (s : jsstring) :
  (forall c, In c s -> c <> sep) -> Spec.split sep s = [s].
Proof.
  induction s as [|c s IH]; intros H; [reflexivity|].
  cbn [Spec.split]. destruct (char_eqb c sep) eqn:E.
  - apply char_eqb_eq in E. exfalso. apply (H c); [left; reflexivity | exact E].
  - rewrite IH; [reflexivity|]. intros d Hd. apply H. right. exact Hd.
Qed.

Lemma split_prefix (sep : ascii) (s rest : jsstring) :
  (forall c, In c s -> c <> sep) ->
  Spec.split sep (s ++ sep :: rest) = s :: Spec.split sep rest.
Proof.
  induction s as [|c s IH]; intros H.
  - cbn [app Spec.split]. rewrite char_eqb_refl. reflexivity.
  - cbn [app Spec.split]. destruct (char_eqb c sep) eqn:E.
    + apply char_eqb_eq in E. exfalso. apply (H c); [left; reflexivity | exact E].
    + rewrite IH; [reflexivity|]. intros d Hd. apply H. right. exact Hd.
Qed.

Lemma split_join (sep : ascii) (pieces : list jsstring) :
  pieces <> [] ->
  (forall s, In s pieces -> forall c, In c s -> c <> sep) ->
  Spec.split sep (join [sep] pieces) = pieces.
Proof.
  induction pieces as [|s pieces IH]; intros Hne H; [contradiction|].
  destruct pieces as [|s' pieces].
  - cbn [join]. rewrite ?app_nil_r. apply split_plain. apply H. left. reflexivity.
  - change (join [sep] (s :: s' :: pieces)) with (s ++ sep :: join [sep] (s' :: pieces)).
    rewrite split_prefix by (apply H; left; reflexivity).
    rewrite IH; [reflexivity | discriminate |].
    intros t Ht. apply H. right. exact Ht.
Qed.

Lemma In_join (sep : jsstring) (pieces : list jsstring) c :
  In c (join sep pieces) -> In c sep \/ exists s, In s pieces /\ In c s.
Proof.
  induction pieces as [|s pieces IH]; [intros []|].
  destruct pieces as [|s' pieces].
  - cbn [join]. rewrite ?app_nil_r. intros H. right. exists s. split; [left; reflexivity | exact H].
  - change (join sep (s :: s' :: pieces)) with (s ++ sep ++ join sep (s' :: pieces)).
    rewrite !in_app_iff. intros [H|[H|H]].
    + right. exists s. split; [left; reflexivity | exact H].
    + left. exact H.
    + destruct (IH H) as [Hs|[t [Ht Hc]]]; [left; exact Hs|].
      right. exists t. split; [right; exact Ht | exact Hc].
Qed.

Section DriverFacts.

Variable Number_toString : number -> jsstring.
Variable Number_ofString : jsstring -> number.

Lemma dropBrackets_toDriver (value : list number) :
  (forall x, In x value -> forall c, In c (Number_toString x) -> c <> "["%char /\ c <> "]"%char) ->
  dropBrackets (toDriver Number_toString value) =
  join (js ",") (map Number_toString value).
Proof.
  intros H. unfold dropBrackets, toDriver. rewrite !List.filter_app.
  change (List.filter (fun c => negb (char_eqb c "[" || char_eqb c "]")) (js "["))
    with (@nil ascii).
  change (List.filter (fun c => negb (char_eqb c "[" || char_eqb c "]")) (js "]"))
    with (@nil ascii).
  rewrite app_nil_r. cbn [app]. apply filter_all.
  intros c Hc. apply In_join in Hc as [Hc|[s [Hs Hc]]].
  - destruct Hc as [<-|[]]. reflexivity.
  - apply in_map_iff in Hs as [x [<- Hx]]. destruct (H x Hx c Hc) as [H1 H2].
    destruct (char_eqb c "[") eqn:E1; [apply char_eqb_eq in E1; contradiction|].
    destruct (char_eqb c "]") eqn:E2; [apply char_eqb_eq in E2; contradiction|].
    reflexivity.
Qed.

(** X19.  The vector column reads back what it wrote, for a vector with at
    least one component whose components are read back from their texts and
    whose texts hold no comma and no bracket.  The empty vector does not
    come back: it is written as a pair of brackets and read as the vector
    of the one number that the empty text stands for. *)
Theorem vector_column_round_trip (value : list number) :
  (forall x, In x value -> Number_ofString (Number_toString x) = x) ->
  (forall x, In x value -> forall c, In c (Number_toString x) ->
     c <> ","%char /\ c <> "["%char /\ c <> "]"%char) ->
  (value <> [] ->
   fromDriver Number_ofString (toDriver Number_toString value) = value) /\
  (value = [] ->
   fromDriver Number_ofString (toDriver Number_toString value) = [Number_ofString []]).
Proof.
  intros Hread Hchars. split.
  - intros Hne. unfold fromDriver. cbv zeta.
    rewrite dropBrackets_toDriver by (intros x Hx c Hc; apply (Hchars x Hx c Hc)).
    change (js ",") with ([","%char]).
    rewrite split_join.
    + rewrite map_map. rewrite <- (map_id value) at 2.
      apply map_ext_in. exact Hread.
    + destruct value; [contradiction | discriminate].
    + intros s Hs c Hc. apply in_map_iff in Hs as [x [<- Hx]].
      apply (Hchars x Hx c Hc).
  - intros ->. reflexivity.
Qed.

End DriverFacts.

Lemma vector_column_round_trip_witness :
  fromDriver sampleOfString (toDriver sampleToString [Num 1; Num (1 # 2)]) =
    [Num 1; Num (1 # 2)].
Proof.
  apply (proj1 (vector_column_round_trip sampleToString sampleOfString
                  [Num 1; Num (1 # 2)]
                  ltac:(intros x [<-|[<-|[]]]; reflexivity)
                  ltac:(intros x [<-|[<-|[]]] c Hc; cbn in Hc;
                        repeat (destruct Hc as [<-|Hc]; [repeat split; discriminate|]);
                        destruct Hc))).
  discriminate.
Defined.

(* ================================================================== *)
(** * Further properties of the batch upsert                            *)
(* ================================================================== *)

Section BatchUpserts.

Variable create : EmbeddingInput -> option (list (list number)).
Variable e : jsstring -> list number.
Variable toVector : list number -> option (list number).
Variable JSON_stringify : JSON -> jsstring.

Hypothesis create_one : forall text, create (One text) = Some [e text].

Lemma embedText_one (text : jsstring) :
  trim text <> [] -> embedText create text = Some (e (trim text)).
Proof.
  intros H. unfold embedText.
  destruct text as [|c text]; [exfalso; apply H; reflexivity|].
  cbn [nonEmpty negb orb].
  destruct (trim (c :: text)) as [|c' text'] eqn:E; [congruence|].
  cbn [length Nat.eqb]. rewrite create_one. reflexivity.
Qed.

Lemma upsertDocument_statement (embed : jsstring -> option (list number))
    store u t s text metadata embedding :
  embed text = Some embedding ->
  upsertDocument embed toVector JSON_stringify store u t s text metadata =
  insertOrUpdate toVector store u t (sourceKey s) text embedding (JSON_stringify metadata).
Proof. intros H. unfold upsertDocument, insertOrUpdate. rewrite H. reflexivity. Qed.

Lemma upsertLoop_aligned (documents : list NewDocument) :
  (forall d, In d documents -> trim (new_text d) <> []) ->
  forall pre store ids,
    upsertLoop toVector JSON_stringify
               (pre ++ map (fun text => e (trim text)) (map new_text documents))
               (length pre) documents store ids =
    upsertEach create toVector JSON_stringify store documents ids.
Proof.
  induction documents as [|d rest IH]; intros Hall pre store ids; [reflexivity|].
  cbn [upsertLoop upsertEach map].
  rewrite (list_lookup_middle pre _ _ (length pre) eq_refl).
  rewrite (upsertDocument_statement _ store _ _ _ _ _ (e (trim (new_text d))))
    by (apply embedText_one, Hall; left; reflexivity).
  destruct (insertOrUpdate _ _ _ _ _ _ _ _) as [[rowId store']|]; [|reflexivity].
  specialize (IH (fun d' H => Hall d' (or_intror H))
                 (pre ++ [e (trim (new_text d))]) store' (ids ++ [rowId])).
  rewrite <- app_assoc, length_app in IH. cbn [app length] in IH.
  rewrite Nat.add_1_r in IH. exact IH.
Qed.

Lemma upsertLoop_short (embeddings : list (list number)) (documents : list NewDocument) :
  forall i store ids,
    i <= length embeddings -> length embeddings < i + length documents ->
    fst (upsertLoop toVector JSON_stringify embeddings i documents store ids) = None.
Proof.
  induction documents as [|d rest IH]; intros i store ids Hi Hlen.
  - cbn [length] in Hlen. lia.
  - cbn [upsertLoop]. destruct (embeddings !! i) as [embedding|] eqn:El; [|reflexivity].
    destruct (insertOrUpdate _ _ _ _ _ _ _ _) as [[rowId store']|]; [|reflexivity].
    apply lookup_lt_Some in El. apply IH; [lia|]. cbn [length] in Hlen. lia.
Qed.

End BatchUpserts.

(** X20.  Over an embedding service that answers one text and a batch of
    texts alike, [upsertDocuments] does what one [upsertDocument] per
    document does, in order, when no text is blank: the same ids, the same
    rows, and the same rows when a statement fails on the way.  When some
    text is blank, [embedTexts] returns fewer embeddings than there are
    documents and [upsertDocuments] throws. *)
Theorem upsertDocuments_as_single_upserts
    (create : EmbeddingInput -> option (list (list number)))
    (e : jsstring -> list number)
    (toVector : list number -> option (list number))
    (JSON_stringify : JSON -> jsstring)
    (store : Store) (documents : list NewDocument) :
  (forall text, create (One text) = Some [e text]) ->
  (forall batch, create (Many batch) = Some (map e batch)) ->
  ((forall d, In d documents -> trim (new_text d) <> []) ->
   upsertDocuments create toVector JSON_stringify store documents =
   upsertEach create toVector JSON_stringify store documents []) /\
  (forall d, In d documents -> trim (new_text d) = [] ->
   fst (upsertDocuments create toVector JSON_stringify store documents) = None).
Proof.
  intros Hone Hmany. split.
  - intros Hall. unfold upsertDocuments. cbv zeta.
    rewrite (embedTexts_no_blank create e (map new_text documents) Hmany).
    + apply (upsertLoop_aligned create e toVector JSON_stringify Hone documents Hall []).
    + intros t Ht. apply in_map_iff in Ht as [d [<- Hd]]. apply Hall, Hd.
  - intros d Hd Hblank. unfold upsertDocuments. cbv zeta.
    destruct (embedTexts_blank create e (map new_text documents) (new_text d) Hmany)
      as [embeddings [-> Hlen]]; [now apply in_map | exact Hblank |].
    rewrite length_map in Hlen.
    apply upsertLoop_short; [lia | exact Hlen].
Qed.

Lemma upsertDocuments_as_single_upserts_witness :
  upsertDocuments lengthService sampleToVector sampleStringify sampleStore
                  sampleDocuments =
  upsertEach lengthService sampleToVector sampleStringify sampleStore
             sampleDocuments [] /\
  fst (upsertDocuments lengthService sampleToVector sampleStringify sampleStore
                       blankFirst) = None.
Proof.
  split.
  - apply (proj1 (upsertDocuments_as_single_upserts lengthService lengthEmbedding
                    sampleToVector sampleStringify sampleStore sampleDocuments
                    (fun _ => eq_refl) (fun _ => eq_refl))).
    intros d [<-|[<-|[]]]; vm_compute; discriminate.
  - apply (proj2 (upsertDocuments_as_single_upserts lengthService lengthEmbedding
                    sampleToVector sampleStringify sampleStore blankFirst
                    (fun _ => eq_refl) (fun _ => eq_refl))
                 (mkNewDocument (js "user_42") Schema.transaction (SourceNumber 16)
                                (js "  ") None)).
    + left. reflexivity.
    + reflexivity.
Defined.

(** With a blank text in the batch the rows written before the throw carry
    embeddings of other texts: here the document with the blank text is
    stored with the embedding of the text after it. *)
Lemma upsertDocuments_blank_misaligned :
  exists store',
    upsertDocuments lengthService sampleToVector sampleStringify
                    (mkStore [] 1 true) blankFirst = (None, store') /\
    In (mkRow 1 (js "user_42") Schema.transaction (js "16") (js "  ")
              (lengthEmbedding (js "coffee at PEETS")) (js "{}"))
       (rows store').
Proof. eexists. split; [vm_compute; reflexivity|]. vm_compute. left. reflexivity. Qed.
